(** * nanomatch: the glob tokenizer rules of [lib/parsers.js]

    A shallow embedding of the fourteen lexical rules that nanomatch
    registers on its parser, together with the scan loop that drives them,
    and the properties of the tokenizer stated against that embedding.

    Strings are JavaScript strings: sequences of UTF-16 code units.  A
    regular expression is embedded as a backtracking matcher that lists its
    matches in the priority order of a JavaScript engine, so that the first
    element of the list is the match [RegExp.prototype.exec] reports. *)

From Stdlib Require Import Ascii String List NArith Arith Bool Lia.
Import ListNotations.

Set Implicit Arguments.

(* ================================================================= *)
(** ** Strings *)

(** A code unit and a string of code units. *)
Definition char := N.
Definition str := list char.

Definition char_of (a : ascii) : char := N_of_ascii a.
Arguments char_of a%_char.
Definition js (s : string) : str := map N_of_ascii (list_ascii_of_string s).

(** The two quote characters and the backslash, by code. *)
Definition dquote : char := 34%N.
Definition squote : char := 39%N.
Definition bslash : char := 92%N.

Definition char_eqb (a b : char) : bool := N.eqb a b.

Fixpoint str_eqb (a b : str) : bool :=
  match a, b with
  | [], [] => true
  | x :: a', y :: b' => char_eqb x y && str_eqb a' b'
  | _, _ => false
  end.

Definition mem (c : char) (w : str) : bool := existsb (char_eqb c) w.

(** [s.slice(0, n)], [s.slice(n)] / [s.substr(n)], [s.charAt(i)]
    ([None] stands for the empty string [charAt] returns out of range) and
    [s.indexOf(c) !== -1]. *)
Definition slice_to (n : nat) (s : str) : str := firstn n s.
Definition slice_from (n : nat) (s : str) : str := skipn n s.
Definition charAt (s : str) (i : nat) : option char := nth_error s i.
Definition includes (s : str) (c : char) : bool := mem c s.

(** Line terminators: the characters [.] does not match (no [s] flag). *)
Definition line_terminator (c : char) : bool :=
  mem c [10%N; 13%N; 8232%N; 8233%N].

(* ================================================================= *)
(** ** Regular expressions as backtracking matchers *)

Module Regex.

(** A matcher maps the input at the cursor to the list of its matches,
    most preferred first; a match is a value and the input left over. *)
Definition Re (A : Type) := str -> list (A * str).

Definition ret {A} (a : A) : Re A := fun s => [(a, s)].

Definition bind {A B} (r : Re A) (f : A -> Re B) : Re B :=
  fun s => flat_map (fun m => f (fst m) (snd m)) (r s).

Definition fail {A} : Re A := fun _ => [].

(** [a|b]: every match of [a] is preferred to every match of [b]. *)
Definition alt {A} (a b : Re A) : Re A := fun s => a s ++ b s.

(** A single character of a class; the value is the text matched. *)
Definition chr (p : char -> bool) : Re str :=
  fun s => match s with
           | c :: s' => if p c then [([c], s')] else []
           | [] => []
           end.

(** Concatenation of two matchers that return their text. *)
Definition cat (a b : Re str) : Re str :=
  bind a (fun x => bind b (fun y => ret (x ++ y))).

(** [(?=r)] and [(?!r)]: zero-width, no backtracking into [r]. *)
Definition look {A} (r : Re A) : Re str :=
  fun s => match r s with [] => [] | _ :: _ => [([], s)] end.

Definition nlook {A} (r : Re A) : Re str :=
  fun s => match r s with [] => [([], s)] | _ :: _ => [] end.

(** [$] without the [m] flag: end of input. *)
Definition eos : Re str :=
  fun s => match s with [] => [([], [])] | _ :: _ => [] end.

(** [r+], greedy: after one iteration, further iterations are tried
    before stopping; an iteration that consumes nothing is not repeated. *)
Fixpoint plus_fuel (fuel : nat) (r : Re str) : Re str :=
  match fuel with
  | 0 => fail
  | S fuel' =>
      fun s =>
        flat_map
          (fun m =>
             (if length (snd m) <? length s
              then map (fun m' => (fst m ++ fst m', snd m'))
                       (plus_fuel fuel' r (snd m))
              else [])
             ++ [m])
          (r s)
  end.

Definition plus (r : Re str) : Re str :=
  fun s => plus_fuel (S (length s)) r s.

(** [r?] and [r*], greedy. *)
Definition opt (r : Re str) : Re str := alt r (ret []).
Definition star (r : Re str) : Re str := alt (plus r) (ret []).

(** [r{n}] and [r{n,}]. *)
Fixpoint rep (n : nat) (r : Re str) : Re str :=
  match n with
  | 0 => ret []
  | S n' => cat r (rep n' r)
  end.

Definition rep_ge (n : nat) (r : Re str) : Re str := cat (rep n r) (star r).

(** A literal character, a literal word, [[...]], [[^...]] and [.]. *)
Definition lit1 (c : char) : Re str := chr (fun x => char_eqb x c).

Fixpoint lit (w : str) : Re str :=
  match w with
  | [] => ret []
  | c :: w' => cat (lit1 c) (lit w')
  end.

Definition cls (w : str) : Re str := chr (fun c => mem c w).
Definition ncls (w : str) : Re str := chr (fun c => negb (mem c w)).
Definition any : Re str := chr (fun c => negb (line_terminator c)).

(** [regex.exec(input)] for a pattern anchored with [^]: the preferred
    match, if there is one. *)
Definition exec {A} (r : Re A) (s : str) : option A :=
  match r s with
  | [] => None
  | m :: _ => Some (fst m)
  end.

End Regex.

Import Regex.

Arguments plus r s : simpl never.

Declare Scope re_scope.
Delimit Scope re_scope with re.
Bind Scope re_scope with Re.
Notation "x <- a ;; b" := (bind a (fun x => b))
  (at level 61, a at next level, right associativity) : re_scope.
Infix "+++" := cat (at level 60, right associativity) : re_scope.
Infix "<|>" := alt (at level 62, right associativity) : re_scope.
Open Scope re_scope.

(* ================================================================= *)
(** ** The patterns of [lib/parsers.js] *)

Module Patterns.

(** [/^\.[\\/]/] *)
Definition prefix_re : Re str := lit (js ".") +++ cls (js "\/").

(** [/^(?:\\(.)|([$^]))/]: the value is [m[0]], [m[1]], [m[2]]. *)
Definition escape_re : Re (str * option str * option str) :=
  (b <- lit1 bslash ;; c <- any ;; ret (b ++ c, Some c, None))
  <|> (c <- cls (js "$^") ;; ret (c, None, Some c)).

(** [/^[Q']/], where [Q] is the double quote. *)
Definition quote_re : Re str := cls [dquote; squote].

(** [/^!+/], the default of the not rule. *)
Definition not_re : Re str := plus (lit1 (char_of "!")).

(** [/^\.+/] *)
Definition dot_re : Re str := plus (lit1 (char_of ".")).

(** [/^\+(?!\()/] *)
Definition plus_re : Re str := lit (js "+") +++ nlook (lit (js "(")).

(** [/^\?+(?!\()/] *)
Definition qmark_re : Re str :=
  plus (lit1 (char_of "?")) +++ nlook (lit (js "(")).

(** [/^\*{2}(?![*(])(?=[,)/]|$)/] *)
Definition globstar_re : Re str :=
  rep 2 (lit (js "*")) +++ nlook (cls (js "*("))
  +++ look (cls (js ",)/") <|> eos).

(** [/^(?:\*(?![*(])|[*]{3,}(?!\()|[*]{2}(?![(/]|$)|\*(?=\*\())/] *)
Definition star_re : Re str :=
  (lit (js "*") +++ nlook (cls (js "*(")))
  <|> (rep_ge 3 (cls (js "*")) +++ nlook (lit (js "(")))
  <|> (rep 2 (cls (js "*")) +++ nlook (cls (js "(/") <|> eos))
  <|> (lit (js "*") +++ look (lit (js "*("))).

(** [/^\//] *)
Definition slash_re : Re str := lit (js "/").

(** [/^\\(?![*+?(){}[\]'Q])/], where [Q] is the double quote. *)
Definition backslash_re : Re str :=
  lit1 bslash +++ nlook (cls (js "*+?(){}[]'" ++ [dquote])).

(** [/^\[([^!^\\])\]/]: the value is [m[0]] and [m[1]]. *)
Definition square_re : Re (str * str) :=
  o <- lit (js "[") ;; c <- ncls (js "!^\") ;; e <- lit (js "]") ;;
  ret (o ++ c ++ e, c).

(** [/^(?:\[([!^]?)([^\]]+|\]-)(\]|[^*+?]+)|\[)/]: the value is [m[0]]
    and the three groups, which take part only in the first branch. *)
Definition bracket_class_re
  : Re (str * option str * option str * option str) :=
  o <- lit (js "[") ;;
  g1 <- opt (cls (js "!^")) ;;
  g2 <- (plus (ncls (js "]")) <|> lit (js "]-")) ;;
  g3 <- (lit (js "]") <|> plus (ncls (js "*+?"))) ;;
  ret (o ++ g1 ++ g2 ++ g3, Some g1, Some g2, Some g3).

Definition bracket_open_re
  : Re (str * option str * option str * option str) :=
  o <- lit (js "[") ;; ret (o, None, None, None).

Definition bracket_re
  : Re (str * option str * option str * option str) :=
  bracket_class_re <|> bracket_open_re.

(** [NOT_REGEX], a run of the characters claimed by the other rules:
    the class holds the twelve characters [[ ! * + ? $ ^ ' . \ /] and the
    double quote. *)
Definition NOT_CHARS : str := js "[!*+?$^" ++ [dquote] ++ js "'.\/".
Definition NOT_REGEX : Re str := plus (cls NOT_CHARS).

(** Modelled from the spec: [regexNot.create] belongs to the package
    regex-not and is not part of the sources.  With [contains: true] and
    [strictClose: false] it builds the anchored pattern
    [^(?:(?!(?:pattern)).)+], a run of characters none of which starts a
    match of [pattern] (the negated-character matcher of the system
    overview). *)
Definition regexNot_create (pattern : Re str) : Re str :=
  plus (nlook pattern +++ any).

(** [createTextRegex(NOT_REGEX)]:
    ['^(?:[*]\\((?=.)|' + not + ')'] *)
Definition createTextRegex (pattern : Re str) : Re str :=
  (cls (js "*") +++ lit (js "(") +++ look any)
  <|> regexNot_create pattern.

Definition text_re : Re str := createTextRegex NOT_REGEX.

End Patterns.

Import Patterns.

Example globstar_re_end : exec globstar_re (js "**") = Some (js "**").
Proof. reflexivity. Qed.

Example globstar_re_slash : exec globstar_re (js "**/b") = Some (js "**").
Proof. reflexivity. Qed.

Example globstar_re_text : exec globstar_re (js "**b") = None.
Proof. reflexivity. Qed.

Example star_re_three : exec star_re (js "***(") = Some (js "**").
Proof. reflexivity. Qed.

Example star_re_group : exec star_re (js "**(a)") = Some (js "*").
Proof. reflexivity. Qed.

Example qmark_re_backtracks : exec qmark_re (js "??(") = Some (js "?").
Proof. reflexivity. Qed.

Example bracket_re_class :
  exec bracket_re (js "[!abc]")
  = Some (js "[!abc]", Some (js "!"), Some (js "abc"), Some (js "]")).
Proof. reflexivity. Qed.

Example bracket_re_open :
  exec bracket_re (js "[abc")
  = Some (js "[abc", Some [], Some (js "ab"), Some (js "c")).
Proof. reflexivity. Qed.

Example bracket_re_bare :
  exec bracket_re (js "[a") = Some (js "[", None, None, None).
Proof. reflexivity. Qed.

Example text_re_run : exec text_re (js "foo/bar") = Some (js "foo").
Proof. reflexivity. Qed.

Example text_re_group : exec text_re (js "*(a)") = Some (js "*(").
Proof. reflexivity. Qed.

(* ================================================================= *)
(** ** Data model *)

(** The [type] tag of a node. *)
Inductive NodeType : Type :=
  | t_escape | t_quoted | t_not | t_dot | t_plus | t_qmark | t_globstar
  | t_star | t_slash | t_backslash | t_square | t_bracket | t_text.

(** A node is the object literal a rule returns: [type] and [val] are always
    present, the other fields only on the nodes of the rules that set them.
    The position stamped by [pos] is metadata and is left out. *)
Module Node.

Record t : Type := mk {
  type : NodeType;
  val : str;
  parsed : option str;            (* qmark, globstar *)
  dotfiles : option bool;         (* dot *)
  isInside : option (bool * bool); (* globstar: brace, paren *)
  escaped : option bool;          (* bracket *)
  negated : option str;           (* bracket *)
  inner : option str;             (* bracket *)
  close : option str              (* bracket *)
}.

Definition plain (ty : NodeType) (v : str) : t :=
  mk ty v None None None None None None None.

End Node.

(** [parser.state]: [slashes] and [paths] are set at registration, the flags
    are absent ([None]) until a rule assigns them. *)
Module State.

Record t : Type := mk {
  slashes : nat;
  paths : list str;
  strictOpen : option bool;
  addPrefix : option bool;
  dot : option bool;
  metachar : option bool;
  qmark : option bool;
  star : option bool;
  globstar : option bool
}.

Definition init : t := mk 0 [] None None None None None None None.

Definition set_prefix (so : bool) (s : t) : t :=
  mk (slashes s) (paths s) (Some so) (Some true) (dot s)
     (metachar s) (qmark s) (star s) (globstar s).

Definition set_dot (d : bool) (s : t) : t :=
  mk (slashes s) (paths s) (strictOpen s) (addPrefix s) (Some d)
     (metachar s) (qmark s) (star s) (globstar s).

Definition set_metachar (s : t) : t :=
  mk (slashes s) (paths s) (strictOpen s) (addPrefix s) (dot s)
     (Some true) (qmark s) (star s) (globstar s).

Definition set_qmark (s : t) : t :=
  mk (slashes s) (paths s) (strictOpen s) (addPrefix s) (dot s)
     (metachar s) (Some true) (star s) (globstar s).

Definition set_star (s : t) : t :=
  mk (slashes s) (paths s) (strictOpen s) (addPrefix s) (dot s)
     (metachar s) (qmark s) (Some true) (globstar s).

Definition set_globstar (s : t) : t :=
  mk (slashes s) (paths s) (strictOpen s) (addPrefix s) (dot s)
     (metachar s) (qmark s) (star s) (Some true).

Definition incr_slashes (s : t) : t :=
  mk (S (slashes s)) (paths s) (strictOpen s) (addPrefix s) (dot s)
     (metachar s) (qmark s) (star s) (globstar s).

End State.

(** The recognized options.  [strictOpen] is read through [!!], the other
    two are compared with [true]: each is modelled by that test. *)
Module Options.

Record t : Type := mk {
  strictOpen : bool;
  nonegate : bool;
  noglobstar : bool
}.

Definition default : t := mk false false false.

End Options.

(** Modelled from the spec: the parser object on which the rules run is
    created by the package snapdragon and is not part of the sources.  It
    owns the remaining input, the text parsed so far, the two out-of-band
    strings of the AST (the beginning-of-string value, unset by default, and
    the appended suffix, empty by default), the optional [notRegex] override
    read by the not rule, and the structural contexts that [isInside]
    queries. *)
Module Parser.

Record t : Type := mk {
  options : Options.t;
  input : str;
  parsed : str;
  state : State.t;
  bos_val : option str;
  append : str;
  notRegex : option (Re str);
  inside_bracket : bool;
  inside_brace : bool;
  inside_paren : bool
}.

Definition set_input (i : str) (p : t) : t :=
  mk (options p) i (parsed p) (state p) (bos_val p) (append p)
     (notRegex p) (inside_bracket p) (inside_brace p) (inside_paren p).

Definition set_parsed (d : str) (p : t) : t :=
  mk (options p) (input p) d (state p) (bos_val p) (append p)
     (notRegex p) (inside_bracket p) (inside_brace p) (inside_paren p).

Definition set_state (s : State.t) (p : t) : t :=
  mk (options p) (input p) (parsed p) s (bos_val p) (append p)
     (notRegex p) (inside_bracket p) (inside_brace p) (inside_paren p).

Definition set_wrap (b a : str) (p : t) : t :=
  mk (options p) (input p) (parsed p) (state p) (Some b) a
     (notRegex p) (inside_bracket p) (inside_brace p) (inside_paren p).

(** A fresh parser on a pattern: [parser.state = {slashes: 0, paths: []}]. *)
Definition init (o : Options.t) (pattern : str) : t :=
  mk o pattern [] State.init None [] None false false false.

End Parser.

(** Modelled from the spec: the scan cursor operations of the parser
    object (package snapdragon, not part of the sources).  [consume n]
    drops [n] characters of the remaining input; [match] runs a pattern at
    the cursor and, when it matches, appends the matched text [m[0]] to the
    text parsed so far and consumes its length; [position()] returns the
    closure [pos] that stamps the source span on a node, which this model
    leaves out. *)
Module Cursor.

Definition consume (n : nat) (p : Parser.t) : Parser.t :=
  Parser.set_input (slice_from n (Parser.input p)) p.

Definition updatePosition (m0 : str) (p : Parser.t) : Parser.t :=
  consume (length m0) (Parser.set_parsed (Parser.parsed p ++ m0) p).

Definition pmatch {A} (r : Re A) (m0 : A -> str) (p : Parser.t)
  : option (A * Parser.t) :=
  match exec r (Parser.input p) with
  | None => None
  | Some m => Some (m, updatePosition (m0 m) p)
  end.

End Cursor.

Import Cursor.

(** What one call of a rule does: it returns [undefined] without having
    matched, or it matched (and returns a node, or [undefined] after
    mutating the parser), or it throws. *)
Inductive Outcome : Type :=
  | NoMatch
  | Matched (tok : option Node.t) (p : Parser.t)
  | Thrown.

(* ================================================================= *)
(** ** Helpers of the rules *)

Definition nonempty (s : str) : bool :=
  match s with [] => false | _ :: _ => true end.

Fixpoint starts_with (w s : str) : bool :=
  match w, s with
  | [], _ => true
  | x :: w', y :: s' => char_eqb y x && starts_with w' s'
  | _ :: _, [] => false
  end.

(** [s.indexOf(w) !== -1] *)
Fixpoint indexOf_found (s w : str) : bool :=
  starts_with w s
  || match s with
     | [] => false
     | _ :: s' => indexOf_found s' w
     end.

(** [s.charAt(i)]: a string of one character, or the empty string. *)
Definition charAt_str (s : str) (i : nat) : str :=
  match charAt s i with
  | Some c => [c]
  | None => []
  end.

(** [s.slice(-1)] *)
Definition last_char (s : str) : str :=
  match rev s with
  | [] => []
  | c :: _ => [c]
  end.

(** A captured group is truthy when it took part in the match and is not
    empty. *)
Definition truthy (g : option str) : bool :=
  match g with
  | Some (_ :: _) => true
  | _ => false
  end.

(** [a || b] on captured groups, read as a string. *)
Definition or_group (a b : option str) : str :=
  match a with
  | Some (c :: a') => c :: a'
  | _ => match b with Some v => v | None => [] end
  end.

(** [s.replace(/\\\\+/, '\\\\')]: the leftmost run of two or more
    backslashes becomes two backslashes. *)
Fixpoint drop_backslashes (s : str) : str :=
  match s with
  | c :: s' => if char_eqb c bslash then drop_backslashes s' else s
  | [] => []
  end.

Fixpoint collapse_backslashes (s : str) : str :=
  match s with
  | a :: s' =>
      match s' with
      | b :: s'' =>
          if char_eqb a bslash && char_eqb b bslash
          then bslash :: bslash :: drop_backslashes s''
          else a :: collapse_backslashes s'
      | [] => s
      end
  | [] => []
  end.

(* ================================================================= *)
(** ** [advanceTo]: the scan of a quoted span *)

Module AdvanceTo.

(** [tok = { len, val, esc }] *)
Record Tok : Type := mkTok {
  len : nat;
  val : str;
  esc : str
}.

(** The variables the closure [advance] shares with [advanceTo]. *)
Record Scan : Type := mkScan {
  ch : str;
  idx : nat;
  tok : Tok
}.

(** [advance()].  The function calls itself twice when the character it
    steps onto is a backslash; [fuel] bounds the depth of these calls. *)
Fixpoint advance (fuel : nat) (input : str) (s : Scan) : option Scan :=
  match fuel with
  | 0 => None
  | S fuel' =>
      let t := tok s in
      let t1 :=
        if negb (str_eqb (ch s) [bslash])
        then mkTok (len t) (val t ++ ch s) (esc t ++ [bslash] ++ ch s)
        else t in
      let idx1 := S (idx s) in
      let ch1 := charAt_str input idx1 in
      let s1 := mkScan ch1 idx1 (mkTok (S (len t1)) (val t1) (esc t1)) in
      if str_eqb ch1 [bslash]
      then match advance fuel' input s1 with
           | Some s2 => advance fuel' input s2
           | None => None
           end
      else Some s1
  end.

(** [while (ch && ch !== endChar) advance();] *)
Fixpoint loop (fuel : nat) (input endChar : str) (s : Scan)
  : option Scan :=
  match fuel with
  | 0 => None
  | S fuel' =>
      if nonempty (ch s) && negb (str_eqb (ch s) endChar)
      then match advance (S (length input)) input s with
           | Some s1 => loop fuel' input endChar s1
           | None => None
           end
      else Some s
  end.

Definition start (input : str) : Scan :=
  mkScan (charAt_str input 0) 0 (mkTok 1 [] []).

Definition run (input endChar : str) : option Scan :=
  loop (S (length input)) input endChar (start input).

(** [advanceTo(input, endChar)]; the fuel given to [run] is always
    enough (lemma [run_total] below), so the second branch is never
    taken. *)
Definition advanceTo (input endChar : str) : Tok :=
  match run input endChar with
  | Some s => tok s
  | None => mkTok 1 [] []
  end.

End AdvanceTo.

Import AdvanceTo.

(* ================================================================= *)
(** ** The rules, in the order they are registered *)

(** [while (this.input.slice(0, 4) === '/**/') this.input = this.input.slice(3);]
    Each turn drops three characters, so [length input] turns are enough. *)
Fixpoint fold_globstars (fuel : nat) (input : str) : str :=
  match fuel with
  | 0 => input
  | S fuel' =>
      if str_eqb (slice_to 4 input) (js "/**/")
      then fold_globstars fuel' (slice_from 3 input)
      else input
  end.

(** The loop of the bracket rule over [str = this.input]: every character
    is consumed; a character other than the closing bracket is added to
    [inner]; on a closing bracket the rule assigns to [close], which is
    declared [const], and the assignment throws a TypeError ([None]). *)
Fixpoint bracket_scan (s : str) (p : Parser.t) (inner : str)
  : option (Parser.t * str) :=
  match s with
  | [] => Some (p, inner)
  | c :: s' =>
      let p1 := consume 1 p in
      if str_eqb [c] (js "]")
      then None
      else bracket_scan s' p1 (inner ++ [c])
  end.

Module Rules.

(** Beginning-of-string *)
Definition prefix (p : Parser.t) : Outcome :=
  if nonempty (Parser.parsed p) then NoMatch else
  match pmatch prefix_re (fun m => m) p with
  | None => NoMatch
  | Some (_, p1) =>
      Matched None
        (Parser.set_state
           (State.set_prefix (Options.strictOpen (Parser.options p1))
                             (Parser.state p1)) p1)
  end.

(** Escape *)
Definition escape (p : Parser.t) : Outcome :=
  if Parser.inside_bracket p then NoMatch else
  match pmatch escape_re (fun m => fst (fst m)) p with
  | None => NoMatch
  | Some ((_, m1, m2), p1) =>
      Matched (Some (Node.plain t_escape (or_group m2 m1))) p1
  end.

(** Quoted strings *)
Definition quoted_body (quote : str) (p1 : Parser.t) : Outcome :=
  if negb (indexOf_found (Parser.input p1) quote)
  then Matched (Some (Node.plain t_escape quote)) p1
  else
    let tok := advanceTo (Parser.input p1) quote in
    Matched (Some (Node.plain t_quoted (esc tok))) (consume (len tok) p1).

Definition quoted (p : Parser.t) : Outcome :=
  match pmatch quote_re (fun m => m) p with
  | None => NoMatch
  | Some (m, p1) => quoted_body m p1
  end.

(** Negations *)
Definition not_body (parsed m0 : str) (p1 : Parser.t) : Outcome :=
  let val := m0 in
  let isNegated := Nat.eqb (Nat.modulo (length val) 2) 1 in
  let val1 :=
    if str_eqb parsed [] && negb isNegated then [] else val in
  if str_eqb parsed [] && isNegated
     && negb (Options.nonegate (Parser.options p1))
  then Matched (Some (Node.plain t_not []))
               (Parser.set_wrap (js "(?!^(?:") (js ")$).*") p1)
  else Matched (Some (Node.plain t_not val1)) p1.

Definition not (p : Parser.t) : Outcome :=
  let parsed := Parser.parsed p in
  let re := match Parser.notRegex p with Some r => r | None => not_re end in
  match pmatch re (fun m => m) p with
  | None => NoMatch
  | Some (m, p1) => not_body parsed m p1
  end.

(** Dot *)
Definition dot (p : Parser.t) : Outcome :=
  let parsed := Parser.parsed p in
  match pmatch dot_re (fun m => m) p with
  | None => NoMatch
  | Some (val, p1) =>
      let d := str_eqb val (js ".")
               && (str_eqb parsed [] || str_eqb (last_char parsed) (js "/")) in
      Matched
        (Some (Node.mk t_dot val None (Some d) None None None None None))
        (Parser.set_state (State.set_dot d (Parser.state p1)) p1)
  end.

(** Modelled from the spec: [capture(type, regex)] is a method of the
    parser object (package snapdragon, not part of the sources); the rule
    it registers for the plus sign yields a node of that type carrying
    the matched text verbatim. *)
Definition capture (ty : NodeType) (re : Re str) (p : Parser.t) : Outcome :=
  match pmatch re (fun m => m) p with
  | None => NoMatch
  | Some (m, p1) => Matched (Some (Node.plain ty m)) p1
  end.

(** Plus *)
Definition plus : Parser.t -> Outcome := capture t_plus plus_re.

(** Question mark *)
Definition qmark (p : Parser.t) : Outcome :=
  let parsed := Parser.parsed p in
  match pmatch qmark_re (fun m => m) p with
  | None => NoMatch
  | Some (m, p1) =>
      Matched
        (Some (Node.mk t_qmark m (Some parsed) None None None None None None))
        (Parser.set_state
           (State.set_qmark (State.set_metachar (Parser.state p1))) p1)
  end.

(** Globstar *)
Definition globstar (p : Parser.t) : Outcome :=
  let parsed := Parser.parsed p in
  match pmatch globstar_re (fun m => m) p with
  | None => NoMatch
  | Some (_, p1) =>
      let type :=
        if negb (Options.noglobstar (Parser.options p1))
        then t_globstar else t_star in
      let p2 := Parser.set_state (State.set_metachar (Parser.state p1)) p1 in
      let p3 :=
        Parser.set_input
          (fold_globstars (length (Parser.input p2)) (Parser.input p2)) p2 in
      let inside := (Parser.inside_brace p3, Parser.inside_paren p3) in
      match type with
      | t_globstar =>
          Matched
            (Some (Node.mk type (js "**") (Some parsed) None (Some inside)
                           None None None None))
            (Parser.set_state (State.set_globstar (Parser.state p3)) p3)
      | _ =>
          Matched
            (Some (Node.mk type (js "*") (Some parsed) None (Some inside)
                           None None None None))
            (Parser.set_state (State.set_star (Parser.state p3)) p3)
      end
  end.

(** Star *)
Definition star (p : Parser.t) : Outcome :=
  match pmatch star_re (fun m => m) p with
  | None => NoMatch
  | Some (m, p1) =>
      Matched (Some (Node.plain t_star m))
        (Parser.set_state
           (State.set_star (State.set_metachar (Parser.state p1))) p1)
  end.

(** Slash *)
Definition slash (p : Parser.t) : Outcome :=
  match pmatch slash_re (fun m => m) p with
  | None => NoMatch
  | Some (m, p1) =>
      Matched (Some (Node.plain t_slash m))
        (Parser.set_state (State.incr_slashes (Parser.state p1)) p1)
  end.

(** Backslash *)
Definition backslash_body (m0 : str) (p1 : Parser.t) : Outcome :=
  let val :=
    if Parser.inside_bracket p1 then [bslash]
    else if 1 <? length m0 then [bslash; bslash]
    else m0 in
  Matched (Some (Node.plain t_backslash val)) p1.

Definition backslash (p : Parser.t) : Outcome :=
  match pmatch backslash_re (fun m => m) p with
  | None => NoMatch
  | Some (m, p1) => backslash_body m p1
  end.

(** Square *)
Definition square (p : Parser.t) : Outcome :=
  if Parser.inside_bracket p then NoMatch else
  match pmatch square_re fst p with
  | None => NoMatch
  | Some ((_, m1), p1) => Matched (Some (Node.plain t_square m1)) p1
  end.

(** Brackets *)
Definition bracket_body
    (m : str * option str * option str * option str) (p1 : Parser.t)
  : Outcome :=
  let '(m0, m1, m2, m3) := m in
  let negated := if truthy m1 then js "^" else [] in
  let inner := collapse_backslashes (or_group m2 None) in
  let close := or_group m3 None in
  let val :=
    if truthy m2 && (length inner <? length (or_group m2 None))
    then collapse_backslashes m0 else m0 in
  let esc := slice_to 2 (Parser.input p1) in
  let node (p : Parser.t) (inner : str) :=
    Matched
      (Some (Node.mk t_bracket val None None None
                     (Some (negb (str_eqb close (js "]"))))
                     (Some negated) (Some inner) (Some close)))
      p in
  if str_eqb inner [] && str_eqb esc (js "\]")
  then
    let p2 := consume 2 p1 in
    match bracket_scan (Parser.input p2) p2 (inner ++ esc) with
    | Some (p3, inner') => node p3 inner'
    | None => Thrown
    end
  else node p1 inner.

Definition bracket (p : Parser.t) : Outcome :=
  match pmatch bracket_re (fun m => fst (fst (fst m))) p with
  | None => NoMatch
  | Some (m, p1) => bracket_body m p1
  end.

(** Text.  When the pattern matches the empty string ([!m[0]]) the call
    has changed nothing and returns [undefined]. *)
Definition text (p : Parser.t) : Outcome :=
  if Parser.inside_bracket p then NoMatch else
  match pmatch text_re (fun m => m) p with
  | None => NoMatch
  | Some (m, p1) =>
      if nonempty m then Matched (Some (Node.plain t_text m)) p1
      else NoMatch
  end.

(** The rule set, in registration order. *)
Definition all : list (Parser.t -> Outcome) :=
  [prefix; escape; quoted; not; dot; plus; qmark; globstar; star; slash;
   backslash; square; bracket; text].

End Rules.

(* ================================================================= *)
(** ** The scan loop *)

(** Modelled from the spec: the loop that drives the rules is the [parse]
    method of the parser object (package snapdragon, not part of the
    sources).  Following the system overview: the rules are tried in order
    at the cursor until one matches; the rule that matches consumes input
    and yields zero or one node; the loop repeats until the input is
    exhausted.  A cursor position where input remains and no rule matches,
    or where a rule matched without advancing the cursor, breaks the
    progress invariant and stops the scan with an error; a rule that throws
    aborts it. *)
Module Tokenizer.

Fixpoint first_match (rules : list (Parser.t -> Outcome)) (p : Parser.t)
  : Outcome :=
  match rules with
  | [] => NoMatch
  | r :: rules' =>
      match r p with
      | NoMatch => first_match rules' p
      | o => o
      end
  end.

Definition next (p : Parser.t) : Outcome := first_match Rules.all p.

Inductive Result : Type :=
  | Done (nodes : list Node.t) (consumed : list nat) (p : Parser.t)
  | NoParser (nodes : list Node.t) (consumed : list nat) (p : Parser.t)
  | Crashed (nodes : list Node.t) (consumed : list nat) (p : Parser.t)
  | OutOfFuel.

Definition push (tok : option Node.t) (nodes : list Node.t) : list Node.t :=
  match tok with
  | Some n => nodes ++ [n]
  | None => nodes
  end.

Fixpoint scan (fuel : nat) (p : Parser.t)
    (nodes : list Node.t) (consumed : list nat) : Result :=
  match Parser.input p with
  | [] => Done nodes consumed p
  | _ :: _ =>
      match fuel with
      | 0 => OutOfFuel
      | S fuel' =>
          match next p with
          | NoMatch => NoParser nodes consumed p
          | Thrown => Crashed nodes consumed p
          | Matched tok p' =>
              let n := length (Parser.input p) - length (Parser.input p') in
              if length (Parser.input p') <? length (Parser.input p)
              then scan fuel' p' (push tok nodes) (consumed ++ [n])
              else NoParser (push tok nodes) consumed p'
          end
      end
  end.

(** Every step that continues shortens the input, so [length pattern]
    steps are enough (theorem [tokenize_terminates] below). *)
Definition tokenize (o : Options.t) (pattern : str) : Result :=
  scan (length pattern) (Parser.init o pattern) [] [].

Definition nodes_of (r : Result) : option (list Node.t) :=
  match r with
  | Done nodes _ _ => Some nodes
  | _ => None
  end.

End Tokenizer.

Import Tokenizer.

(* ================================================================= *)
(** ** Facts about the matchers *)

Section RegexFacts.

(** The matches of [[c]+] for a character class, most preferred first:
    the longest run, then each shorter one. *)
Fixpoint plus_spec (p : char -> bool) (s : str) : list (str * str) :=
  match s with
  | c :: s' =>
      if p c
      then map (fun m => (c :: fst m, snd m)) (plus_spec p s') ++ [([c], s')]
      else []
  | [] => []
  end.

Lemma plus_fuel_chr (p : char -> bool) :
  forall fuel s, length s < fuel -> plus_fuel fuel (chr p) s = plus_spec p s.
Proof.
  induction fuel as [|fuel IH]; intros s Hlen; [lia|].
  destruct s as [|c s]; [reflexivity|].
  cbn [plus_fuel chr plus_spec]. destruct (p c); [|reflexivity].
  cbn [flat_map snd fst length app].
  assert (H : (length s <? S (length s)) = true) by (apply Nat.ltb_lt; lia).
  rewrite H, app_nil_r, IH by (cbn in Hlen; lia).
  reflexivity.
Qed.

Lemma plus_chr (p : char -> bool) (s : str) :
  plus (chr p) s = plus_spec p s.
Proof. unfold plus. apply plus_fuel_chr. lia. Qed.

Lemma plus_spec_nil (p : char -> bool) (s : str) :
  plus_spec p s = [] <-> (match s with c :: _ => p c | [] => false end) = false.
Proof.
  destruct s as [|c s]; cbn; [tauto|].
  destruct (p c); split; intro H; try reflexivity; try discriminate.
  destruct (map _ _); discriminate.
Qed.

(** The run of a class at the head of a string. *)
Fixpoint span (p : char -> bool) (s : str) : str * str :=
  match s with
  | c :: s' => if p c then (c :: fst (span p s'), snd (span p s')) else ([], s)
  | [] => ([], [])
  end.

Lemma plus_spec_head (p : char -> bool) (s : str) :
  exec (plus_spec p) s
  = match fst (span p s) with
    | [] => None
    | run => Some run
    end.
Proof.
  unfold exec. induction s as [|c s IH]; [reflexivity|].
  cbn [plus_spec span]. destruct (p c); [|reflexivity].
  cbn [fst]. destruct (plus_spec p s) as [|m l]; cbn in *.
  - destruct (fst (span p s)); [reflexivity|discriminate].
  - destruct (fst (span p s)); [discriminate|].
    injection IH as IH. do 2 f_equal. exact IH.
Qed.

Lemma exec_In {A} (r : Re A) (s : str) (a : A) :
  exec r s = Some a -> exists rest, In (a, rest) (r s).
Proof.
  unfold exec. destruct (r s) as [|[a' rest] l]; [discriminate|].
  intros [= <-]. exists rest. now left.
Qed.

(** Every match of a matcher satisfies [P]. *)
Definition every {A} (P : A -> Prop) (r : Re A) : Prop :=
  forall s a rest, In (a, rest) (r s) -> P a.

Lemma every_exec {A} (P : A -> Prop) (r : Re A) (s : str) (a : A) :
  every P r -> exec r s = Some a -> P a.
Proof. intros H E. destruct (exec_In _ _ E) as [rest HI]. eauto. Qed.

Lemma every_chr (P : str -> Prop) (p : char -> bool) :
  (forall c, p c = true -> P [c]) -> every P (chr p).
Proof.
  intros H [|c s] a rest; cbn; [tauto|].
  destruct (p c) eqn:E; cbn; [|tauto].
  intros [[= <- <-]|[]]. auto.
Qed.

Lemma every_bind {A B} (P : A -> Prop) (Q : B -> Prop)
      (r : Re A) (f : A -> Re B) :
  every P r -> (forall a, P a -> every Q (f a)) -> every Q (bind r f).
Proof.
  intros Hr Hf s b rest HI. unfold bind in HI.
  apply in_flat_map in HI. destruct HI as [[a s1] [H1 H2]].
  cbn in H2. eapply Hf; eauto.
Qed.

Lemma every_ret {A} (P : A -> Prop) (a : A) : P a -> every P (ret a).
Proof. intros H s b rest [[= <- <-]|[]]. exact H. Qed.

Lemma every_alt {A} (P : A -> Prop) (a b : Re A) :
  every P a -> every P b -> every P (alt a b).
Proof.
  intros Ha Hb s x rest HI. unfold alt in HI.
  apply in_app_or in HI. destruct HI; eauto.
Qed.

Lemma every_weaken {A} (P Q : A -> Prop) (r : Re A) :
  (forall a, P a -> Q a) -> every P r -> every Q r.
Proof. intros H Hr s a rest HI. eauto. Qed.

Lemma every_true {A} (r : Re A) : every (fun _ => True) r.
Proof. intros s a rest _. exact I. Qed.

Definition productive (x : str) : Prop := x <> [].

Lemma every_cat_l (a b : Re str) :
  every productive a -> every productive (cat a b).
Proof.
  intro Ha. unfold cat.
  eapply every_bind; [exact Ha|]. intros x Hx.
  eapply every_bind; [apply every_true|]. intros y _.
  apply every_ret. unfold productive in *. destruct x; [tauto|discriminate].
Qed.

Lemma every_plus_spec (p : char -> bool) :
  every productive (plus_spec p).
Proof.
  intros s. induction s as [|c s IH]; intros a rest; cbn; [tauto|].
  destruct (p c); [|cbn; tauto].
  intros HI. apply in_app_or in HI. destruct HI as [HI|[[= <- <-]|[]]].
  - apply in_map_iff in HI. destruct HI as [m [[= <- <-] _]]. discriminate.
  - discriminate.
Qed.

Lemma every_plus_chr (p : char -> bool) : every productive (plus (chr p)).
Proof.
  intros s a rest. rewrite plus_chr. apply every_plus_spec.
Qed.

End RegexFacts.

Arguments every_exec {A P r s a} _ _.

(* ================================================================= *)
(** ** The scan loop terminates *)

Section ScanLoop.

Lemma scan_fuel_enough :
  forall fuel p nodes consumed,
    length (Parser.input p) <= fuel ->
    scan fuel p nodes consumed <> OutOfFuel.
Proof.
  induction fuel as [|fuel IH]; intros p nodes consumed Hlen.
  - cbn [scan]. destruct (Parser.input p); [discriminate|cbn in Hlen; lia].
  - cbn [scan]. destruct (Parser.input p) as [|c s] eqn:Ein; [discriminate|].
    destruct (next p) as [|tok p'|]; try discriminate.
    destruct (length (Parser.input p') <? length (c :: s)) eqn:Elt;
      [|discriminate].
    apply IH. apply Nat.ltb_lt in Elt. lia.
Qed.

Lemma scan_done_sum :
  forall fuel p nodes consumed nodes' consumed' p',
    scan fuel p nodes consumed = Done nodes' consumed' p' ->
    Parser.input p' = []
    /\ list_sum consumed' = list_sum consumed + length (Parser.input p).
Proof.
  induction fuel as [|fuel IH]; intros p nodes consumed nodes' consumed' p'.
  - cbn [scan]. destruct (Parser.input p) eqn:Ein; [|discriminate].
    intros [= <- <- <-]. cbn. split; [assumption|lia].
  - cbn [scan]. destruct (Parser.input p) as [|c s] eqn:Ein.
    + intros [= <- <- <-]. cbn. split; [assumption|lia].
    + destruct (next p) as [|tok p1|]; try discriminate.
      destruct (length (Parser.input p1) <? length (c :: s)) eqn:Elt;
        [|discriminate].
      intro H. apply IH in H. destruct H as [H1 H2]. split; [exact H1|].
      rewrite H2, list_sum_app. apply Nat.ltb_lt in Elt.
      unfold list_sum at 2. cbn [fold_right]. lia.
Qed.

End ScanLoop.

(* ================================================================= *)
(** ** Every pattern of the rules matches at least one character *)

Section PatternsProductive.

Lemma productive_lit1 (c : char) : every productive (lit1 c).
Proof. apply every_chr. discriminate. Qed.

Lemma productive_cls (w : str) : every productive (cls w).
Proof. apply every_chr. discriminate. Qed.

Lemma productive_ncls (w : str) : every productive (ncls w).
Proof. apply every_chr. discriminate. Qed.

Lemma productive_any : every productive any.
Proof. apply every_chr. discriminate. Qed.

Lemma productive_lit (c : char) (w : str) : every productive (lit (c :: w)).
Proof. cbn [lit]. apply every_cat_l, productive_lit1. Qed.

Lemma productive_app_l (x y : str) : productive x -> productive (x ++ y).
Proof. unfold productive. destruct x; [tauto|discriminate]. Qed.

Lemma productive_prefix_re : every productive prefix_re.
Proof. apply every_cat_l, productive_lit. Qed.

Lemma productive_escape_re :
  every (fun m => productive (fst (fst m))) escape_re.
Proof.
  apply every_alt.
  - eapply every_bind; [apply productive_lit1|]. intros b Hb.
    eapply every_bind; [apply every_true|]. intros c _.
    apply every_ret. now apply productive_app_l.
  - eapply every_bind; [apply productive_cls|]. intros c Hc.
    now apply every_ret.
Qed.

Lemma productive_quote_re : every productive quote_re.
Proof. apply productive_cls. Qed.

Lemma productive_not_re : every productive not_re.
Proof. apply every_plus_chr. Qed.

Lemma productive_dot_re : every productive dot_re.
Proof. apply every_plus_chr. Qed.

Lemma productive_plus_re : every productive plus_re.
Proof. apply every_cat_l, productive_lit. Qed.

Lemma productive_qmark_re : every productive qmark_re.
Proof. apply every_cat_l, every_plus_chr. Qed.

Lemma productive_globstar_re : every productive globstar_re.
Proof. apply every_cat_l. cbn [rep]. apply every_cat_l, productive_lit. Qed.

Lemma productive_star_re : every productive star_re.
Proof.
  repeat apply every_alt; apply every_cat_l.
  - apply productive_lit.
  - apply every_cat_l. cbn [rep]. apply every_cat_l, productive_cls.
  - cbn [rep]. apply every_cat_l, productive_cls.
  - apply productive_lit.
Qed.

Lemma productive_slash_re : every productive slash_re.
Proof. apply productive_lit. Qed.

Lemma productive_backslash_re : every productive backslash_re.
Proof. apply every_cat_l, productive_lit1. Qed.

Lemma productive_square_re : every (fun m => productive (fst m)) square_re.
Proof.
  eapply every_bind; [apply productive_lit|]. intros o Ho.
  eapply every_bind; [apply every_true|]. intros c _.
  eapply every_bind; [apply every_true|]. intros e _.
  apply every_ret. now apply productive_app_l.
Qed.

Lemma productive_bracket_re :
  every (fun m => productive (fst (fst (fst m)))) bracket_re.
Proof.
  apply every_alt.
  - unfold bracket_class_re. eapply every_bind; [apply productive_lit|]. intros o Ho.
    eapply every_bind; [apply every_true|]. intros g1 _.
    eapply every_bind; [apply every_true|]. intros g2 _.
    eapply every_bind; [apply every_true|]. intros g3 _.
    apply every_ret. now apply productive_app_l.
  - unfold bracket_open_re.
    eapply every_bind; [apply productive_lit|]. intros o Ho.
    now apply every_ret.
Qed.

End PatternsProductive.

(* ================================================================= *)
(** ** What a rule leaves unchanged, and how far it moves the cursor *)

Section RuleFrames.

(** The configuration of the parser that no rule writes. *)
Definition same_config (p p' : Parser.t) : Prop :=
  Parser.options p' = Parser.options p
  /\ Parser.notRegex p' = Parser.notRegex p
  /\ Parser.inside_bracket p' = Parser.inside_bracket p
  /\ Parser.inside_brace p' = Parser.inside_brace p
  /\ Parser.inside_paren p' = Parser.inside_paren p.

Definition left_of (p p' : Parser.t) : Prop :=
  length (Parser.input p') <= length (Parser.input p).

Lemma same_config_refl p : same_config p p.
Proof. repeat split. Qed.

Lemma consume_length (n : nat) (p : Parser.t) :
  length (Parser.input (consume n p)) = length (Parser.input p) - n.
Proof. cbn. unfold slice_from. apply length_skipn. Qed.

Lemma pmatch_Some {A} (r : Re A) (m0 : A -> str) p m p1 :
  pmatch r m0 p = Some (m, p1) ->
  exec r (Parser.input p) = Some m /\ p1 = updatePosition (m0 m) p.
Proof.
  unfold pmatch. destruct (exec r (Parser.input p)); [|discriminate].
  intros [= <- <-]. auto.
Qed.

Lemma updatePosition_length (m0 : str) (p : Parser.t) :
  length (Parser.input (updatePosition m0 p))
  = length (Parser.input p) - length m0.
Proof. cbn. unfold slice_from. apply length_skipn. Qed.

Lemma updatePosition_config (m0 : str) (p : Parser.t) :
  same_config p (updatePosition m0 p).
Proof. repeat split. Qed.

Lemma fold_globstars_length :
  forall fuel s, length (fold_globstars fuel s) <= length s.
Proof.
  induction fuel as [|fuel IH]; intro s; cbn [fold_globstars]; [lia|].
  destruct (str_eqb _ _); [|lia].
  etransitivity; [apply IH|]. unfold slice_from. rewrite length_skipn. lia.
Qed.

Lemma bracket_scan_frame :
  forall s p inner p' inner',
    bracket_scan s p inner = Some (p', inner') ->
    same_config p p' /\ left_of p p'.
Proof.
  induction s as [|c s IH]; intros p inner p' inner'; cbn [bracket_scan].
  - intros [= <- <-]. split; [apply same_config_refl|unfold left_of; lia].
  - destruct (str_eqb _ _); [discriminate|].
    intro H. apply IH in H. destruct H as [Hc Hl]. split.
    + unfold same_config in *. cbn in Hc. exact Hc.
    + unfold left_of in *. rewrite consume_length in Hl. lia.
Qed.

(** A rule keeps the configuration and never moves the cursor back. *)
Definition frame (r : Parser.t -> Outcome) : Prop :=
  forall p tok p', r p = Matched tok p' -> same_config p p' /\ left_of p p'.

(** With the default pattern of the not rule, a rule that matches at a
    cursor with input left moves the cursor forward. *)
Definition progress (r : Parser.t -> Outcome) : Prop :=
  forall p tok p',
    Parser.notRegex p = None ->
    Parser.input p <> [] ->
    r p = Matched tok p' ->
    length (Parser.input p') < length (Parser.input p).

Ltac open_rule :=
  intros p tok p';
  repeat match goal with
         | |- context [if ?b then NoMatch else _] => destruct b
         end;
  try discriminate.

Ltac open_match H E :=
  match goal with
  | |- context [pmatch ?r ?m0 ?p] =>
      destruct (pmatch r m0 p) as [[? ?]|] eqn:H; [|discriminate];
      apply pmatch_Some in H; destruct H as [E H]; subst
  end.

Lemma frame_prefix : frame Rules.prefix.
Proof.
  unfold frame, Rules.prefix. open_rule. open_match H E.
  intros [= <- <-]. split; [repeat split|].
  unfold left_of. cbn [Parser.set_state Parser.input].
  rewrite updatePosition_length. lia.
Qed.

Lemma frame_escape : frame Rules.escape.
Proof.
  unfold frame, Rules.escape. open_rule. open_match H E.
  destruct p0 as [[m0 m1] m2].
  intros [= <- <-]. split; [repeat split|].
  unfold left_of. rewrite updatePosition_length. lia.
Qed.

Lemma frame_quoted : frame Rules.quoted.
Proof.
  unfold frame, Rules.quoted, Rules.quoted_body. open_rule. open_match H E.
  destruct (negb _); intros [= <- <-]; (split; [repeat split|]);
    unfold left_of; try rewrite consume_length;
    rewrite updatePosition_length; lia.
Qed.

Lemma frame_not : frame Rules.not.
Proof.
  unfold frame, Rules.not, Rules.not_body. open_rule. open_match H E.
  destruct (_ && _); intros [= <- <-]; (split; [repeat split|]);
    unfold left_of; cbn [Parser.set_wrap Parser.input];
    rewrite updatePosition_length; lia.
Qed.

Lemma frame_dot : frame Rules.dot.
Proof.
  unfold frame, Rules.dot. open_rule. open_match H E.
  intros [= <- <-]. split; [repeat split|].
  unfold left_of. cbn [Parser.set_state Parser.input].
  rewrite updatePosition_length. lia.
Qed.

Lemma frame_plus : frame Rules.plus.
Proof.
  unfold frame, Rules.plus, Rules.capture. open_rule. open_match H E.
  intros [= <- <-]. split; [repeat split|].
  unfold left_of. rewrite updatePosition_length. lia.
Qed.

Lemma frame_qmark : frame Rules.qmark.
Proof.
  unfold frame, Rules.qmark. open_rule. open_match H E.
  intros [= <- <-]. split; [repeat split|].
  unfold left_of. cbn [Parser.set_state Parser.input].
  rewrite updatePosition_length. lia.
Qed.

Lemma frame_globstar : frame Rules.globstar.
Proof.
  unfold frame, Rules.globstar. open_rule. open_match H E.
  destruct (negb _); intros [= <- <-]; (split; [repeat split|]);
    unfold left_of; cbn [Parser.set_state Parser.set_input Parser.input];
    (etransitivity; [apply fold_globstars_length|]);
    change (length (Parser.input (updatePosition s p))
            <= length (Parser.input p));
    rewrite updatePosition_length; lia.
Qed.

Lemma frame_star : frame Rules.star.
Proof.
  unfold frame, Rules.star. open_rule. open_match H E.
  intros [= <- <-]. split; [repeat split|].
  unfold left_of. cbn [Parser.set_state Parser.input].
  rewrite updatePosition_length. lia.
Qed.

Lemma frame_slash : frame Rules.slash.
Proof.
  unfold frame, Rules.slash. open_rule. open_match H E.
  intros [= <- <-]. split; [repeat split|].
  unfold left_of. cbn [Parser.set_state Parser.input].
  rewrite updatePosition_length. lia.
Qed.

Lemma frame_backslash : frame Rules.backslash.
Proof.
  unfold frame, Rules.backslash, Rules.backslash_body.
  open_rule. open_match H E.
  intros [= <- <-]. split; [repeat split|].
  unfold left_of. rewrite updatePosition_length. lia.
Qed.

Lemma frame_square : frame Rules.square.
Proof.
  unfold frame, Rules.square. open_rule. open_match H E.
  destruct p0 as [m0 m1].
  intros [= <- <-]. split; [repeat split|].
  unfold left_of. rewrite updatePosition_length. lia.
Qed.

Lemma frame_bracket : frame Rules.bracket.
Proof.
  unfold frame, Rules.bracket, Rules.bracket_body.
  open_rule. open_match H E.
  destruct p0 as [[[m0 m1] m2] m3]. cbn [fst].
  destruct (_ && _).
  - destruct (bracket_scan _ _ _) as [[p3 inner']|] eqn:Es; [|discriminate].
    intros [= <- <-]. apply bracket_scan_frame in Es.
    destruct Es as [Hc Hl]. split.
    + unfold same_config in *. cbn in Hc. exact Hc.
    + unfold left_of in *. rewrite consume_length in Hl.
      rewrite updatePosition_length in Hl. lia.
  - intros [= <- <-]. split; [repeat split|].
    unfold left_of. rewrite updatePosition_length. lia.
Qed.

Lemma frame_text : frame Rules.text.
Proof.
  unfold frame, Rules.text. open_rule. open_match H E.
  destruct (nonempty s); [|discriminate].
  intros [= <- <-]. split; [repeat split|].
  unfold left_of. rewrite updatePosition_length. lia.
Qed.

End RuleFrames.

Section RuleProgress.

Lemma advance_by (m0 : str) (p : Parser.t) :
  productive m0 -> Parser.input p <> [] ->
  length (Parser.input (updatePosition m0 p)) < length (Parser.input p).
Proof.
  intros Hm Hi. rewrite updatePosition_length.
  destruct m0; [now elim Hm|]. destruct (Parser.input p); [now elim Hi|].
  cbn. lia.
Qed.

Arguments advance_by {m0 p} _ _.

Ltac open_rule :=
  intros p tok p' Hre Hin;
  repeat match goal with
         | |- context [if ?b then NoMatch else _] => destruct b
         end;
  try discriminate.

Ltac open_match H E :=
  match goal with
  | |- context [pmatch ?r ?m0 ?p] =>
      destruct (pmatch r m0 p) as [[? ?]|] eqn:H; [|discriminate];
      apply pmatch_Some in H; destruct H as [E H]; subst
  end.

Lemma progress_prefix : progress Rules.prefix.
Proof.
  unfold progress, Rules.prefix. open_rule. open_match H E.
  intros [= <- <-]. cbn [Parser.set_state Parser.input].
  apply advance_by; [|assumption].
  exact (every_exec productive_prefix_re E).
Qed.

Lemma progress_escape : progress Rules.escape.
Proof.
  unfold progress, Rules.escape. open_rule. open_match H E.
  pose proof (every_exec productive_escape_re E) as Hm.
  destruct p0 as [[m0 m1] m2].
  intros [= <- <-]. now apply advance_by.
Qed.

Lemma progress_quoted : progress Rules.quoted.
Proof.
  unfold progress, Rules.quoted, Rules.quoted_body. open_rule. open_match H E.
  pose proof (every_exec productive_quote_re E) as Hm.
  pose proof (advance_by Hm Hin).
  destruct (negb _); intros [= <- <-]; try rewrite consume_length; lia.
Qed.

Lemma progress_not : progress Rules.not.
Proof.
  unfold progress, Rules.not, Rules.not_body. open_rule. rewrite Hre.
  open_match H E.
  pose proof (every_exec productive_not_re E) as Hm.
  pose proof (advance_by Hm Hin).
  destruct (_ && _); intros [= <- <-];
    cbn [Parser.set_wrap Parser.input]; lia.
Qed.

Lemma progress_dot : progress Rules.dot.
Proof.
  unfold progress, Rules.dot. open_rule. open_match H E.
  intros [= <- <-]. cbn [Parser.set_state Parser.input].
  apply advance_by; [|assumption].
  exact (every_exec productive_dot_re E).
Qed.

Lemma progress_plus : progress Rules.plus.
Proof.
  unfold progress, Rules.plus, Rules.capture. open_rule. open_match H E.
  intros [= <- <-]. apply advance_by; [|assumption].
  exact (every_exec productive_plus_re E).
Qed.

Lemma progress_qmark : progress Rules.qmark.
Proof.
  unfold progress, Rules.qmark. open_rule. open_match H E.
  intros [= <- <-]. cbn [Parser.set_state Parser.input].
  apply advance_by; [|assumption].
  exact (every_exec productive_qmark_re E).
Qed.

Lemma progress_globstar : progress Rules.globstar.
Proof.
  unfold progress, Rules.globstar. open_rule. open_match H E.
  pose proof (every_exec productive_globstar_re E) as Hm.
  pose proof (advance_by Hm Hin) as Ha.
  destruct (negb _); intros [= <- <-];
    cbn [Parser.set_state Parser.set_input Parser.input];
    (eapply Nat.le_lt_trans; [apply fold_globstars_length|]); exact Ha.
Qed.

Lemma progress_star : progress Rules.star.
Proof.
  unfold progress, Rules.star. open_rule. open_match H E.
  intros [= <- <-]. cbn [Parser.set_state Parser.input].
  apply advance_by; [|assumption].
  exact (every_exec productive_star_re E).
Qed.

Lemma progress_slash : progress Rules.slash.
Proof.
  unfold progress, Rules.slash. open_rule. open_match H E.
  intros [= <- <-]. cbn [Parser.set_state Parser.input].
  apply advance_by; [|assumption].
  exact (every_exec productive_slash_re E).
Qed.

Lemma progress_backslash : progress Rules.backslash.
Proof.
  unfold progress, Rules.backslash, Rules.backslash_body.
  open_rule. open_match H E.
  intros [= <- <-]. apply advance_by; [|assumption].
  exact (every_exec productive_backslash_re E).
Qed.

Lemma progress_square : progress Rules.square.
Proof.
  unfold progress, Rules.square. open_rule. open_match H E.
  pose proof (every_exec productive_square_re E) as Hm.
  destruct p0 as [m0 m1].
  intros [= <- <-]. now apply advance_by.
Qed.

Lemma progress_bracket : progress Rules.bracket.
Proof.
  unfold progress, Rules.bracket, Rules.bracket_body.
  open_rule. open_match H E.
  pose proof (every_exec productive_bracket_re E) as Hm.
  destruct p0 as [[[m0 m1] m2] m3]. cbn [fst] in *.
  pose proof (advance_by Hm Hin) as Ha.
  destruct (_ && _).
  - destruct (bracket_scan _ _ _) as [[p3 inner']|] eqn:Es; [|discriminate].
    intros [= <- <-]. apply bracket_scan_frame in Es.
    destruct Es as [_ Hl]. unfold left_of in Hl.
    rewrite consume_length in Hl. lia.
  - intros [= <- <-]. exact Ha.
Qed.

Lemma progress_text : progress Rules.text.
Proof.
  unfold progress, Rules.text. open_rule. open_match H E.
  destruct s as [|c s]; [discriminate|].
  intros [= <- <-]. apply advance_by; [discriminate|assumption].
Qed.

(** The rule that answers at a cursor is one of the rule set. *)
Lemma first_match_In (rules : list (Parser.t -> Outcome)) (p : Parser.t) :
  first_match rules p = NoMatch
  \/ exists r, In r rules /\ r p = first_match rules p.
Proof.
  induction rules as [|r rules IH]; cbn [first_match]; [now left|].
  destruct (r p) eqn:E.
  - destruct IH as [IH|[r' [Hin Hr]]]; [now left|].
    right. exists r'. split; [now right|exact Hr].
  - right. exists r. split; [now left|exact E].
  - right. exists r. split; [now left|exact E].
Qed.

Lemma frame_all : Forall frame Rules.all.
Proof.
  unfold Rules.all.
  repeat (apply Forall_cons;
          [solve [auto using frame_prefix, frame_escape, frame_quoted,
                    frame_not, frame_dot, frame_plus, frame_qmark,
                    frame_globstar, frame_star, frame_slash,
                    frame_backslash, frame_square, frame_bracket,
                    frame_text]|]).
  apply Forall_nil.
Qed.

Lemma progress_all : Forall progress Rules.all.
Proof.
  unfold Rules.all.
  repeat (apply Forall_cons;
          [solve [auto using progress_prefix, progress_escape,
                    progress_quoted, progress_not, progress_dot,
                    progress_plus, progress_qmark, progress_globstar,
                    progress_star, progress_slash, progress_backslash,
                    progress_square, progress_bracket, progress_text]|]).
  apply Forall_nil.
Qed.

Lemma frame_next : frame next.
Proof.
  intros p tok p' H. unfold next in H.
  destruct (first_match_In Rules.all p) as [E|[r [Hin Hr]]];
    [congruence|].
  rewrite H in Hr.
  exact (proj1 (Forall_forall _ _) frame_all r Hin p tok p' Hr).
Qed.

Lemma progress_next : progress next.
Proof.
  intros p tok p' Hre Hi H. unfold next in H.
  destruct (first_match_In Rules.all p) as [E|[r [Hin Hr]]];
    [congruence|].
  rewrite H in Hr.
  exact (proj1 (Forall_forall _ _) progress_all r Hin p tok p' Hre Hi Hr).
Qed.

End RuleProgress.

(* ================================================================= *)
(** ** The bracket rule *)

Section BracketFacts.

Lemma char_eqb_eq (a b : char) : char_eqb a b = true <-> a = b.
Proof. apply N.eqb_eq. Qed.

Lemma str_eqb_eq : forall a b, str_eqb a b = true <-> a = b.
Proof.
  induction a as [|x a IH]; intros [|y b]; cbn; split;
    try discriminate; try reflexivity.
  - intro H. apply andb_true_iff in H. destruct H as [H1 H2].
    apply char_eqb_eq in H1. apply IH in H2. congruence.
  - intros [= -> ->]. apply andb_true_iff. split.
    + now apply char_eqb_eq.
    + now apply IH.
Qed.

Lemma str_eqb_refl (a : str) : str_eqb a a = true.
Proof. now apply str_eqb_eq. Qed.

Lemma collapse_backslashes_nonempty (s : str) :
  s <> [] -> collapse_backslashes s <> [].
Proof.
  destruct s as [|a [|b s]]; cbn; try congruence.
  destruct (_ && _); discriminate.
Qed.

Lemma every_lit (w : str) : every (fun x => x = w) (lit w).
Proof.
  induction w as [|c w IH]; cbn [lit].
  - now apply every_ret.
  - eapply every_bind with (P := fun x => x = [c]).
    + apply every_chr. intros c' H. apply char_eqb_eq in H. now subst.
    + intros x ->. eapply every_bind; [exact IH|].
      intros y ->. now apply every_ret.
Qed.

(** In the class branch all three groups take part, and the body and
    the closing portion are not empty. *)
Lemma bracket_class_groups :
  every (fun m => exists m0 g1 g2 g3,
             m = (m0, Some g1, Some g2, Some g3)
             /\ productive g2 /\ productive g3)
        bracket_class_re.
Proof.
  unfold bracket_class_re.
  eapply every_bind; [apply every_true|]. intros o _.
  eapply every_bind; [apply every_true|]. intros g1 _.
  eapply every_bind with (P := productive).
  { apply every_alt; [apply every_plus_chr|apply productive_lit]. }
  intros g2 H2.
  eapply every_bind with (P := productive).
  { apply every_alt; [apply productive_lit|apply every_plus_chr]. }
  intros g3 H3. apply every_ret. eauto 8.
Qed.

Lemma bracket_open_groups :
  every (fun m => m = (js "[", None, None, None)) bracket_open_re.
Proof.
  unfold bracket_open_re.
  eapply every_bind; [apply every_lit|]. intros o ->. now apply every_ret.
Qed.

(** An opening bracket followed by an escaped closing bracket is matched
    by the class branch: the backslash is the body. *)
Lemma bracket_class_escaped_close (r : str) :
  bracket_class_re (js "[\]" ++ r) <> [].
Proof.
  unfold bracket_class_re, bind, alt, ncls. cbn.
  repeat (rewrite plus_chr; cbn).
  discriminate.
Qed.

Lemma exec_alt_r {A} (a b : Re A) (s : str) (m : A) :
  exec (a <|> b) s = Some m ->
  (exists rest, In (m, rest) (a s))
  \/ (a s = [] /\ exists rest, In (m, rest) (b s)).
Proof.
  unfold exec, alt. destruct (a s) as [|[m1 r1] l] eqn:Ea; cbn.
  - destruct (b s) as [|[m2 r2] l2]; [discriminate|].
    intros [= <-]. right. split; [reflexivity|]. exists r2. now left.
  - intros [= <-]. left. exists r1. now left.
Qed.

Lemma lit_cons_inv (c : char) (w s x rest : str) :
  In (x, rest) (lit (c :: w) s) -> exists s', s = c :: s'.
Proof.
  destruct s as [|c' s']; cbn; [tauto|].
  destruct (char_eqb c' c) eqn:E; [|cbn; tauto].
  apply char_eqb_eq in E. subst. eauto.
Qed.

(** The branch that scans on after an escaped closing bracket is entered
    when [inner] is empty and the input goes on with [\]]; the pattern of
    the rule never leaves the parser in such a state. *)
Lemma bracket_edge_unreachable (p : Parser.t) m p1 :
  pmatch bracket_re (fun m => fst (fst (fst m))) p = Some (m, p1) ->
  str_eqb (collapse_backslashes (or_group (snd (fst m)) None)) []
  && str_eqb (slice_to 2 (Parser.input p1)) (js "\]") = false.
Proof.
  intro H. apply pmatch_Some in H. destruct H as [E ->].
  apply exec_alt_r in E. destruct E as [[rest HI]|[Hnil [rest HI]]].
  - apply bracket_class_groups in HI.
    destruct HI as (m0 & g1 & g2 & g3 & -> & H2 & H3). cbn [fst snd].
    destruct g2 as [|c g2]; [now elim H2|]. cbn [or_group].
    destruct (str_eqb _ []) eqn:E; [|reflexivity].
    apply str_eqb_eq in E.
    now apply collapse_backslashes_nonempty in E.
  - pose proof HI as HI'. apply bracket_open_groups in HI. subst m.
    unfold bracket_open_re in HI'.
    apply in_flat_map in HI'. destruct HI' as [[o s1] [Ho _]].
    apply lit_cons_inv in Ho. destruct Ho as [s' Hs].
    cbn [fst snd or_group collapse_backslashes].
    rewrite str_eqb_refl. cbn [andb].
    destruct (str_eqb _ _) eqn:E; [|reflexivity]. exfalso.
    apply str_eqb_eq in E. cbn in E. rewrite Hs in E. cbn in E.
    unfold slice_to in E.
    destruct s' as [|a [|b s'']]; try discriminate.
    cbn in E. injection E as -> ->.
    rewrite Hs in Hnil. now apply (bracket_class_escaped_close s'').
Qed.

Lemma bracket_never_throws (p : Parser.t) : Rules.bracket p <> Thrown.
Proof.
  unfold Rules.bracket.
  destruct (pmatch _ _ p) as [[m p1]|] eqn:E; [|discriminate].
  pose proof (bracket_edge_unreachable _ E) as Hd.
  destruct m as [[[m0 m1] m2] m3]. cbn [fst snd] in Hd.
  unfold Rules.bracket_body. rewrite Hd. discriminate.
Qed.

End BracketFacts.

(* ================================================================= *)
(** ** The globstar rule *)

(** Unfolding of the matcher combinators on an input whose first characters
    are known, and case analysis on the comparisons that remain. *)
Ltac re_unfold :=
  repeat (cbn;
          try progress unfold cat, bind, alt, ret, fail, look, nlook, eos,
            cls, ncls, lit1, any, opt, chr).

Ltac char_cases :=
  repeat (re_unfold;
          match goal with
          | |- context [char_eqb ?c ?k] =>
              is_var c;
              let E := fresh "E" in
              destruct (char_eqb c k) eqn:E;
              [apply char_eqb_eq in E; subst c|]
          end);
  re_unfold.

Section GlobstarFacts.

(** The look-ahead of the globstar pattern, read off the input. *)
Definition globstar_here (s : str) : bool :=
  match s with
  | c1 :: c2 :: r =>
      char_eqb c1 (char_of "*") && char_eqb c2 (char_of "*")
      && negb (match r with c :: _ => mem c (js "*(") | [] => false end)
      && match r with c :: _ => mem c (js ",)/") | [] => true end
  | _ => false
  end.

Lemma globstar_re_spec (s : str) :
  exec globstar_re s = if globstar_here s then Some (js "**") else None.
Proof.
  unfold exec, globstar_re, globstar_here.
  destruct s as [|c1 [|c2 [|c3 r]]]; char_cases; try reflexivity.
Qed.

Lemma globstar_here_iff (s : str) :
  globstar_here s = true
  <-> exists r,
      s = js "**" ++ r
      /\ (forall c r', r = c :: r' -> c <> char_of "*" /\ c <> char_of "(")
      /\ (r = [] \/ exists c r', r = c :: r' /\ In c (js ",)/")).
Proof.
  unfold globstar_here. split.
  - destruct s as [|c1 [|c2 r]]; try discriminate.
    intro H. repeat (apply andb_true_iff in H; destruct H as [H ?]).
    apply char_eqb_eq in H, H2. subst c1 c2. exists r.
    split; [reflexivity|]. split.
    + intros c r' ->. cbn in H1.
      destruct (char_eqb c 42%N) eqn:E1; [discriminate|].
      destruct (char_eqb c 40%N) eqn:E2; [discriminate|].
      split; intros ->; discriminate.
    + destruct r as [|c r']; [now left|]. right. exists c, r'.
      split; [reflexivity|]. cbn in H0 |- *.
      repeat (apply orb_true_iff in H0; destruct H0 as [H0|H0]);
        try apply char_eqb_eq in H0; subst; auto; discriminate.
  - intros (r & -> & Hno & Hla). cbn.
    destruct r as [|c r']; [reflexivity|].
    destruct (Hno c r' eq_refl) as [N1 N2].
    destruct Hla as [|(c' & r'' & [= <- <-] & Hin)]; [discriminate|].
    cbn in Hin.
    destruct Hin as [<-|[<-|[<-|[]]]]; reflexivity.
Qed.

End GlobstarFacts.

(** C2: the pattern of two stars alone yields one globstar node with value
    [**], or one star node with value [*] when [noglobstar] is [true]; and
    the globstar rule fires at a cursor exactly when the remaining input
    starts with two stars that are not followed by a star or an opening
    parenthesis and are followed by a comma, a closing parenthesis, a slash
    or the end of the input. *)
Theorem globstar_rule_fires :
  (forall so ng,
      nodes_of (tokenize (Options.mk so ng false) (js "**"))
      = Some [Node.mk t_globstar (js "**") (Some []) None
                      (Some (false, false)) None None None None])
  /\ (forall so ng,
      nodes_of (tokenize (Options.mk so ng true) (js "**"))
      = Some [Node.mk t_star (js "*") (Some []) None
                      (Some (false, false)) None None None None])
  /\ (forall p,
      (exists tok p', Rules.globstar p = Matched tok p')
      <-> exists r,
          Parser.input p = js "**" ++ r
          /\ (forall c r', r = c :: r' ->
                           c <> char_of "*" /\ c <> char_of "(")
          /\ (r = [] \/ exists c r', r = c :: r' /\ In c (js ",)/"))).
Proof.
  split; [|split].
  - intros [] []; reflexivity.
  - intros [] []; reflexivity.
  - intro p. rewrite <- globstar_here_iff.
    unfold Rules.globstar, pmatch. rewrite globstar_re_spec.
    destruct (globstar_here (Parser.input p)).
    + split; [reflexivity|]. intros _.
      destruct (negb _); eauto.
    + split; [|discriminate]. intros (tok & p' & H). discriminate.
Qed.


Section GlobstarFolding.

Lemma fold_globstars_done :
  forall fuel s,
    length s <= fuel ->
    str_eqb (slice_to 4 (fold_globstars fuel s)) (js "/**/") = false.
Proof.
  induction fuel as [|fuel IH]; intros s Hlen; cbn [fold_globstars].
  - destruct s; [reflexivity|cbn in Hlen; lia].
  - destruct (str_eqb (slice_to 4 s) (js "/**/")) eqn:E; [|exact E].
    apply IH. unfold slice_from. rewrite length_skipn. lia.
Qed.

(** The loop on a run of [k] repetitions of [/**] in front of a rest
    that does not itself start with [/**/]: the whole run is dropped. *)
Fixpoint globstar_run (k : nat) (rest : str) : str :=
  match k with
  | 0 => rest
  | S k' => js "/**" ++ globstar_run k' rest
  end.

Lemma fold_globstars_run :
  forall k fuel rest,
    k <= fuel ->
    str_eqb (slice_to 4 rest) (js "/**/") = false ->
    (k = 0 \/ starts_with (js "/") rest = true) ->
    fold_globstars fuel (globstar_run k rest) = rest.
Proof.
  induction k as [|k IH]; intros fuel rest Hk Hrest Hs.
  - cbn [globstar_run]. destruct fuel; [reflexivity|].
    cbn [fold_globstars]. now rewrite Hrest.
  - destruct fuel as [|fuel]; [lia|].
    destruct Hs as [|Hs]; [discriminate|].
    cbn [fold_globstars globstar_run].
    assert (E : str_eqb (slice_to 4 (js "/**" ++ globstar_run k rest))
                        (js "/**/") = true).
    { destruct k; cbn [globstar_run].
      - destruct rest as [|c rest]; [discriminate|]. cbn in Hs |- *.
        destruct (char_eqb c 47%N) eqn:E; [|discriminate].
        apply char_eqb_eq in E. subst c. reflexivity.
      - reflexivity. }
    rewrite E. change (slice_from 3 (js "/**" ++ globstar_run k rest))
      with (globstar_run k rest).
    apply IH; [lia|assumption|]. now right.
Qed.

End GlobstarFolding.

(** The globstar rule on two stars followed by [n] further [/**] segments
    and a rest that starts with a slash but not with [/**/]: the loop of
    the rule drops every one of the segments. *)
Lemma globstar_folds_segments (p : Parser.t) (n : nat) (rest : str) :
  Parser.input p = js "**" ++ globstar_run n rest ->
  starts_with (js "/") rest = true ->
  str_eqb (slice_to 4 rest) (js "/**/") = false ->
  exists tok p',
    Rules.globstar p = Matched tok p'
    /\ Parser.input p' = rest
    /\ Parser.parsed p' = Parser.parsed p ++ js "**".
Proof.
  intros Hin Hs Hrest. unfold Rules.globstar, pmatch.
  rewrite globstar_re_spec, Hin.
  assert (Hh : globstar_here (js "**" ++ globstar_run n rest) = true).
  { destruct n; cbn [globstar_run]; [|reflexivity].
    destruct rest as [|c r]; [discriminate|]. cbn in Hs.
    rewrite andb_true_r in Hs. apply char_eqb_eq in Hs. subst c. reflexivity. }
  rewrite Hh.
  assert (Hf : forall st,
             Parser.input
               (Parser.set_input
                  (fold_globstars
                     (length (Parser.input
                                (Parser.set_state st
                                   (updatePosition (js "**") p))))
                     (Parser.input
                        (Parser.set_state st (updatePosition (js "**") p))))
                  (Parser.set_state st (updatePosition (js "**") p)))
             = rest).
  { intro st. cbn [Parser.set_input Parser.set_state Parser.input
                   updatePosition consume Parser.set_parsed].
    rewrite Hin. change (slice_from (length (js "**"))
                           (js "**" ++ globstar_run n rest))
      with (globstar_run n rest).
    apply fold_globstars_run; [|assumption|now right].
    clear. induction n; cbn [globstar_run]; [lia|].
    rewrite length_app. cbn. lia. }
  destruct (negb _); do 2 eexists;
    (split; [reflexivity|]); (split; [apply Hf|reflexivity]).
Qed.

(** C3: the pattern with three globstars in a row tokenizes to the same
    nodes as the pattern with one, a text, a slash, one globstar node, a
    slash and a text.  The collapse is the work of the globstar rule: when
    it matches two stars followed by any number of further [/**] segments
    and a rest that starts with a slash, it drops all these segments from
    the input before it returns, so that the input left is the rest and only
    the two stars are added to the text parsed; and whenever the rule
    returns, the input left no longer starts with a slash, two stars and a
    slash. *)
Theorem globstar_folding :
  (forall o,
      nodes_of (tokenize o (js "a/**/**/**/b"))
      = nodes_of (tokenize o (js "a/**/b")))
  /\ (forall so ng,
      nodes_of (tokenize (Options.mk so ng false) (js "a/**/**/**/b"))
      = Some [Node.plain t_text (js "a");
              Node.plain t_slash (js "/");
              Node.mk t_globstar (js "**") (Some (js "a/")) None
                      (Some (false, false)) None None None None;
              Node.plain t_slash (js "/");
              Node.plain t_text (js "b")])
  /\ (forall p tok p',
      Rules.globstar p = Matched tok p' ->
      str_eqb (slice_to 4 (Parser.input p')) (js "/**/") = false)
  /\ (forall p n rest,
      Parser.input p = js "**" ++ globstar_run n rest ->
      starts_with (js "/") rest = true ->
      str_eqb (slice_to 4 rest) (js "/**/") = false ->
      exists tok p',
        Rules.globstar p = Matched tok p'
        /\ Parser.input p' = rest
        /\ Parser.parsed p' = Parser.parsed p ++ js "**").
Proof.
  split; [|split; [|split]].
  - intros [[] [] []]; vm_compute; reflexivity.
  - intros [] []; vm_compute; reflexivity.
  - intros p tok p'. unfold Rules.globstar.
    destruct (pmatch _ _ p) as [[m p1]|]; [|discriminate].
    destruct (negb _); intros [= <- <-];
      cbn [Parser.set_state Parser.set_input Parser.input];
      now apply fold_globstars_done.
  - exact globstar_folds_segments.
Qed.

Lemma globstar_folding_witness :
  Parser.input
    (Parser.mk Options.default (js "**/**/**/b") (js "a/") State.init None
               [] None false false false)
  = js "**" ++ globstar_run 2 (js "/b")
  /\ starts_with (js "/") (js "/b") = true
  /\ str_eqb (slice_to 4 (js "/b")) (js "/**/") = false
  /\ Rules.globstar
       (Parser.mk Options.default (js "**/**/**/b") (js "a/")
                  State.init None [] None false false false)
     = Matched
         (Some (Node.mk t_globstar (js "**") (Some (js "a/")) None
                        (Some (false, false)) None None None None))
         (Parser.mk Options.default (js "/b") (js "a/**")
                    (State.mk 0 [] None None None (Some true) None None
                              (Some true))
                    None [] None false false false)
  /\ (exists tok p',
         Rules.globstar
           (Parser.mk Options.default (js "**/**/**/b") (js "a/")
                      State.init None [] None false false false)
         = Matched tok p'
         /\ Parser.input p' = js "/b"
         /\ Parser.parsed p' = js "a/**")
  /\ str_eqb (slice_to 4 (js "/b")) (js "/**/") = false.
Proof.
  split; [reflexivity|]. split; [reflexivity|]. split; [reflexivity|].
  split; [reflexivity|]. split.
  - exact (proj2 (proj2 (proj2 globstar_folding))
             (Parser.mk Options.default (js "**/**/**/b") (js "a/")
                        State.init None [] None false false false)
             2 (js "/b") eq_refl eq_refl eq_refl).
  - exact (proj1 (proj2 (proj2 globstar_folding))
             (Parser.mk Options.default (js "**/**/**/b") (js "a/")
                        State.init None [] None false false false)
             (Some (Node.mk t_globstar (js "**") (Some (js "a/")) None
                            (Some (false, false)) None None None None))
             (Parser.mk Options.default (js "/b") (js "a/**")
                        (State.mk 0 [] None None None (Some true) None None
                                  (Some true))
                        None [] None false false false)
             eq_refl).
Defined.

(* ================================================================= *)
(** ** The not rule *)

Section NotFacts.

Lemma odd_mod2 (n : nat) : Nat.odd n = true -> Nat.modulo n 2 = 1.
Proof.
  intro H. apply Nat.odd_spec in H. destruct H as [k ->].
  rewrite Nat.add_comm, Nat.mul_comm. now rewrite Nat.Div0.mod_add.
Qed.

Lemma span_run (p : char -> bool) (c : char) (k : nat) (rest : str) :
  p c = true ->
  (match rest with x :: _ => p x | [] => false end) = false ->
  span p (repeat c k ++ rest) = (repeat c k, rest).
Proof.
  intros Hc Hrest. induction k as [|k IH]; cbn [repeat app].
  - destruct rest as [|x rest]; [reflexivity|]. cbn [span]. now rewrite Hrest.
  - cbn [span]. now rewrite Hc, IH.
Qed.

(** The default pattern takes the whole run of exclamation marks. *)
Lemma not_re_run (k : nat) (rest : str) :
  starts_with (js "!") rest = false ->
  exec not_re (repeat (char_of "!") (S k) ++ rest)
  = Some (repeat (char_of "!") (S k)).
Proof.
  intro Hrest. unfold exec, not_re, lit1. rewrite plus_chr.
  fold (exec (plus_spec (fun x => char_eqb x (char_of "!")))
             (repeat (char_of "!") (S k) ++ rest)).
  rewrite plus_spec_head, span_run; [reflexivity|reflexivity|].
  destruct rest as [|x rest]; [reflexivity|]. cbn in Hrest.
  now rewrite andb_true_r in Hrest.
Qed.

End NotFacts.

(** C4: the pattern of an exclamation mark followed by [foo], with negation
    enabled, sets the beginning-of-string value to the opening wrap, the
    appended suffix to the closing wrap, and yields a not node with an empty
    value followed by the text [foo]; and whenever nothing has been parsed,
    the matched run has odd length and [nonegate] is not [true], the not
    rule makes exactly this change and empties the value of its node. *)
Theorem not_wraps_leading_negation :
  (forall so ng,
      match tokenize (Options.mk so false ng) (js "!foo") with
      | Done nodes _ p =>
          nodes = [Node.plain t_not []; Node.plain t_text (js "foo")]
          /\ Parser.bos_val p = Some (js "(?!^(?:")
          /\ Parser.append p = js ")$).*"
      | _ => False
      end)
  /\ (forall p m,
      Parser.parsed p = [] ->
      Options.nonegate (Parser.options p) = false ->
      exec (match Parser.notRegex p with Some r => r | None => not_re end)
           (Parser.input p) = Some m ->
      Nat.odd (length m) = true ->
      Rules.not p
      = Matched (Some (Node.plain t_not []))
          (Parser.set_wrap (js "(?!^(?:") (js ")$).*") (updatePosition m p))).
Proof.
  split.
  - intros [] []; vm_compute; auto.
  - intros p m Hp Hn He Ho. unfold Rules.not, pmatch. rewrite He.
    unfold Rules.not_body. rewrite Hp, (odd_mod2 _ Ho).
    cbn [str_eqb Nat.eqb andb negb].
    change (Parser.options (updatePosition m p)) with (Parser.options p).
    now rewrite Hn.
Qed.

Lemma not_wraps_leading_negation_witness :
  Parser.parsed (Parser.init Options.default (js "!!!a")) = []
  /\ Options.nonegate (Parser.options (Parser.init Options.default (js "!!!a")))
     = false
  /\ exec not_re (js "!!!a") = Some (js "!!!")
  /\ Nat.odd (length (js "!!!")) = true
  /\ Rules.not (Parser.init Options.default (js "!!!a"))
     = Matched (Some (Node.plain t_not []))
         (Parser.set_wrap (js "(?!^(?:") (js ")$).*")
            (updatePosition (js "!!!")
               (Parser.init Options.default (js "!!!a")))).
Proof.
  repeat (split; [reflexivity|]).
  apply (proj2 not_wraps_leading_negation
           (Parser.init Options.default (js "!!!a")) (js "!!!"));
    reflexivity.
Defined.

(* ================================================================= *)
(** ** The quoted rule *)

Section QuotedFacts.

Lemma indexOf_found_single (s : str) (q : char) :
  indexOf_found s [q] = true <-> In q s.
Proof.
  induction s as [|c s IH]; cbn.
  - split; [discriminate|tauto].
  - rewrite andb_true_r, orb_true_iff, IH, char_eqb_eq.
    split; intros [H|H]; auto.
Qed.

Lemma quote_re_spec (q : char) (rest : str) :
  mem q [dquote; squote] = true ->
  exec quote_re (q :: rest) = Some [q].
Proof. intro H. unfold exec, quote_re, cls, chr. now rewrite H. Qed.

(** The text between the quotes, as the specification reads it: a
    backslash-escaped character loses its backslash. *)
Fixpoint unescape (s : str) : str :=
  match s with
  | a :: s' =>
      match s' with
      | b :: s'' =>
          if char_eqb a bslash then b :: unescape s'' else a :: unescape s'
      | [] => [a]
      end
  | [] => []
  end.

Definition not_backslash (c : char) : bool := negb (char_eqb c bslash).

(** Every character preceded by a backslash. *)
Definition escape_all (v : str) : str :=
  flat_map (fun c => [bslash; c]) v.

Variable input : str.

(** What holds of the variables of [advanceTo] between two steps. *)
Definition scanned (s : Scan) : Prop :=
  ch s = charAt_str input (idx s)
  /\ len (tok s) = S (idx s)
  /\ val (tok s) = filter not_backslash (firstn (idx s) input)
  /\ esc (tok s)
     = escape_all (val (tok s)) ++ repeat bslash (idx s - length input).

Lemma scanned_start : scanned (start input).
Proof. repeat split. Qed.

(** One step: the current character is recorded and the index moves. *)
Definition step (s : Scan) : Scan :=
  let t := tok s in
  let t1 :=
    if negb (str_eqb (ch s) [bslash])
    then mkTok (len t) (val t ++ ch s) (esc t ++ [bslash] ++ ch s)
    else t in
  mkScan (charAt_str input (S (idx s))) (S (idx s))
         (mkTok (S (len t1)) (val t1) (esc t1)).

Lemma advance_unfold (fuel : nat) (s : Scan) :
  advance (S fuel) input s
  = if str_eqb (ch (step s)) [bslash]
    then match advance fuel input (step s) with
         | Some s2 => advance fuel input s2
         | None => None
         end
    else Some (step s).
Proof. reflexivity. Qed.

Lemma firstn_S_nth (n : nat) (c : char) :
  nth_error input n = Some c -> firstn (S n) input = firstn n input ++ [c].
Proof.
  revert n. induction input as [|x l IH]; intros [|n] H; cbn in *;
    try discriminate.
  - now injection H as ->.
  - f_equal. now apply IH.
Qed.

Lemma escape_all_app (a b : str) :
  escape_all (a ++ b) = escape_all a ++ escape_all b.
Proof. unfold escape_all. apply flat_map_app. Qed.

Lemma scanned_step (s : Scan) : scanned s -> scanned (step s).
Proof.
  intros (Hch & Hlen & Hval & Hesc). unfold step, scanned.
  cbn [ch idx tok]. split; [reflexivity|].
  unfold charAt_str, charAt in Hch.
  destruct (nth_error input (idx s)) as [c|] eqn:En.
  - assert (Hlt : idx s < length input)
      by (apply nth_error_Some; congruence).
    replace (idx s - length input) with 0 in Hesc by lia.
    replace (S (idx s) - length input) with 0 by lia.
    rewrite (firstn_S_nth _ En), filter_app. cbn [filter repeat] in *.
    rewrite app_nil_r in *. rewrite Hch. cbn [str_eqb].
    rewrite andb_true_r. unfold not_backslash at 2.
    destruct (char_eqb c bslash); cbn [negb len val esc].
    + rewrite app_nil_r. repeat split; congruence.
    + rewrite escape_all_app, Hesc, <- Hval. cbn.
      repeat split; congruence.
  - assert (Hge : length input <= idx s) by (now apply nth_error_None).
    rewrite Hch. cbn [str_eqb negb len val esc].
    rewrite app_nil_r, !firstn_all2 in * by lia.
    replace (S (idx s) - length input) with (S (idx s - length input)) by lia.
    split; [congruence|]. split; [assumption|].
    rewrite Hesc, <- app_assoc. f_equal.
    now rewrite <- repeat_cons.
Qed.

Lemma advance_scanned :
  forall fuel s s',
    scanned s -> advance fuel input s = Some s' ->
    scanned s' /\ idx s < idx s'.
Proof.
  induction fuel as [|fuel IH]; intros s s' Hs; [discriminate|].
  rewrite advance_unfold.
  pose proof (scanned_step Hs) as H1.
  destruct (str_eqb _ _).
  - destruct (advance fuel input (step s)) as [s2|] eqn:E2; [|discriminate].
    destruct (IH _ _ H1 E2) as [H2 Hi2]. intro E3.
    destruct (IH _ _ H2 E3) as [H3 Hi3]. split; [assumption|].
    cbn in Hi2. lia.
  - intros [= <-]. split; [assumption|]. cbn. lia.
Qed.

Lemma charAt_str_in_range (i : nat) :
  nonempty (charAt_str input i) = true -> i < length input.
Proof.
  unfold charAt_str, charAt. destruct (nth_error input i) eqn:E;
    [|discriminate].
  intros _. apply nth_error_Some. congruence.
Qed.

Lemma advance_total :
  forall fuel s,
    scanned s -> 1 <= fuel -> length input < fuel + idx s ->
    exists s', advance fuel input s = Some s'.
Proof.
  induction fuel as [|fuel IH]; intros s Hs H1f Hf; [lia|].
  rewrite advance_unfold.
  pose proof (scanned_step Hs) as H1.
  destruct (str_eqb (ch (step s)) [bslash]) eqn:Eb; [|eauto].
  assert (Hlt : S (idx s) < length input).
  { apply charAt_str_in_range. destruct H1 as (Hch & _).
    cbn [idx step] in Hch. rewrite <- Hch.
    apply str_eqb_eq in Eb. now rewrite Eb. }
  destruct (IH (step s) H1) as [s2 E2]; [lia|cbn; lia|].
  rewrite E2. destruct (advance_scanned _ H1 E2) as [H2 Hi2].
  apply IH; [assumption|lia|]. cbn in Hi2. lia.
Qed.

Lemma loop_total (endChar : str) :
  forall fuel s,
    scanned s -> length input - idx s < fuel ->
    exists s', loop fuel input endChar s = Some s' /\ scanned s'.
Proof.
  induction fuel as [|fuel IH]; intros s Hs Hf; [lia|].
  cbn [loop]. destruct (nonempty (ch s) && _) eqn:Ec; [|eauto].
  apply andb_true_iff in Ec. destruct Ec as [Ec _].
  assert (Hlt : idx s < length input).
  { apply charAt_str_in_range. destruct Hs as (Hch & _). now rewrite <- Hch. }
  destruct (@advance_total (S (length input)) s Hs) as [s1 E1]; [lia|lia|].
  rewrite E1. destruct (advance_scanned _ Hs E1) as [H1 Hi].
  apply IH; [assumption|lia].
Qed.

(** The scan always ends with the fuel it is given. *)
Lemma run_total (endChar : str) :
  exists s, run input endChar = Some s /\ scanned s.
Proof.
  unfold run. apply loop_total; [apply scanned_start|]. cbn. lia.
Qed.

(** The token of [advanceTo]: [val] holds the characters scanned other
    than backslashes, [esc] holds each of them after a backslash, and one
    more backslash for every step taken past the end of the input. *)
Lemma advanceTo_spec (endChar : str) :
  let t := advanceTo input endChar in
  val t = filter not_backslash (firstn (len t - 1) input)
  /\ esc t = escape_all (val t) ++ repeat bslash (len t - 1 - length input).
Proof.
  unfold advanceTo. destruct (run_total endChar) as [s [-> Hs]].
  destruct Hs as (_ & Hlen & Hval & Hesc). cbn zeta.
  rewrite Hlen. replace (S (idx s) - 1) with (idx s) by lia. auto.
Qed.

Lemma charAt_str_app (pre post : str) :
  charAt_str (pre ++ post) (length pre)
  = match post with c :: _ => [c] | [] => [] end.
Proof.
  unfold charAt_str, charAt. rewrite nth_error_app2 by lia.
  rewrite Nat.sub_diag. now destruct post.
Qed.

Lemma charAt_str_mid (pre mid post : str) :
  charAt_str (pre ++ mid ++ post) (length pre + length mid)
  = match post with c :: _ => [c] | [] => [] end.
Proof. rewrite app_assoc, <- length_app. apply charAt_str_app. Qed.

(** A span without backslashes: the scan stops on the closing quote. *)
Lemma loop_plain (q : char) (rest' : str) :
  q <> bslash ->
  forall content pre fuel s,
    input = pre ++ content ++ q :: rest' ->
    Forall (fun c => c <> bslash /\ c <> q) content ->
    scanned s -> idx s = length pre -> length content < fuel ->
    exists s',
      loop fuel input [q] s = Some s'
      /\ scanned s' /\ idx s' = length pre + length content.
Proof.
  intros Hq. induction content as [|c cs IH];
    intros pre fuel s Hin Hall Hs Hidx Hf;
    (destruct fuel as [|fuel]; [cbn in Hf; lia|]); cbn [loop].
  - assert (Hch : ch s = [q]).
    { destruct Hs as (Hch & _). now rewrite Hch, Hidx, Hin, charAt_str_app. }
    rewrite Hch.
    cbn [app nonempty str_eqb]. rewrite (proj2 (char_eqb_eq q q) eq_refl).
    cbn. exists s. split; [reflexivity|]. split; [assumption|lia].
  - apply Forall_cons_iff in Hall. destruct Hall as [[Hc1 Hc2] Hall'].
    assert (Hch : ch s = [c]).
    { destruct Hs as (Hch & _). now rewrite Hch, Hidx, Hin, charAt_str_app. }
    rewrite Hch. cbn [app nonempty str_eqb].
    assert (Ecq : char_eqb c q = false)
      by (apply not_true_is_false; intro E; now apply char_eqb_eq in E).
    rewrite Ecq. cbn [andb negb]. rewrite advance_unfold.
    assert (Hin' : input = (pre ++ [c]) ++ cs ++ q :: rest')
      by (now rewrite <- app_assoc).
    assert (Hnb : str_eqb (ch (step s)) [bslash] = false).
    { unfold step. cbn [ch]. rewrite Hidx.
      replace (S (length pre)) with (length (pre ++ [c]))
        by (rewrite length_app; cbn; lia).
      rewrite Hin', charAt_str_app.
      apply not_true_is_false. intro E. apply str_eqb_eq in E.
      destruct cs as [|c' cs]; cbn in E; injection E as E.
      - now apply Hq.
      - apply Forall_cons_iff in Hall'. now apply (proj1 (proj1 Hall')). }
    rewrite Hnb.
    destruct (IH (pre ++ [c]) fuel (step s) Hin' Hall' (scanned_step Hs))
      as [s' (E & Hs' & Hi')].
    + unfold step. cbn [idx]. rewrite Hidx, length_app. simpl. lia.
    + simpl in Hf. lia.
    + exists s'. split; [assumption|]. split; [assumption|].
      rewrite Hi', length_app. simpl. lia.
Qed.

End QuotedFacts.

Section QuotedSpans.

Lemma filter_not_backslash (q : char) (content : str) :
  Forall (fun c => c <> bslash /\ c <> q) content ->
  filter not_backslash content = content.
Proof.
  induction content as [|c cs IH]; intro H; [reflexivity|].
  apply Forall_cons_iff in H. destruct H as [[Hc _] H]. cbn [filter].
  unfold not_backslash at 1.
  assert (E : char_eqb c bslash = false)
    by (apply not_true_is_false; intro E; now apply char_eqb_eq in E).
  rewrite E. cbn [negb]. now rewrite IH.
Qed.

Lemma advanceTo_plain (q : char) (content rest' : str) :
  q <> bslash ->
  Forall (fun c => c <> bslash /\ c <> q) content ->
  advanceTo (content ++ q :: rest') [q]
  = mkTok (S (length content)) content (escape_all content).
Proof.
  intros Hq Hall. unfold advanceTo, run.
  destruct (@loop_plain (content ++ q :: rest') q rest' Hq content []
              (S (length (content ++ q :: rest')))
              (start (content ++ q :: rest')) eq_refl Hall
              (scanned_start _) eq_refl)
    as [s' (E & Hs & Hi)].
  { rewrite length_app. lia. }
  rewrite E. destruct Hs as (_ & Hlen & Hval & Hesc).
  simpl in Hi. rewrite Hi in *.
  rewrite firstn_app, Nat.sub_diag, firstn_all in Hval.
  simpl firstn in Hval. rewrite app_nil_r in Hval.
  rewrite (filter_not_backslash Hall) in Hval.
  rewrite Hval in Hesc.
  replace (length content - length (content ++ q :: rest')) with 0 in Hesc
    by (rewrite length_app; lia).
  cbn [repeat] in Hesc. rewrite app_nil_r in Hesc.
  destruct (tok s') as [l v e]. cbn in *. congruence.
Qed.

End QuotedSpans.

(* ================================================================= *)
(** ** Quoted spans with escaped characters *)

(** A span in which every backslash stands before a character other than
    a backslash, and no character outside such a pair is the quote
    character [q]: the text up to the first quote that is not escaped. *)
Fixpoint well_escaped (q : char) (s : str) : bool :=
  match s with
  | [] => true
  | a :: s' =>
      if char_eqb a bslash
      then match s' with
           | b :: s'' => negb (char_eqb b bslash) && well_escaped q s''
           | [] => false
           end
      else negb (char_eqb a q) && well_escaped q s'
  end.

Section WellEscaped.

Variable input : str.
Variable q : char.

(** [n] steps of the scan in a row. *)
Fixpoint steps (n : nat) (s : Scan) : Scan :=
  match n with
  | 0 => s
  | S n' => steps n' (@step input s)
  end.

Lemma scanned_steps (n : nat) :
  forall s, @scanned input s -> @scanned input (steps n s).
Proof.
  induction n as [|n IH]; intros s Hs; cbn [steps]; [assumption|].
  apply IH. now apply scanned_step.
Qed.

Lemma idx_steps (n : nat) : forall s, idx (steps n s) = n + idx s.
Proof.
  induction n as [|n IH]; intros s; cbn [steps]; [reflexivity|].
  rewrite IH. unfold step. cbn [idx]. lia.
Qed.

Lemma escape_all_length (xs : str) :
  length (escape_all xs) = 2 * length xs.
Proof.
  induction xs as [|x xs IH]; [reflexivity|].
  change (escape_all (x :: xs)) with (bslash :: x :: escape_all xs).
  simpl length. rewrite IH. lia.
Qed.

Lemma not_bslash_eqb (x : char) :
  x <> bslash -> str_eqb [x] [bslash] = false.
Proof.
  intro Hx. apply not_true_is_false. intro E. apply str_eqb_eq in E.
  injection E as E. now apply Hx.
Qed.

Lemma head_not_bslash (post : str) :
  (forall r, post <> bslash :: r) ->
  str_eqb (match post with c :: _ => [c] | [] => [] end) [bslash] = false.
Proof.
  intro H. destruct post as [|y post]; [reflexivity|].
  apply not_bslash_eqb. intros ->. now apply (H post).
Qed.

(** One call of [advance] from a character followed by escaped characters:
    the nested calls take the character and every backslash and escaped
    character after it, and return on the first character that is not a
    backslash. *)
Lemma advance_chain :
  forall xs pre c post fuel s,
    input = pre ++ c :: escape_all xs ++ post ->
    Forall (fun x => x <> bslash) xs ->
    (forall r, post <> bslash :: r) ->
    idx s = length pre ->
    length xs < fuel ->
    advance fuel input s = Some (steps (1 + 2 * length xs) s).
Proof.
  induction xs as [|x xs IH]; intros pre c post fuel s Hin Hxs Hpost Hidx Hf.
  - destruct fuel as [|f]; [simpl in Hf; lia|]. rewrite advance_unfold.
    assert (H1 : str_eqb (ch (@step input s)) [bslash] = false).
    { unfold step. cbn [ch]. rewrite Hidx.
      replace (S (length pre)) with (length pre + length [c])
        by (simpl; lia).
      rewrite Hin.
      rewrite (charAt_str_mid pre [c] post
               : charAt_str (pre ++ c :: escape_all [] ++ post)
                            (length pre + length [c]) = _).
      now apply head_not_bslash. }
    rewrite H1. reflexivity.
  - apply Forall_cons_iff in Hxs. destruct Hxs as [Hx Hxs].
    destruct fuel as [|[|f]]; simpl in Hf; try lia.
    assert (H1 : ch (@step input s) = [bslash]).
    { unfold step. cbn [ch]. rewrite Hidx.
      replace (S (length pre)) with (length pre + length [c])
        by (simpl; lia).
      rewrite Hin.
      exact (charAt_str_mid pre [c] (bslash :: x :: escape_all xs ++ post)). }
    assert (H2 : ch (@step input (@step input s)) = [x]).
    { unfold step. cbn [ch idx]. rewrite Hidx.
      replace (S (S (length pre))) with (length pre + length [c; bslash])
        by (simpl; lia).
      rewrite Hin.
      exact (charAt_str_mid pre [c; bslash] (x :: escape_all xs ++ post)). }
    assert (Hin' : input = (pre ++ [c; bslash]) ++ x :: escape_all xs ++ post)
      by (now rewrite <- app_assoc).
    assert (Hidx' : idx (@step input (@step input s))
                    = length (pre ++ [c; bslash])).
    { unfold step. cbn [idx]. rewrite Hidx, length_app. simpl. lia. }
    rewrite advance_unfold, H1.
    replace (str_eqb [bslash] [bslash]) with true by reflexivity.
    rewrite advance_unfold, H2, (not_bslash_eqb Hx).
    rewrite (IH (pre ++ [c; bslash]) x post (S f)
                (@step input (@step input s)) Hin' Hxs Hpost Hidx')
      by lia.
    replace (1 + 2 * length (x :: xs)) with (S (S (1 + 2 * length xs)))
      by (simpl; lia).
    reflexivity.
Qed.

(** A well escaped span is a run of escaped characters followed by a well
    escaped span that does not start with a backslash. *)
Lemma well_escaped_split :
  forall n s,
    length s <= n ->
    well_escaped q s = true ->
    exists xs s',
      s = escape_all xs ++ s'
      /\ Forall (fun x => x <> bslash) xs
      /\ well_escaped q s' = true
      /\ (forall r, s' <> bslash :: r).
Proof.
  induction n as [|n IH]; intros s Hn Hw.
  - destruct s; [|simpl in Hn; lia].
    exists [], []. repeat split; [constructor|discriminate].
  - destruct s as [|a s].
    { exists [], []. repeat split; [constructor|discriminate]. }
    cbn [well_escaped] in Hw. destruct (char_eqb a bslash) eqn:Ea.
    + apply char_eqb_eq in Ea. subst a.
      destruct s as [|b s]; [discriminate|].
      apply andb_true_iff in Hw. destruct Hw as [Hb Hw].
      destruct (IH s) as (xs & s' & -> & Hxs & Hw' & Hhd);
        [simpl in Hn; lia|assumption|].
      exists (b :: xs), s'. split; [reflexivity|].
      split; [|split; assumption].
      constructor; [|assumption]. intros ->. discriminate.
    + exists [], (a :: s). split; [reflexivity|]. split; [constructor|].
      split; [cbn [well_escaped]; now rewrite Ea|].
      intros r [= -> _]. discriminate.
Qed.

Lemma loop_at_end (pre rest : str) (fuel : nat) (s : Scan) :
  input = pre ++ q :: rest ->
  @scanned input s -> idx s = length pre ->
  loop (S fuel) input [q] s = Some s.
Proof.
  intros Hin Hs Hidx. cbn [loop].
  assert (Hch : ch s = [q]).
  { destruct Hs as (Hch & _). now rewrite Hch, Hidx, Hin, charAt_str_app. }
  rewrite Hch. cbn [nonempty str_eqb].
  rewrite (proj2 (char_eqb_eq q q) eq_refl). reflexivity.
Qed.

(** The loop of [advanceTo] over a well escaped span that does not start
    with a backslash: it stops on the quote that ends the span. *)
Lemma loop_well_escaped :
  q <> bslash ->
  forall n content,
    length content <= n ->
    forall pre fuel s rest,
      input = pre ++ content ++ q :: rest ->
      well_escaped q content = true ->
      (forall r, content <> bslash :: r) ->
      @scanned input s -> idx s = length pre -> length content < fuel ->
      exists s',
        loop fuel input [q] s = Some s'
        /\ @scanned input s' /\ idx s' = length pre + length content.
Proof.
  intros Hq. induction n as [|n IH];
    intros content Hn pre fuel s rest Hin Hw Hhd Hs Hidx Hf.
  - destruct content; [|simpl in Hn; lia].
    destruct fuel as [|fuel]; [simpl in Hf; lia|].
    exists s. split; [now apply (@loop_at_end pre rest)|].
    split; [assumption|simpl; lia].
  - destruct content as [|c content].
    { destruct fuel as [|fuel]; [simpl in Hf; lia|].
      exists s. split; [now apply (@loop_at_end pre rest)|].
      split; [assumption|simpl; lia]. }
    assert (Hc1 : c <> bslash) by (intros ->; now apply (Hhd content)).
    assert (Ec1 : char_eqb c bslash = false)
      by (apply not_true_is_false; intro E; now apply char_eqb_eq in E).
    cbn [well_escaped] in Hw. rewrite Ec1 in Hw.
    apply andb_true_iff in Hw. destruct Hw as [Ecq Hw].
    apply negb_true_iff in Ecq.
    destruct (@well_escaped_split (length content) content (le_n _) Hw)
      as (xs & content' & -> & Hxs & Hw' & Hhd').
    assert (Hpost : forall r, content' ++ q :: rest <> bslash :: r).
    { intros r E. destruct content' as [|y t].
      - injection E as E _. now apply Hq.
      - injection E as E _. subst y. now apply (Hhd' t). }
    assert (Hin1 : input = pre ++ c :: escape_all xs ++ content' ++ q :: rest)
      by (rewrite Hin; cbn [app]; now rewrite <- app_assoc).
    assert (Hlen : length input
                   = length pre + S (2 * length xs + length content'
                                     + S (length rest))).
    { rewrite Hin1, length_app. simpl length.
      rewrite !length_app, escape_all_length. simpl. lia. }
    assert (Eadv : advance (S (length input)) input s
                   = Some (steps (1 + 2 * length xs) s)).
    { apply (@advance_chain xs pre c (content' ++ q :: rest));
        [assumption|assumption|assumption|assumption|lia]. }
    assert (Hch : ch s = [c]).
    { destruct Hs as (Hch & _). now rewrite Hch, Hidx, Hin, charAt_str_app. }
    simpl length in Hn, Hf. rewrite length_app, escape_all_length in Hn, Hf.
    destruct fuel as [|fuel]; [lia|].
    assert (Hin2 : input
                   = (pre ++ c :: escape_all xs) ++ content' ++ q :: rest)
      by (rewrite Hin1, <- app_assoc; reflexivity).
    destruct (IH content') with
        (pre := pre ++ c :: escape_all xs) (fuel := fuel)
        (s := steps (1 + 2 * length xs) s) (rest := rest)
      as (s' & E' & Hs' & Hi');
      [lia|assumption|assumption|assumption
       |now apply scanned_steps
       |rewrite idx_steps, Hidx, length_app; simpl length;
        rewrite escape_all_length; lia
       |lia|].
    exists s'. split; [|split; [assumption|]].
    + cbn [loop]. rewrite Hch. cbn [nonempty str_eqb]. rewrite Ecq.
      cbn [andb negb]. rewrite Eadv. exact E'.
    + rewrite Hi', !length_app. simpl length.
      rewrite length_app, escape_all_length. lia.
Qed.

(** On a well escaped span, dropping the backslashes is unescaping. *)
Lemma filter_unescape :
  forall n s,
    length s <= n ->
    well_escaped q s = true -> filter not_backslash s = unescape s.
Proof.
  induction n as [|n IH]; intros s Hn Hw.
  - destruct s; [reflexivity|simpl in Hn; lia].
  - destruct s as [|a s]; [reflexivity|].
    cbn [well_escaped] in Hw. destruct (char_eqb a bslash) eqn:Ea.
    + destruct s as [|b s]; [discriminate|].
      apply andb_true_iff in Hw. destruct Hw as [Hb Hw].
      assert (Na : not_backslash a = false)
        by (unfold not_backslash; now rewrite Ea).
      assert (Nb : not_backslash b = true) by exact Hb.
      cbn [filter unescape]. rewrite Na, Nb, Ea. f_equal.
      apply IH; [simpl in Hn; lia|assumption].
    + apply andb_true_iff in Hw. destruct Hw as [_ Hw].
      assert (Na : not_backslash a = true)
        by (unfold not_backslash; now rewrite Ea).
      assert (E : filter not_backslash (a :: s) = a :: unescape s).
      { cbn [filter]. rewrite Na.
        f_equal. apply IH; [simpl in Hn; lia|assumption]. }
      rewrite E. destruct s as [|b s]; [reflexivity|].
      cbn [unescape]. now rewrite Ea.
Qed.

(** The token of [advanceTo] on a well escaped span that does not start
    with an escaped quote. *)
Lemma advanceTo_well_escaped (content rest : str) :
  input = content ++ q :: rest ->
  q <> bslash ->
  well_escaped q content = true ->
  starts_with [bslash; q] content = false ->
  advanceTo input [q]
  = mkTok (S (length content)) (unescape content)
          (escape_all (unescape content)).
Proof.
  intros Hin Hq Hw Hsw.
  assert (Hlen : length input = length content + S (length rest)).
  { rewrite Hin, length_app. simpl. lia. }
  assert (Hend : exists s',
             run input [q] = Some s'
             /\ @scanned input s' /\ idx s' = length content).
  { unfold run. destruct content as [|a content].
    - exists (start input). split; [|split; [apply scanned_start|reflexivity]].
      now apply (@loop_at_end [] rest); [|apply scanned_start|].
    - destruct (char_eqb a bslash) eqn:Ea.
      + apply char_eqb_eq in Ea. subst a.
        cbn [well_escaped] in Hw.
        replace (char_eqb bslash bslash) with true in Hw by reflexivity.
        destruct content as [|x content]; [discriminate|].
        apply andb_true_iff in Hw. destruct Hw as [Hx Hw].
        cbn [starts_with] in Hsw.
        replace (char_eqb bslash bslash) with true in Hsw by reflexivity.
        rewrite andb_true_r in Hsw. cbn [andb] in Hsw.
        assert (Hx' : x <> bslash) by (intros ->; discriminate).
        assert (Hch0 : ch (start input) = [bslash]).
        { unfold start. cbn [ch]. now rewrite Hin. }
        assert (Hch1 : ch (@step input (start input)) = [x]).
        { unfold step, start. cbn [ch idx]. now rewrite Hin. }
        assert (Eq : str_eqb [bslash] [q] = false).
        { apply not_true_is_false. intro E. apply str_eqb_eq in E.
          injection E as E. now apply Hq. }
        assert (Hw1 : well_escaped q (x :: content) = true).
        { cbn [well_escaped]. apply negb_true_iff in Hx. rewrite Hx.
          now rewrite Hsw. }
        destruct (@loop_well_escaped Hq (length (x :: content))
                    (x :: content) (le_n _) [bslash] (length input)
                    (@step input (start input)) rest)
          as (s' & E' & Hs' & Hi');
          [exact Hin|exact Hw1|intros r [= -> _]; now apply Hx'
           |apply scanned_step, scanned_start|reflexivity
           |rewrite Hlen; simpl; lia|].
        exists s'. split; [|split; [assumption|exact Hi']].
        cbn [loop]. rewrite Hch0, Eq. cbn [nonempty andb negb].
        rewrite advance_unfold, Hch1, (not_bslash_eqb Hx'). exact E'.
      + destruct (@loop_well_escaped Hq (length (a :: content))
                    (a :: content) (le_n _) [] (S (length input))
                    (start input) rest)
          as (s' & E' & Hs' & Hi');
          [exact Hin|exact Hw|intros r [= -> _]; discriminate
           |apply scanned_start|reflexivity|rewrite Hlen; lia|].
        exists s'. split; [exact E'|]. split; [assumption|exact Hi']. }
  destruct Hend as (s' & E' & (_ & Hl' & Hval & Hesc) & Hi').
  unfold advanceTo. rewrite E'.
  assert (Hpre : firstn (idx s') input = content).
  { rewrite Hi', Hin, firstn_app, Nat.sub_diag, firstn_all.
    simpl firstn. now rewrite app_nil_r. }
  rewrite Hpre, (@filter_unescape (length content) content (le_n _) Hw)
    in Hval.
  replace (idx s' - length input) with 0 in Hesc by lia.
  cbn [repeat] in Hesc. rewrite app_nil_r in Hesc.
  rewrite Hi' in Hl'. rewrite Hval in Hesc.
  destruct (tok s') as [l v e]. cbn [len val esc] in Hl', Hval, Hesc.
  now subst.
Qed.

End WellEscaped.

(** C5, as stated, fails: on the pattern of a quoted [a], the rule consumes
    the whole span and the value of the quoted node is a backslash followed
    by [a], while the unescaped content of the span is [a] alone. *)
Lemma quoted_value_is_not_unescaped :
  Rules.quoted (Parser.init Options.default ([dquote] ++ js "a" ++ [dquote]))
  = Matched (Some (Node.plain t_quoted (js "\a")))
      (Parser.mk Options.default [] [dquote] State.init None [] None
                 false false false)
  /\ js "\a" <> unescape (js "a").
Proof. split; [reflexivity|discriminate]. Qed.

(** C5, amended: when the text after the opening quote is a well escaped
    span followed by the quote character (every backslash of the span
    stands before a character other than a backslash, and the span does
    not start with an escaped quote), the rule yields a quoted node whose
    value is the unescaped content of the span with one backslash before
    each of its characters, and it consumes through the closing quote. *)
Theorem quoted_value_escaped
        (p : Parser.t) (q : char) (content rest : str) :
  Parser.input p = q :: content ++ q :: rest ->
  mem q [dquote; squote] = true ->
  well_escaped q content = true ->
  starts_with [bslash; q] content = false ->
  Rules.quoted p
  = Matched (Some (Node.plain t_quoted (escape_all (unescape content))))
      (consume (S (length content)) (updatePosition [q] p))
  /\ Parser.input (consume (S (length content)) (updatePosition [q] p))
     = rest.
Proof.
  intros Hin Hq Hw Hsw.
  assert (Hqb : q <> bslash) by (intros ->; discriminate).
  assert (Ei : Parser.input (updatePosition [q] p) = content ++ q :: rest)
    by (cbn; now rewrite Hin).
  split.
  - unfold Rules.quoted, pmatch. rewrite Hin, (@quote_re_spec q _ Hq).
    unfold Rules.quoted_body. rewrite Ei.
    assert (Hocc : In q (content ++ q :: rest))
      by (apply in_or_app; right; now left).
    rewrite (proj2 (indexOf_found_single _ q) Hocc).
    rewrite (@advanceTo_well_escaped _ q content rest eq_refl Hqb Hw Hsw).
    reflexivity.
  - change (skipn (S (length content))
                  (Parser.input (updatePosition [q] p)) = rest).
    rewrite Ei, skipn_app, skipn_all2 by lia.
    replace (S (length content) - length content) with 1 by lia.
    reflexivity.
Qed.

Lemma quoted_value_escaped_witness :
  Parser.input (Parser.init Options.default (js "'a\'b\cd' e"))
  = squote :: js "a\'b\cd" ++ squote :: js " e"
  /\ mem squote [dquote; squote] = true
  /\ well_escaped squote (js "a\'b\cd") = true
  /\ starts_with [bslash; squote] (js "a\'b\cd") = false
  /\ unescape (js "a\'b\cd") = js "a'bcd"
  /\ Rules.quoted (Parser.init Options.default (js "'a\'b\cd' e"))
     = Matched (Some (Node.plain t_quoted (js "\a\'\b\c\d")))
         (Parser.mk Options.default (js " e") (js "'") State.init None []
                    None false false false).
Proof.
  do 5 (split; [reflexivity|]).
  exact (proj1 (@quoted_value_escaped
                  (Parser.init Options.default (js "'a\'b\cd' e"))
                  squote (js "a\'b\cd") (js " e")
                  eq_refl eq_refl eq_refl eq_refl)).
Defined.

(** C6: when the quoted rule matches a quote that does not occur again in
    the remaining input, it yields an escape node whose value is the quote
    character and consumes the quote alone. *)
Theorem lone_quote_is_literal (p : Parser.t) (q : char) (rest : str) :
  Parser.input p = q :: rest ->
  mem q [dquote; squote] = true ->
  ~ In q rest ->
  Rules.quoted p
  = Matched (Some (Node.plain t_escape [q])) (updatePosition [q] p)
  /\ Parser.input (updatePosition [q] p) = rest.
Proof.
  intros Hin Hq Hocc.
  assert (Ei : Parser.input (updatePosition [q] p) = rest)
    by (cbn; now rewrite Hin).
  split; [|exact Ei].
  unfold Rules.quoted, pmatch. rewrite Hin, (@quote_re_spec q rest Hq).
  unfold Rules.quoted_body. rewrite Ei.
  destruct (indexOf_found rest [q]) eqn:E; [|reflexivity].
  apply indexOf_found_single in E. contradiction.
Qed.

Lemma lone_quote_is_literal_witness :
  Parser.input
    (Parser.mk Options.default (js "'s") (js "it") State.init None [] None
               false false false) = squote :: js "s"
  /\ mem squote [dquote; squote] = true
  /\ ~ In squote (js "s")
  /\ Rules.quoted
       (Parser.mk Options.default (js "'s") (js "it") State.init None []
                  None false false false)
     = Matched (Some (Node.plain t_escape [squote]))
         (Parser.mk Options.default (js "s") (js "it'") State.init None []
                    None false false false).
Proof.
  assert (H : ~ In squote (js "s")) by (cbn; intros [E|[]]; discriminate).
  split; [reflexivity|]. split; [reflexivity|]. split; [exact H|].
  exact (proj1 (@lone_quote_is_literal
                  (Parser.mk Options.default (js "'s") (js "it") State.init
                             None [] None false false false)
                  squote (js "s") eq_refl eq_refl H)).
Defined.

(* ================================================================= *)
(** ** The backslash rule *)

Section BackslashFacts.

(** The characters the look-ahead of the backslash pattern excludes. *)
Definition structural : str := js "*+?(){}[]'" ++ [dquote].

Definition backslash_here (s : str) : bool :=
  match s with
  | c :: r =>
      char_eqb c bslash
      && negb (match r with x :: _ => mem x structural | [] => false end)
  | [] => false
  end.

Lemma backslash_re_spec (s : str) :
  exec backslash_re s = if backslash_here s then Some [bslash] else None.
Proof.
  unfold exec, backslash_re, backslash_here, structural.
  destruct s as [|c [|x r]]; char_cases; reflexivity.
Qed.

End BackslashFacts.

(** C8: the backslash rule fires on a backslash that is not followed by one
    of the structural characters; inside a bracket context the value of its
    node is a single backslash; outside a bracket context a matched text of
    more than one backslash becomes two backslashes.  The pattern of the
    rule matches one backslash at a time, so the node the rule returns
    always carries a single backslash. *)
Theorem backslash_value :
  (forall p,
      (exists tok p', Rules.backslash p = Matched tok p')
      <-> exists r,
          Parser.input p = bslash :: r
          /\ forall x r', r = x :: r' -> mem x structural = false)
  /\ (forall p n p',
      Parser.inside_bracket p = true ->
      Rules.backslash p = Matched (Some n) p' ->
      Node.type n = t_backslash /\ Node.val n = [bslash])
  /\ (forall m0 p1,
      Parser.inside_bracket p1 = false ->
      1 < length m0 ->
      Rules.backslash_body m0 p1
      = Matched (Some (Node.plain t_backslash [bslash; bslash])) p1)
  /\ (forall p tok p',
      Rules.backslash p = Matched tok p' ->
      tok = Some (Node.plain t_backslash [bslash])).
Proof.
  split; [|split; [|split]].
  - intro p. unfold Rules.backslash, pmatch. rewrite backslash_re_spec.
    unfold backslash_here. destruct (Parser.input p) as [|c r].
    + split; [intros (tok & p' & H); discriminate|].
      intros (r & H & _). discriminate.
    + destruct (char_eqb c bslash) eqn:Ec; cbn [andb].
      * apply char_eqb_eq in Ec. subst c.
        destruct r as [|x r'].
        -- cbn [negb]. split; [|unfold Rules.backslash_body; eauto].
           intros _. exists []. split; [reflexivity|]. discriminate.
        -- destruct (mem x structural) eqn:Ex; cbn [negb].
           ++ split; [intros (tok & p' & H); discriminate|].
              intros (r & [= <-] & H). specialize (H x r' eq_refl). congruence.
           ++ split; [|unfold Rules.backslash_body; eauto].
              intros _. exists (x :: r'). split; [reflexivity|].
              now intros ? ? [= <- <-].
      * split; [intros (tok & p' & H); discriminate|].
        intros (r0 & [= -> _] & _). now rewrite (proj2 (char_eqb_eq _ _) eq_refl) in Ec.
  - intros p n p' Hin. unfold Rules.backslash, pmatch, Rules.backslash_body.
    destruct (exec backslash_re (Parser.input p)); [|discriminate].
    change (Parser.inside_bracket (updatePosition s p))
      with (Parser.inside_bracket p).
    rewrite Hin. intros [= <- <-]. auto.
  - intros m0 p1 Hin Hlen. unfold Rules.backslash_body. rewrite Hin.
    apply Nat.ltb_lt in Hlen. now rewrite Hlen.
  - intros p tok p'. unfold Rules.backslash, pmatch.
    rewrite backslash_re_spec.
    destruct (backslash_here (Parser.input p)); [|discriminate].
    unfold Rules.backslash_body.
    destruct (Parser.inside_bracket _); cbn; now intros [= <- <-].
Qed.

Lemma backslash_value_witness :
  (Parser.inside_bracket
     (Parser.mk Options.default (js "\a") [] State.init None [] None
                true false false) = true
   /\ Node.val (Node.plain t_backslash [bslash]) = [bslash])
  /\ (1 < length (js "\\\")
      /\ Rules.backslash_body (js "\\\")
           (Parser.init Options.default (js "a"))
         = Matched (Some (Node.plain t_backslash [bslash; bslash]))
             (Parser.init Options.default (js "a"))).
Proof.
  split.
  - split; [reflexivity|].
    exact (proj2 (proj1 (proj2 backslash_value)
             (Parser.mk Options.default (js "\a") [] State.init None [] None
                        true false false)
             (Node.plain t_backslash [bslash])
             (Parser.mk Options.default (js "a") [bslash] State.init None []
                        None true false false)
             eq_refl eq_refl)).
  - assert (H : 1 < length (js "\\\")) by (cbn; lia).
    split; [exact H|].
    exact (proj1 (proj2 (proj2 backslash_value)) (js "\\\")
             (Parser.init Options.default (js "a")) eq_refl H).
Defined.

(* ================================================================= *)
(** ** The flags of the lexer state *)

Section FlagFacts.

(** A flag after a step is what it was, or [true]. *)
Definition flag_step (a b : option bool) : Prop := b = a \/ b = Some true.

Definition flags_step (s s' : State.t) : Prop :=
  flag_step (State.metachar s) (State.metachar s')
  /\ flag_step (State.star s) (State.star s')
  /\ flag_step (State.globstar s) (State.globstar s').

(** A flag is unset or [true]. *)
Definition flag_ok (a : option bool) : Prop := a = None \/ a = Some true.

Definition flags_ok (s : State.t) : Prop :=
  flag_ok (State.metachar s) /\ flag_ok (State.star s)
  /\ flag_ok (State.globstar s).

Lemma flag_step_true (a b : option bool) :
  flag_step a b -> a = Some true -> b = Some true.
Proof. intros [-> | ->] H; auto. Qed.

Lemma flag_step_ok (a b : option bool) :
  flag_step a b -> flag_ok a -> flag_ok b.
Proof. intros [-> | ->] H; auto. now right. Qed.

Lemma flags_step_ok (s s' : State.t) :
  flags_step s s' -> flags_ok s -> flags_ok s'.
Proof.
  intros (H1 & H2 & H3) (K1 & K2 & K3).
  repeat split; eapply flag_step_ok; eauto.
Qed.

Lemma flags_step_refl (s : State.t) : flags_step s s.
Proof. repeat split; now left. Qed.

Definition monotone (r : Parser.t -> Outcome) : Prop :=
  forall p tok p',
    r p = Matched tok p' -> flags_step (Parser.state p) (Parser.state p').

Lemma bracket_scan_state :
  forall s p inner p' inner',
    bracket_scan s p inner = Some (p', inner') ->
    Parser.state p' = Parser.state p.
Proof.
  induction s as [|c s IH]; intros p inner p' inner'; cbn [bracket_scan].
  - now intros [= <- <-].
  - destruct (str_eqb _ _); [discriminate|].
    intro H. now apply IH in H.
Qed.

Ltac open_rule :=
  intros p tok p';
  repeat match goal with
         | |- context [if ?b then NoMatch else _] => destruct b
         end;
  try discriminate;
  match goal with
  | |- context [pmatch ?r ?m0 ?p] =>
      let H := fresh "H" in
      destruct (pmatch r m0 p) as [[? ?]|] eqn:H; [|discriminate];
      apply pmatch_Some in H; destruct H as [_ H]; subst
  end.

Ltac close_rule :=
  intros [= <- <-]; cbn;
  repeat split; solve [now left | now right].

Lemma monotone_prefix : monotone Rules.prefix.
Proof. unfold monotone, Rules.prefix. open_rule. close_rule. Qed.

Lemma monotone_escape : monotone Rules.escape.
Proof.
  unfold monotone, Rules.escape. open_rule.
  destruct p0 as [[m0 m1] m2]. close_rule.
Qed.

Lemma monotone_quoted : monotone Rules.quoted.
Proof.
  unfold monotone, Rules.quoted, Rules.quoted_body. open_rule.
  destruct (negb _); close_rule.
Qed.

Lemma monotone_not : monotone Rules.not.
Proof.
  unfold monotone, Rules.not, Rules.not_body. open_rule.
  destruct (_ && _); close_rule.
Qed.

Lemma monotone_dot : monotone Rules.dot.
Proof. unfold monotone, Rules.dot. open_rule. close_rule. Qed.

Lemma monotone_plus : monotone Rules.plus.
Proof. unfold monotone, Rules.plus, Rules.capture. open_rule. close_rule. Qed.

Lemma monotone_qmark : monotone Rules.qmark.
Proof. unfold monotone, Rules.qmark. open_rule. close_rule. Qed.

Lemma monotone_globstar : monotone Rules.globstar.
Proof.
  unfold monotone, Rules.globstar. open_rule.
  destruct (negb _); close_rule.
Qed.

Lemma monotone_star : monotone Rules.star.
Proof. unfold monotone, Rules.star. open_rule. close_rule. Qed.

Lemma monotone_slash : monotone Rules.slash.
Proof. unfold monotone, Rules.slash. open_rule. close_rule. Qed.

Lemma monotone_backslash : monotone Rules.backslash.
Proof.
  unfold monotone, Rules.backslash, Rules.backslash_body. open_rule.
  close_rule.
Qed.

Lemma monotone_square : monotone Rules.square.
Proof.
  unfold monotone, Rules.square. open_rule.
  destruct p0 as [m0 m1]. close_rule.
Qed.

Lemma monotone_bracket : monotone Rules.bracket.
Proof.
  unfold monotone, Rules.bracket, Rules.bracket_body. open_rule.
  destruct p0 as [[[m0 m1] m2] m3]. cbn [fst].
  destruct (_ && _); [|close_rule].
  destruct (bracket_scan _ _ _) as [[p3 inner']|] eqn:Es; [|discriminate].
  apply bracket_scan_state in Es. intros [= <- <-]. rewrite Es.
  apply flags_step_refl.
Qed.

Lemma monotone_text : monotone Rules.text.
Proof.
  unfold monotone, Rules.text. open_rule.
  destruct (nonempty s); [|discriminate]. close_rule.
Qed.

Lemma monotone_all : Forall monotone Rules.all.
Proof.
  unfold Rules.all.
  repeat (apply Forall_cons;
          [solve [auto using monotone_prefix, monotone_escape,
                    monotone_quoted, monotone_not, monotone_dot,
                    monotone_plus, monotone_qmark, monotone_globstar,
                    monotone_star, monotone_slash, monotone_backslash,
                    monotone_square, monotone_bracket, monotone_text]|]).
  apply Forall_nil.
Qed.

Lemma monotone_next : monotone next.
Proof.
  intros p tok p' H. unfold next in H.
  destruct (first_match_In Rules.all p) as [E|[r [Hin Hr]]];
    [congruence|].
  rewrite H in Hr.
  exact (proj1 (Forall_forall _ _) monotone_all r Hin p tok p' Hr).
Qed.

(** The parser a scan stops on. *)
Definition final (r : Result) : option Parser.t :=
  match r with
  | Done _ _ p | NoParser _ _ p | Crashed _ _ p => Some p
  | OutOfFuel => None
  end.

Lemma scan_flags :
  forall fuel p nodes consumed p',
    flags_ok (Parser.state p) ->
    final (scan fuel p nodes consumed) = Some p' ->
    flags_ok (Parser.state p').
Proof.
  induction fuel as [|fuel IH]; intros p nodes consumed p' Hok;
    cbn [scan]; destruct (Parser.input p) as [|c s];
    try (intros [= <-]; assumption); try discriminate.
  destruct (next p) as [|tok p1|] eqn:En;
    try (intros [= <-]; assumption).
  pose proof (flags_step_ok (monotone_next _ En) Hok) as Hok1.
  destruct (_ <? _); [now apply IH|].
  now intros [= <-].
Qed.

End FlagFacts.

(** C9: the flags for a metacharacter, a star and a globstar start unset;
    whatever rule of the set matches, each flag afterwards is what it was
    before or [true], so a flag that is [true] stays [true]; and when a
    scan stops, each flag is unset or [true]. *)
Theorem flags_monotonic :
  (forall o s,
      State.metachar (Parser.state (Parser.init o s)) = None
      /\ State.star (Parser.state (Parser.init o s)) = None
      /\ State.globstar (Parser.state (Parser.init o s)) = None)
  /\ (forall r p tok p',
      In r Rules.all ->
      r p = Matched tok p' ->
      flags_step (Parser.state p) (Parser.state p')
      /\ (State.metachar (Parser.state p) = Some true ->
          State.metachar (Parser.state p') = Some true)
      /\ (State.star (Parser.state p) = Some true ->
          State.star (Parser.state p') = Some true)
      /\ (State.globstar (Parser.state p) = Some true ->
          State.globstar (Parser.state p') = Some true))
  /\ (forall o s p,
      final (tokenize o s) = Some p -> flags_ok (Parser.state p)).
Proof.
  split; [|split].
  - intros o s. repeat split.
  - intros r p tok p' Hin Hr.
    pose proof (proj1 (Forall_forall _ _) monotone_all r Hin p tok p' Hr)
      as (H1 & H2 & H3).
    split; [repeat split; assumption|].
    repeat split; now apply flag_step_true.
  - intros o s p. unfold tokenize. apply scan_flags.
    repeat split; now left.
Qed.

Lemma flags_monotonic_witness :
  In Rules.star Rules.all
  /\ Rules.star
       (Parser.mk Options.default (js "*") (js "a") State.init None []
                  None false false false)
     = Matched (Some (Node.plain t_star (js "*")))
         (Parser.mk Options.default [] (js "a*")
                    (State.mk 0 [] None None None (Some true) None
                              (Some true) None)
                    None [] None false false false)
  /\ flags_step State.init
       (State.mk 0 [] None None None (Some true) None (Some true) None)
  /\ final (tokenize Options.default (js "a*"))
     = Some (Parser.mk Options.default [] (js "a*")
                       (State.mk 0 [] None None None (Some true) None
                                 (Some true) None)
                       None [] None false false false)
  /\ flags_ok (State.mk 0 [] None None None (Some true) None (Some true) None).
Proof.
  assert (Hin : In Rules.star Rules.all) by (cbn; tauto).
  split; [exact Hin|]. split; [reflexivity|]. split.
  - exact (proj1 (proj1 (proj2 flags_monotonic) Rules.star
             (Parser.mk Options.default (js "*") (js "a") State.init None []
                        None false false false)
             (Some (Node.plain t_star (js "*")))
             (Parser.mk Options.default [] (js "a*")
                        (State.mk 0 [] None None None (Some true) None
                                  (Some true) None)
                        None [] None false false false)
             Hin eq_refl)).
  - split; [reflexivity|].
    exact (proj2 (proj2 flags_monotonic) Options.default (js "a*")
             (Parser.mk Options.default [] (js "a*")
                        (State.mk 0 [] None None None (Some true) None
                                  (Some true) None)
                        None [] None false false false)
             eq_refl).
Defined.

(* ================================================================= *)
(** ** The text rule on an opening group *)

Section TextGroupFacts.

Lemma text_re_open_group (c : char) (r : str) :
  line_terminator c = false ->
  exec text_re (js "*(" ++ c :: r) = Some (js "*(").
Proof.
  intro H. unfold exec, text_re, createTextRegex. re_unfold.
  unfold line_terminator, mem in H. cbn in H. rewrite H. reflexivity.
Qed.

Lemma first_match_NoMatch (rules : list (Parser.t -> Outcome)) p :
  Forall (fun r => r p = NoMatch) rules -> first_match rules p = NoMatch.
Proof.
  induction 1 as [|r rules Hr _ IH]; cbn [first_match]; [reflexivity|].
  now rewrite Hr.
Qed.

(** No rule of the set matches when the remaining input is an opening
    group and nothing more. *)
Lemma group_alone_unmatched (p : Parser.t) :
  Parser.input p = js "*(" ->
  Parser.notRegex p = None ->
  Forall (fun r => r p = NoMatch) Rules.all.
Proof.
  destruct p as [o i pa st b a nr ib ibr ip]. cbn. intros -> ->.
  unfold Rules.all.
  repeat (apply Forall_cons;
          [destruct pa, ib; vm_compute; reflexivity|]).
  apply Forall_nil.
Qed.

End TextGroupFacts.

(** C10, as stated, fails: the remaining input begins with a star and an
    opening parenthesis and a further character follows, a line feed, yet
    the text rule does not match (and the scan stops there). *)
Lemma text_rejects_group_before_newline :
  Parser.input (Parser.init Options.default (js "*(" ++ [10%N]))
  = js "*(" ++ [10%N]
  /\ Rules.text (Parser.init Options.default (js "*(" ++ [10%N])) = NoMatch
  /\ tokenize Options.default (js "*(" ++ [10%N])
     = NoParser [] [] (Parser.init Options.default (js "*(" ++ [10%N])).
Proof. repeat split. Qed.

(** C10, amended: outside a bracket context, when the remaining input
    begins with a star and an opening parenthesis followed by a character
    that is not a line terminator, the text rule matches and yields a text
    node whose value is the star and the parenthesis; when the remaining
    input is the star and the parenthesis alone, the text rule does not
    match, and with the default pattern of the not rule no other rule of the
    set matches either. *)
Theorem text_takes_group_opener :
  (forall p c r,
      Parser.inside_bracket p = false ->
      Parser.input p = js "*(" ++ c :: r ->
      line_terminator c = false ->
      Rules.text p
      = Matched (Some (Node.plain t_text (js "*(")))
          (updatePosition (js "*(") p)
      /\ Parser.input (updatePosition (js "*(") p) = c :: r)
  /\ (forall p,
      Parser.input p = js "*(" ->
      Rules.text p = NoMatch
      /\ (Parser.notRegex p = None ->
          Forall (fun r => r p = NoMatch) Rules.all /\ next p = NoMatch)).
Proof.
  split.
  - intros p c r Hib Hin Hc. split.
    + unfold Rules.text, pmatch. rewrite Hib, Hin, (@text_re_open_group c r Hc).
      reflexivity.
    + cbn. now rewrite Hin.
  - intros p Hin. split.
    + unfold Rules.text, pmatch. rewrite Hin.
      now destruct (Parser.inside_bracket p).
    + intro Hnr. pose proof (@group_alone_unmatched p Hin Hnr) as H.
      split; [exact H|]. now apply first_match_NoMatch.
Qed.

Lemma text_takes_group_opener_witness :
  (Parser.inside_bracket (Parser.init Options.default (js "*(a)")) = false
   /\ Parser.input (Parser.init Options.default (js "*(a)"))
      = js "*(" ++ char_of "a" :: js ")"
   /\ line_terminator (char_of "a") = false
   /\ Rules.text (Parser.init Options.default (js "*(a)"))
      = Matched (Some (Node.plain t_text (js "*(")))
          (updatePosition (js "*(") (Parser.init Options.default (js "*(a)"))))
  /\ (Parser.input (Parser.init Options.default (js "*(")) = js "*("
      /\ Parser.notRegex (Parser.init Options.default (js "*(")) = None
      /\ Rules.text (Parser.init Options.default (js "*(")) = NoMatch
      /\ next (Parser.init Options.default (js "*(")) = NoMatch).
Proof.
  split.
  - repeat (split; [reflexivity|]).
    exact (proj1 (proj1 text_takes_group_opener
                    (Parser.init Options.default (js "*(a)"))
                    (char_of "a") (js ")") eq_refl eq_refl eq_refl)).
  - repeat (split; [reflexivity|]).
    exact (proj2 (proj2 (proj2 text_takes_group_opener
                           (Parser.init Options.default (js "*("))
                           eq_refl)
                        eq_refl)).
Defined.

(* ================================================================= *)
(** ** The matched text is a prefix of the input *)

Section Soundness.

(** Every match of a matcher that returns its text splits the input into
    that text and the input left over. *)
Definition sound (r : Re str) : Prop :=
  forall s x rest, In (x, rest) (r s) -> s = x ++ rest.

Lemma sound_ret : sound (ret []).
Proof. intros s x rest [[= <- <-]|[]]. reflexivity. Qed.

Lemma sound_chr (p : char -> bool) : sound (chr p).
Proof.
  intros [|c s] x rest; cbn; [tauto|].
  destruct (p c); cbn; [|tauto]. now intros [[= <- <-]|[]].
Qed.

Lemma sound_cat (a b : Re str) : sound a -> sound b -> sound (cat a b).
Proof.
  intros Ha Hb s x rest HI. unfold cat, bind in HI.
  apply in_flat_map in HI. destruct HI as [[xa s1] [H1 H2]]. cbn in H2.
  apply in_flat_map in H2. destruct H2 as [[xb s2] [H2 H3]]. cbn in H3.
  destruct H3 as [[= <- <-]|[]].
  apply Ha in H1. apply Hb in H2. subst. now rewrite app_assoc.
Qed.

Lemma sound_alt (a b : Re str) : sound a -> sound b -> sound (alt a b).
Proof.
  intros Ha Hb s x rest HI. unfold alt in HI.
  apply in_app_or in HI. destruct HI; eauto.
Qed.

Lemma sound_look {A} (r : Re A) : sound (look r).
Proof.
  intros s x rest. unfold look. destruct (r s); cbn; [tauto|].
  now intros [[= <- <-]|[]].
Qed.

Lemma sound_nlook {A} (r : Re A) : sound (nlook r).
Proof.
  intros s x rest. unfold nlook. destruct (r s); cbn; [|tauto].
  now intros [[= <- <-]|[]].
Qed.

Lemma sound_eos : sound eos.
Proof.
  intros [|c s] x rest; cbn; [|tauto]. now intros [[= <- <-]|[]].
Qed.

Lemma sound_plus_chr (p : char -> bool) : sound (plus (chr p)).
Proof.
  intros s x rest. rewrite plus_chr. revert x rest.
  induction s as [|c s IH]; intros x rest; cbn; [tauto|].
  destruct (p c); [|cbn; tauto].
  intro HI. apply in_app_or in HI. destruct HI as [HI|[[= <- <-]|[]]].
  - apply in_map_iff in HI. destruct HI as [[y r] [[= <- <-] HI]].
    cbn. f_equal. now apply IH.
  - reflexivity.
Qed.

Lemma sound_lit (w : str) : sound (lit w).
Proof.
  induction w as [|c w IH]; cbn [lit]; [apply sound_ret|].
  apply sound_cat; [apply sound_chr|exact IH].
Qed.

Lemma sound_opt (r : Re str) : sound r -> sound (opt r).
Proof. intro H. apply sound_alt; [exact H|apply sound_ret]. Qed.

Lemma sound_rep (n : nat) (r : Re str) : sound r -> sound (rep n r).
Proof.
  intro H. induction n as [|n IH]; cbn [rep]; [apply sound_ret|].
  now apply sound_cat.
Qed.

Lemma sound_star_chr (p : char -> bool) : sound (star (chr p)).
Proof. apply sound_alt; [apply sound_plus_chr|apply sound_ret]. Qed.

End Soundness.

(* ================================================================= *)
(** ** The bracket rule on an unterminated class *)

Section BracketUnterminated.

Lemma bracket_scan_to_end :
  forall s p inner,
    ~ In (char_of "]") s ->
    exists p',
      bracket_scan s p inner = Some (p', inner ++ s)
      /\ Parser.input p' = skipn (length s) (Parser.input p).
Proof.
  induction s as [|c s IH]; intros p inner Hno; cbn [bracket_scan].
  - exists p. now rewrite app_nil_r.
  - destruct (str_eqb [c] (js "]")) eqn:E.
    + apply str_eqb_eq in E. injection E as ->. elim Hno. now left.
    + destruct (IH (consume 1 p) (inner ++ [c])) as [p' [H1 H2]].
      { intro H. apply Hno. now right. }
      exists p'. rewrite H1, <- app_assoc. split; [reflexivity|].
      rewrite H2. cbn [consume Parser.set_input Parser.input].
      unfold slice_from. rewrite skipn_skipn.
      f_equal. cbn. lia.
Qed.

Lemma bracket_scan_throws :
  forall s p inner,
    In (char_of "]") s -> bracket_scan s p inner = None.
Proof.
  induction s as [|c s IH]; intros p inner Hin; cbn [bracket_scan];
    [destruct Hin|].
  destruct (str_eqb [c] (js "]")) eqn:E; [reflexivity|].
  destruct Hin as [Hc|Hin]; [|now apply IH].
  subst c. vm_compute in E. discriminate.
Qed.

(** In the class branch the text matched and the three groups together
    are a prefix of the input. *)
Lemma bracket_class_sound (s : str) m0 g1 g2 g3 rest :
  In ((m0, Some g1, Some g2, Some g3), rest) (bracket_class_re s) ->
  s = js "[" ++ g1 ++ g2 ++ g3 ++ rest.
Proof.
  unfold bracket_class_re, bind. intro HI.
  apply in_flat_map in HI. destruct HI as [[o s1] [H1 HI]]. cbn [fst snd] in HI.
  apply in_flat_map in HI. destruct HI as [[x1 s2] [H2 HI]]. cbn [fst snd] in HI.
  apply in_flat_map in HI. destruct HI as [[x2 s3] [H3 HI]]. cbn [fst snd] in HI.
  apply in_flat_map in HI. destruct HI as [[x3 s4] [H4 HI]]. cbn [fst snd] in HI.
  destruct HI as [[= <- <- <- <- <-]|[]].
  pose proof (@every_lit (js "[") _ _ _ H1) as Ho. cbn beta in Ho. subst o.
  apply sound_lit in H1.
  apply (sound_opt (sound_chr _)) in H2.
  apply (sound_alt (@sound_plus_chr _) (@sound_lit _)) in H3.
  apply (sound_alt (@sound_lit _) (@sound_plus_chr _)) in H4.
  subst. reflexivity.
Qed.

(** An opening bracket with no closing bracket after it: the rule
    returns a bracket node marked as escaped, and does not throw. *)
Lemma bracket_unterminated (p : Parser.t) (r : str) :
  Parser.input p = char_of "[" :: r ->
  ~ In (char_of "]") r ->
  exists n p',
    Rules.bracket p = Matched (Some n) p'
    /\ Node.type n = t_bracket
    /\ Node.escaped n = Some true.
Proof.
  intros Hin Hno. unfold Rules.bracket.
  destruct (pmatch bracket_re _ p) as [[m p1]|] eqn:E.
  - pose proof (bracket_edge_unreachable _ E) as Hd.
    destruct m as [[[m0 m1] m2] m3]. cbn [fst snd] in Hd.
    unfold Rules.bracket_body. rewrite Hd.
    apply pmatch_Some in E. destruct E as [E _].
    do 2 eexists. split; [reflexivity|]. split; [reflexivity|].
    cbn [Node.escaped]. f_equal.
    destruct (str_eqb (or_group m3 None) (js "]")) eqn:Ec; [|reflexivity].
    exfalso. apply str_eqb_eq in Ec.
    rewrite Hin in E. apply exec_alt_r in E.
    destruct E as [[rest HI]|[_ [rest HI]]].
    + pose proof (bracket_class_groups _ _ _ HI)
        as (m0' & g1 & g2 & g3 & [= -> -> -> ->] & H2 & H3).
      apply bracket_class_sound in HI. injection HI as HI.
      destruct g3 as [|c g3]; [now elim H3|]. cbn [or_group] in Ec.
      injection Ec as -> ->. apply Hno. rewrite HI.
      apply in_or_app. right. apply in_or_app. right. now left.
    + apply bracket_open_groups in HI. injection HI as _ _ _ ->.
      discriminate.
  - exfalso. unfold pmatch in E. rewrite Hin in E.
    unfold exec, bracket_re, alt in E.
    assert (H : bracket_open_re (char_of "[" :: r) <> [])
      by (unfold bracket_open_re; re_unfold; discriminate).
    destruct (bracket_class_re (char_of "[" :: r) ++ _) eqn:El;
      [|discriminate].
    apply app_eq_nil in El. now destruct El.
Qed.

End BracketUnterminated.

(** The branch of the bracket rule that scans on after an escaped closing
    bracket, evaluated on the state it tests for (an opening bracket
    matched with an empty body, and a backslash, a closing bracket and two
    more characters left as input): when the scan reaches the closing
    bracket it assigns to [close], which is a constant, and throws.  The
    pattern of the rule never leaves the parser in that state
    ([bracket_edge_unreachable]). *)
Lemma bracket_close_assignment_throws :
  Rules.bracket_body (js "[", None, None, None)
    (Parser.init Options.default (js "\]a]"))
  = Thrown.
Proof. reflexivity. Qed.

(* ================================================================= *)
(** ** The text pattern *)

Section TextFacts.

(** A character of plain text: not claimed by another rule, and not a
    line terminator. *)
Definition text_char (c : char) : bool :=
  negb (mem c NOT_CHARS) && negb (line_terminator c).

(** The first branch of the text pattern: a star, an opening parenthesis
    and one more character on the line. *)
Definition group_here (s : str) : bool :=
  match s with
  | a :: b :: c :: _ =>
      char_eqb a (char_of "*") && char_eqb b (char_of "(")
      && negb (line_terminator c)
  | _ => false
  end.

Lemma plus_fuel_ext (r r' : Re str) :
  (forall s, r s = r' s) ->
  forall fuel s, plus_fuel fuel r s = plus_fuel fuel r' s.
Proof.
  intro H. induction fuel as [|fuel IH]; intro s; cbn [plus_fuel];
    [reflexivity|].
  rewrite H. apply flat_map_ext. intros [x s1]. cbn [fst snd].
  now rewrite IH.
Qed.

Lemma nlook_plus_chr (p : char -> bool) (s : str) :
  nlook (plus (chr p)) s
  = if match s with c :: _ => p c | [] => false end
    then [] else [([], s)].
Proof.
  unfold nlook. rewrite plus_chr.
  destruct s as [|c s]; cbn [plus_spec]; [reflexivity|].
  destruct (p c); [|reflexivity].
  destruct (map _ _ ++ _) eqn:E; [|reflexivity].
  now apply app_eq_nil in E.
Qed.

Lemma text_item (s : str) :
  (nlook NOT_REGEX +++ any) s = chr text_char s.
Proof.
  unfold cat, bind, NOT_REGEX, cls. rewrite nlook_plus_chr.
  unfold any, chr, text_char.
  destruct s as [|c s]; [reflexivity|].
  destruct (mem c NOT_CHARS); [reflexivity|].
  cbn [flat_map fst snd app negb andb].
  now destruct (negb (line_terminator c)).
Qed.

Lemma regexNot_create_spec (s : str) :
  regexNot_create NOT_REGEX s = plus_spec text_char s.
Proof.
  unfold regexNot_create, plus.
  rewrite (plus_fuel_ext _ _ text_item). apply plus_fuel_chr. lia.
Qed.

Lemma text_group_branch (s : str) :
  (cls (js "*") +++ lit (js "(") +++ look any) s
  = if group_here s then [(js "*(", skipn 2 s)] else [].
Proof.
  unfold group_here.
  destruct s as [|a [|b [|c r]]]; char_cases; reflexivity.
Qed.

(** The match of the text pattern: an opening group, or else the longest
    run of plain text characters. *)
Lemma text_re_spec (s : str) :
  exec text_re s
  = if group_here s then Some (js "*(")
    else match fst (span text_char s) with
         | [] => None
         | run => Some run
         end.
Proof.
  unfold exec, text_re, createTextRegex, alt.
  rewrite text_group_branch, regexNot_create_spec.
  destruct (group_here s); [reflexivity|]. cbn [app].
  apply plus_spec_head.
Qed.

(** Where the text rule matches. *)
Definition text_here (s : str) : bool :=
  group_here s || match s with c :: _ => text_char c | [] => false end.

Lemma text_rule_spec (p : Parser.t) :
  Parser.inside_bracket p = false ->
  (exists tok p', Rules.text p = Matched tok p')
  <-> text_here (Parser.input p) = true.
Proof.
  intro Hib. unfold Rules.text, pmatch, text_here.
  rewrite Hib, text_re_spec.
  destruct (group_here (Parser.input p)); cbn [orb].
  - split; [reflexivity|]. intros _. cbn. eauto.
  - destruct (Parser.input p) as [|c r]; cbn [span fst].
    + split; [intros (tok & p' & H); discriminate|discriminate].
    + destruct (text_char c); cbn [fst nonempty].
      * split; [reflexivity|eauto].
      * split; [intros (tok & p' & H); discriminate|discriminate].
Qed.

End TextFacts.

(* ================================================================= *)
(** ** Where each pattern matches *)

Section Firing.

(** Whether a pattern matches at the head of a string. *)
Definition fires {A} (r : Re A) (s : str) : bool :=
  match r s with
  | [] => false
  | _ :: _ => true
  end.

Lemma fires_exec {A} (r : Re A) (s : str) :
  fires r s = match exec r s with Some _ => true | None => false end.
Proof. unfold fires, exec. now destruct (r s). Qed.

Lemma fires_alt {A} (a b : Re A) (s : str) :
  fires (a <|> b) s = fires a s || fires b s.
Proof.
  unfold fires, alt. destruct (a s); [|reflexivity]. reflexivity.
Qed.

Lemma fires_plus_chr (p : char -> bool) (s : str) :
  fires (plus (chr p)) s = match s with c :: _ => p c | [] => false end.
Proof.
  unfold fires. rewrite plus_chr. destruct s as [|c s]; [reflexivity|].
  cbn [plus_spec]. destruct (p c); [|reflexivity].
  destruct (map _ _ ++ _) eqn:E; [|reflexivity].
  now apply app_eq_nil in E.
Qed.

Definition head_in (w : str) (s : str) : bool :=
  match s with
  | c :: _ => mem c w
  | [] => false
  end.

Definition prefix_here (s : str) : bool :=
  match s with
  | a :: b :: _ => char_eqb a (char_of ".") && mem b (js "\/")
  | _ => false
  end.

Lemma prefix_re_fires (s : str) : fires prefix_re s = prefix_here s.
Proof.
  unfold fires, prefix_re, prefix_here.
  destruct s as [|a [|b r]]; char_cases; reflexivity.
Qed.

Definition escape_here (s : str) : bool :=
  match s with
  | a :: r =>
      (char_eqb a bslash
       && match r with b :: _ => negb (line_terminator b) | [] => false end)
      || mem a (js "$^")
  | [] => false
  end.

Lemma escape_re_fires (s : str) : fires escape_re s = escape_here s.
Proof.
  unfold fires, escape_re, escape_here.
  destruct s as [|a [|b r]]; char_cases; reflexivity.
Qed.

Lemma quote_re_fires (s : str) :
  fires quote_re s = head_in [dquote; squote] s.
Proof.
  unfold fires, quote_re, head_in.
  destruct s as [|a r]; char_cases; reflexivity.
Qed.

Lemma not_re_fires (s : str) : fires not_re s = head_in (js "!") s.
Proof.
  unfold not_re, lit1. rewrite fires_plus_chr. unfold head_in.
  destruct s as [|a r]; [reflexivity|]. cbn. now rewrite orb_false_r.
Qed.

Lemma dot_re_fires (s : str) : fires dot_re s = head_in (js ".") s.
Proof.
  unfold dot_re, lit1. rewrite fires_plus_chr. unfold head_in.
  destruct s as [|a r]; [reflexivity|]. cbn. now rewrite orb_false_r.
Qed.

(** A sign that is not followed by an opening parenthesis. *)
Definition sign_here (sign : char) (s : str) : bool :=
  match s with
  | a :: r => char_eqb a sign && negb (head_in (js "(") r)
  | [] => false
  end.

Lemma plus_re_fires (s : str) : fires plus_re s = sign_here (char_of "+") s.
Proof.
  unfold fires, plus_re, sign_here, head_in.
  destruct s as [|a [|b r]]; char_cases; reflexivity.
Qed.

Lemma fires_flat_map_last {A B} (f : A -> list B) (l : list A) (x : A) :
  f x <> [] -> flat_map f (l ++ [x]) <> [].
Proof.
  intros Hx E. rewrite flat_map_app in E. apply app_eq_nil in E.
  destruct E as [_ E]. cbn in E. rewrite app_nil_r in E. contradiction.
Qed.

Lemma qmark_re_fires (s : str) :
  fires qmark_re s = sign_here (char_of "?") s.
Proof.
  unfold fires, qmark_re, sign_here, head_in, lit1, cat.
  unfold bind at 1. rewrite plus_chr.
  destruct s as [|a r]; [reflexivity|]. cbn [plus_spec].
  destruct (char_eqb a (char_of "?")) eqn:Ea; [|reflexivity].
  cbn [andb].
  destruct r as [|b r'].
  - cbn. reflexivity.
  - destruct (mem b (js "(")) eqn:Eb; cbn [negb].
    + cbn in Eb. rewrite orb_false_r in Eb. apply char_eqb_eq in Eb.
      subst b. cbn. reflexivity.
    + match goal with
      | |- match ?l with [] => false | _ :: _ => true end = true =>
          destruct l eqn:El; [|reflexivity]
      end.
      exfalso. revert El. apply fires_flat_map_last.
      cbn in Eb. rewrite orb_false_r in Eb.
      re_unfold. rewrite Eb. discriminate.
Qed.

Lemma globstar_re_fires (s : str) : fires globstar_re s = globstar_here s.
Proof.
  rewrite fires_exec, globstar_re_spec. now destruct (globstar_here s).
Qed.

Definition star_here (s : str) : bool :=
  match s with
  | a :: r =>
      char_eqb a (char_of "*")
      && match r with
         | [] => true
         | b :: r2 =>
             if char_eqb b (char_of "(") then false
             else if char_eqb b (char_of "*")
                  then match r2 with
                       | [] => false
                       | c :: _ => negb (char_eqb c (char_of "/"))
                       end
                  else true
         end
  | [] => false
  end.

Lemma star_re_fires (s : str) : fires star_re s = star_here s.
Proof.
  unfold star_re, star_here. rewrite !fires_alt.
  destruct s as [|a [|b [|c r]]]; unfold fires;
    char_cases;
    try reflexivity;
    repeat match goal with
           | |- context [match ?l with [] => false | _ :: _ => true end] =>
               destruct l
           end;
    reflexivity.
Qed.

Lemma slash_re_fires (s : str) : fires slash_re s = head_in (js "/") s.
Proof.
  unfold fires, slash_re, head_in.
  destruct s as [|a r]; char_cases; reflexivity.
Qed.

Lemma backslash_re_fires (s : str) : fires backslash_re s = backslash_here s.
Proof.
  rewrite fires_exec, backslash_re_spec. now destruct (backslash_here s).
Qed.

Definition square_here (s : str) : bool :=
  match s with
  | a :: b :: c :: _ =>
      char_eqb a (char_of "[") && negb (mem b (js "!^\"))
      && char_eqb c (char_of "]")
  | _ => false
  end.

Lemma square_re_fires (s : str) : fires square_re s = square_here s.
Proof.
  unfold fires, square_re, square_here.
  destruct s as [|a [|b [|c r]]]; char_cases; reflexivity.
Qed.

Lemma bracket_re_fires (s : str) : fires bracket_re s = head_in (js "[") s.
Proof.
  unfold bracket_re. rewrite fires_alt.
  assert (H : fires bracket_open_re s = head_in (js "[") s).
  { unfold fires, bracket_open_re, head_in.
    destruct s as [|a r]; char_cases; reflexivity. }
  rewrite H. destruct (head_in (js "[") s) eqn:E; [apply orb_true_r|].
  rewrite orb_false_r. unfold fires, bracket_class_re, bind.
  destruct s as [|a r]; [reflexivity|].
  cbn in E. rewrite orb_false_r in E. re_unfold. now rewrite E.
Qed.

Lemma text_re_fires (s : str) : fires text_re s = text_here s.
Proof.
  rewrite fires_exec, text_re_spec. unfold text_here.
  destruct (group_here s); [reflexivity|]. cbn [orb].
  destruct s as [|c r]; [reflexivity|]. cbn [span].
  now destruct (text_char c).
Qed.

End Firing.

(* ================================================================= *)
(** ** Where the scan stops *)

Section Stuck.

(** Whether a call of a rule matched (or threw). *)
Definition matches (o : Outcome) : bool :=
  match o with
  | NoMatch => false
  | _ => true
  end.

Lemma matches_first_match (rules : list (Parser.t -> Outcome)) p :
  matches (first_match rules p) = existsb (fun r => matches (r p)) rules.
Proof.
  induction rules as [|r rules IH]; cbn [first_match existsb];
    [reflexivity|].
  destruct (r p); cbn [matches orb]; auto.
Qed.

Ltac rule_fires lem :=
  intros; unfold pmatch; rewrite <- lem, fires_exec;
  repeat match goal with
         | H : _ = _ |- _ => rewrite H
         end;
  repeat match goal with
         | |- context [exec ?r ?s] => destruct (exec r s) as [?m|]
         | |- context [nonempty ?s] => destruct (nonempty s)
         end;
  reflexivity.

Lemma matches_prefix p :
  matches (Rules.prefix p)
  = negb (nonempty (Parser.parsed p)) && prefix_here (Parser.input p).
Proof. unfold Rules.prefix. rule_fires prefix_re_fires. Qed.

Lemma matches_escape p :
  Parser.inside_bracket p = false ->
  matches (Rules.escape p) = escape_here (Parser.input p).
Proof.
  unfold Rules.escape. intros H. unfold pmatch.
  rewrite <- escape_re_fires, fires_exec, H.
  destruct (exec escape_re (Parser.input p)) as [[[m0 m1] m2]|];
    reflexivity.
Qed.

Lemma matches_quoted p :
  matches (Rules.quoted p) = head_in [dquote; squote] (Parser.input p).
Proof.
  unfold Rules.quoted, Rules.quoted_body, pmatch.
  rewrite <- quote_re_fires, fires_exec.
  destruct (exec quote_re (Parser.input p)); [|reflexivity].
  now destruct (negb _).
Qed.

Lemma matches_not p :
  Parser.notRegex p = None ->
  matches (Rules.not p) = head_in (js "!") (Parser.input p).
Proof.
  unfold Rules.not, Rules.not_body, pmatch. intros ->.
  rewrite <- not_re_fires, fires_exec.
  destruct (exec not_re (Parser.input p)); [|reflexivity].
  now destruct (_ && _).
Qed.

Lemma matches_dot p :
  matches (Rules.dot p) = head_in (js ".") (Parser.input p).
Proof. unfold Rules.dot. rule_fires dot_re_fires. Qed.

Lemma matches_plus p :
  matches (Rules.plus p) = sign_here (char_of "+") (Parser.input p).
Proof. unfold Rules.plus, Rules.capture. rule_fires plus_re_fires. Qed.

Lemma matches_qmark p :
  matches (Rules.qmark p) = sign_here (char_of "?") (Parser.input p).
Proof. unfold Rules.qmark. rule_fires qmark_re_fires. Qed.

Lemma matches_globstar p :
  matches (Rules.globstar p) = globstar_here (Parser.input p).
Proof.
  unfold Rules.globstar, pmatch. rewrite <- globstar_re_fires, fires_exec.
  destruct (exec globstar_re (Parser.input p)); [|reflexivity].
  now destruct (negb _).
Qed.

Lemma matches_star p :
  matches (Rules.star p) = star_here (Parser.input p).
Proof. unfold Rules.star. rule_fires star_re_fires. Qed.

Lemma matches_slash p :
  matches (Rules.slash p) = head_in (js "/") (Parser.input p).
Proof. unfold Rules.slash. rule_fires slash_re_fires. Qed.

Lemma matches_backslash p :
  matches (Rules.backslash p) = backslash_here (Parser.input p).
Proof.
  unfold Rules.backslash, Rules.backslash_body.
  rule_fires backslash_re_fires.
Qed.

Lemma matches_square p :
  Parser.inside_bracket p = false ->
  matches (Rules.square p) = square_here (Parser.input p).
Proof.
  unfold Rules.square. intros H. unfold pmatch.
  rewrite <- square_re_fires, fires_exec, H.
  destruct (exec square_re (Parser.input p)) as [[m0 m1]|]; reflexivity.
Qed.

Lemma matches_bracket p :
  matches (Rules.bracket p) = head_in (js "[") (Parser.input p).
Proof.
  unfold Rules.bracket, Rules.bracket_body, pmatch.
  rewrite <- bracket_re_fires, fires_exec.
  destruct (exec bracket_re (Parser.input p)) as [[[[m0 m1] m2] m3]|];
    [|reflexivity].
  cbn [fst]. destruct (_ && _); [|reflexivity].
  now destruct (bracket_scan _ _ _) as [[? ?]|].
Qed.

Lemma matches_text p :
  Parser.inside_bracket p = false ->
  matches (Rules.text p) = text_here (Parser.input p).
Proof.
  intro H. destruct (text_here (Parser.input p)) eqn:E.
  - apply (text_rule_spec _ H) in E. destruct E as (tok & p' & ->).
    reflexivity.
  - destruct (Rules.text p) eqn:Er; [reflexivity| |].
    + assert (Ht : text_here (Parser.input p) = true)
        by (apply (text_rule_spec _ H); eauto).
      congruence.
    + unfold Rules.text in Er. rewrite H in Er.
      destruct (pmatch _ _ p) as [[m p1]|]; [|discriminate].
      destruct (nonempty m); discriminate.
Qed.

(** The positions where no rule matches although input remains: a line
    terminator; a plus sign or a question mark before an opening
    parenthesis; a star before an opening parenthesis that is the last
    character or is followed by a line terminator. *)
Definition stuck_at (s : str) : bool :=
  match s with
  | c :: r =>
      line_terminator c
      || ((char_eqb c (char_of "+") || char_eqb c (char_of "?"))
          && head_in (js "(") r)
      || (char_eqb c (char_of "*") && head_in (js "(") r
          && negb (group_here s))
  | [] => false
  end.

(** Some rule of the set matches, read off the input. *)
Definition some_rule_here (parsed s : str) : bool :=
  (negb (nonempty parsed) && prefix_here s)
  || escape_here s
  || head_in [dquote; squote] s
  || head_in (js "!") s
  || head_in (js ".") s
  || sign_here (char_of "+") s
  || sign_here (char_of "?") s
  || globstar_here s
  || star_here s
  || head_in (js "/") s
  || backslash_here s
  || square_here s
  || head_in (js "[") s
  || text_here s.

Lemma matches_next p :
  Parser.inside_bracket p = false ->
  Parser.notRegex p = None ->
  matches (next p) = some_rule_here (Parser.parsed p) (Parser.input p).
Proof.
  intros Hib Hnr. unfold next. rewrite matches_first_match.
  unfold Rules.all. cbn [existsb].
  rewrite matches_prefix, (matches_escape _ Hib), matches_quoted,
    (matches_not _ Hnr), matches_dot, matches_plus, matches_qmark,
    matches_globstar, matches_star, matches_slash, matches_backslash,
    (matches_square _ Hib), matches_bracket, (matches_text _ Hib).
  unfold some_rule_here. rewrite orb_false_r.
  repeat rewrite <- orb_assoc. reflexivity.
Qed.

End Stuck.

Section StuckBool.

Ltac cases_on c :=
  cbn;
  repeat match goal with
         | |- context [char_eqb c ?k] =>
             let E := fresh "E" in
             destruct (char_eqb c k) eqn:E;
             [apply char_eqb_eq in E; subst c|]
         end;
  cbn.

Lemma some_rule_here_stuck (parsed : str) (c : char) (r : str) :
  some_rule_here parsed (c :: r) = negb (stuck_at (c :: r)).
Proof.
  unfold some_rule_here, stuck_at, prefix_here, escape_here, head_in,
    sign_here, globstar_here, star_here, backslash_here, square_here,
    text_here, group_here, text_char, structural, line_terminator,
    NOT_CHARS, dquote, squote, bslash.
  cases_on c; try reflexivity;
    (destruct r as [|b r]; [destruct (nonempty parsed); reflexivity|]);
    cases_on b; try reflexivity;
    try (destruct (nonempty parsed); reflexivity);
    (destruct r as [|d r]; [destruct (nonempty parsed); reflexivity|]);
    cases_on d; try reflexivity;
    destruct (nonempty parsed); reflexivity.
Qed.

End StuckBool.

(* ================================================================= *)
(** ** The result of a scan *)

Section ScanResult.

Lemma matches_next_stuck p :
  Parser.inside_bracket p = false ->
  Parser.notRegex p = None ->
  matches (next p)
  = nonempty (Parser.input p) && negb (stuck_at (Parser.input p)).
Proof.
  intros Hib Hnr. rewrite (matches_next _ Hib Hnr).
  destruct (Parser.input p) as [|c r].
  - unfold some_rule_here. cbn.
    destruct (nonempty (Parser.parsed p)); reflexivity.
  - apply some_rule_here_stuck.
Qed.

(** No rule other than the bracket rule has a statement that throws, and
    the bracket rule never reaches its own. *)
Definition never_throws (r : Parser.t -> Outcome) : Prop :=
  forall p, r p <> Thrown.

Ltac no_throw :=
  intro p;
  repeat match goal with
         | |- context [if ?b then _ else _] => destruct b
         | |- context [match pmatch ?r ?m0 ?p with _ => _ end] =>
             destruct (pmatch r m0 p) as [[? ?]|]
         | |- context [let '(_, _) := ?x in _] => destruct x
         end;
  discriminate.

Lemma never_throws_all : Forall never_throws Rules.all.
Proof.
  unfold Rules.all.
  apply Forall_cons; [unfold Rules.prefix; no_throw|].
  apply Forall_cons; [unfold Rules.escape; no_throw|].
  apply Forall_cons;
    [unfold Rules.quoted, Rules.quoted_body; no_throw|].
  apply Forall_cons; [unfold Rules.not, Rules.not_body; no_throw|].
  apply Forall_cons; [unfold Rules.dot; no_throw|].
  apply Forall_cons; [unfold Rules.plus, Rules.capture; no_throw|].
  apply Forall_cons; [unfold Rules.qmark; no_throw|].
  apply Forall_cons; [unfold Rules.globstar; no_throw|].
  apply Forall_cons; [unfold Rules.star; no_throw|].
  apply Forall_cons; [unfold Rules.slash; no_throw|].
  apply Forall_cons;
    [unfold Rules.backslash, Rules.backslash_body; no_throw|].
  apply Forall_cons; [unfold Rules.square; no_throw|].
  apply Forall_cons; [exact bracket_never_throws|].
  apply Forall_cons; [unfold Rules.text; no_throw|].
  apply Forall_nil.
Qed.

Lemma next_never_throws : never_throws next.
Proof.
  intros p H. unfold next in H.
  destruct (first_match_In Rules.all p) as [E|[r [Hin Hr]]];
    [congruence|].
  rewrite H in Hr.
  exact (proj1 (Forall_forall _ _) never_throws_all r Hin p Hr).
Qed.

(** A scan of a parser with the default not pattern and outside a
    bracket context ends in one of two ways: the input is exhausted, or
    the cursor is on one of the positions no rule matches.  Either way
    the lengths consumed and the input left add up. *)
Lemma scan_result :
  forall fuel p nodes consumed,
    Parser.inside_bracket p = false ->
    Parser.notRegex p = None ->
    length (Parser.input p) <= fuel ->
    exists nodes' consumed' p',
      (scan fuel p nodes consumed = Done nodes' consumed' p'
       /\ Parser.input p' = []
       \/ scan fuel p nodes consumed = NoParser nodes' consumed' p'
          /\ stuck_at (Parser.input p') = true)
      /\ list_sum consumed' + length (Parser.input p')
         = list_sum consumed + length (Parser.input p).
Proof.
  induction fuel as [|fuel IH]; intros p nodes consumed Hib Hnr Hlen.
  - cbn [scan]. destruct (Parser.input p) eqn:Ein; [|cbn in Hlen; lia].
    exists nodes, consumed, p. rewrite Ein. auto.
  - cbn [scan]. destruct (Parser.input p) as [|c s] eqn:Ein.
    + exists nodes, consumed, p. rewrite Ein. auto.
    + pose proof (matches_next_stuck p Hib Hnr) as Hm.
      rewrite Ein in Hm. cbn [nonempty andb] in Hm.
      destruct (next p) as [|tok p1|] eqn:En.
      * exists nodes, consumed, p. rewrite Ein. split; [right|reflexivity].
        split; [reflexivity|]. cbn [matches] in Hm.
        destruct (stuck_at (c :: s)); [reflexivity|discriminate].
      * assert (Hlt : length (Parser.input p1) < length (c :: s)).
        { rewrite <- Ein. eapply progress_next; eauto. congruence. }
        destruct (frame_next _ En) as [(_ & Hn1 & Hb1 & _) _].
        rewrite (proj2 (Nat.ltb_lt _ _) Hlt).
        destruct (IH p1 (push tok nodes)
                     (consumed ++ [length (c :: s) - length (Parser.input p1)]))
          as (n' & c' & p' & Hres & Hsum);
          [congruence|congruence|simpl in *; lia|].
        exists n', c', p'. split; [exact Hres|].
        rewrite Hsum, list_sum_app. unfold list_sum at 2.
        cbn [fold_right]. lia.
      * now apply next_never_throws in En.
Qed.

End ScanResult.

(** The rules in front of the text rule. *)
Definition structural_rules : list (Parser.t -> Outcome) :=
  [Rules.prefix; Rules.escape; Rules.quoted; Rules.not; Rules.dot;
   Rules.plus; Rules.qmark; Rules.globstar; Rules.star; Rules.slash;
   Rules.backslash; Rules.square; Rules.bracket].

Lemma rules_all_structural : Rules.all = structural_rules ++ [Rules.text].
Proof. reflexivity. Qed.

Lemma first_match_app_NoMatch (l1 l2 : list (Parser.t -> Outcome)) p :
  Forall (fun r => r p = NoMatch) l1 ->
  first_match (l1 ++ l2) p = first_match l2 p.
Proof.
  induction 1 as [|r l1 Hr _ IH]; cbn [app first_match]; [reflexivity|].
  now rewrite Hr.
Qed.

(** C1, as stated, fails: the pattern of a star and an opening parenthesis
    is not empty, yet the scan stops on its first character with nothing
    consumed: no structural rule matches there, input remains, and the
    text rule does not match either. *)
Lemma progress_fails_on_open_group :
  js "*(" <> []
  /\ tokenize Options.default (js "*(")
     = NoParser [] [] (Parser.init Options.default (js "*("))
  /\ Forall (fun r => r (Parser.init Options.default (js "*(")) = NoMatch)
            structural_rules
  /\ Rules.text (Parser.init Options.default (js "*(")) = NoMatch.
Proof.
  split; [discriminate|]. split; [reflexivity|]. split; [|reflexivity].
  unfold structural_rules.
  repeat (apply Forall_cons; [reflexivity|]). apply Forall_nil.
Qed.

(** C1, amended: for every pattern and every configuration the scan
    terminates, either with the input exhausted or on a position no rule
    matches (a line terminator, a plus sign or a question mark before an
    opening parenthesis, a star before an opening parenthesis that ends the
    input or is followed by a line terminator); in both cases the lengths
    consumed by the steps and the length of the input left add up to the
    length of the pattern, so a scan that exhausts the input has consumed
    all of it.  At every other position outside a bracket context where
    input remains and all structural rules fail, the text rule matches and
    consumes at least one character. *)
Theorem tokenize_progress :
  (forall o s,
      exists nodes consumed p,
        (tokenize o s = Done nodes consumed p /\ Parser.input p = []
         \/ tokenize o s = NoParser nodes consumed p
            /\ stuck_at (Parser.input p) = true)
        /\ list_sum consumed + length (Parser.input p) = length s)
  /\ (forall p,
      Parser.inside_bracket p = false ->
      Parser.notRegex p = None ->
      Parser.input p <> [] ->
      stuck_at (Parser.input p) = false ->
      Forall (fun r => r p = NoMatch) structural_rules ->
      exists n p',
        Rules.text p = Matched (Some n) p'
        /\ length (Parser.input p') < length (Parser.input p)).
Proof.
  split.
  - intros o s. unfold tokenize.
    destruct (@scan_result (length s) (Parser.init o s) [] [])
      as (nodes & consumed & p & H & Hsum); try reflexivity.
    exists nodes, consumed, p. split; [exact H|exact Hsum].
  - intros p Hib Hnr Hin Hst Hall.
    pose proof (matches_next_stuck p Hib Hnr) as Hm.
    rewrite Hst in Hm.
    destruct (Parser.input p) as [|c r] eqn:Ein; [now elim Hin|].
    cbn [nonempty negb andb] in Hm. unfold next in Hm.
    rewrite rules_all_structural, (first_match_app_NoMatch _ Hall) in Hm.
    cbn [first_match] in Hm.
    destruct (Rules.text p) as [|tok p'|] eqn:Et; try discriminate.
    + assert (Hlt : length (Parser.input p') < length (Parser.input p)).
      { eapply progress_text; eauto. congruence. }
      unfold Rules.text in Et. rewrite Hib in Et.
      destruct (pmatch _ _ p) as [[m p1]|]; [|discriminate].
      destruct (nonempty m); [|discriminate].
      injection Et as <- <-. rewrite <- Ein. eauto.
    + exfalso. revert Et. unfold Rules.text. rewrite Hib.
      destruct (pmatch _ _ p) as [[m p1]|]; [|discriminate].
      destruct (nonempty m); discriminate.
Qed.

Lemma tokenize_progress_witness :
  Parser.inside_bracket (Parser.init Options.default (js "ab/c")) = false
  /\ Parser.notRegex (Parser.init Options.default (js "ab/c")) = None
  /\ Parser.input (Parser.init Options.default (js "ab/c")) <> []
  /\ stuck_at (Parser.input (Parser.init Options.default (js "ab/c"))) = false
  /\ Forall (fun r => r (Parser.init Options.default (js "ab/c")) = NoMatch)
            structural_rules
  /\ exists n p',
      Rules.text (Parser.init Options.default (js "ab/c"))
      = Matched (Some n) p'
      /\ length (Parser.input p')
         < length (Parser.input (Parser.init Options.default (js "ab/c"))).
Proof.
  assert (Hin : Parser.input (Parser.init Options.default (js "ab/c")) <> [])
    by discriminate.
  assert (Hall : Forall (fun r => r (Parser.init Options.default (js "ab/c"))
                                  = NoMatch) structural_rules).
  { unfold structural_rules.
    repeat (apply Forall_cons; [reflexivity|]). apply Forall_nil. }
  split; [reflexivity|]. split; [reflexivity|]. split; [exact Hin|].
  split; [reflexivity|]. split; [exact Hall|].
  exact (proj2 tokenize_progress (Parser.init Options.default (js "ab/c"))
           eq_refl eq_refl Hin eq_refl Hall).
Defined.

(* ================================================================= *)
(** ** The cursor only moves to the right *)

Section Suffixes.

(** The input of [p'] is what is left of the input of [p] after dropping
    some characters. *)
Definition suffix_of (p p' : Parser.t) : Prop :=
  exists k, Parser.input p' = skipn k (Parser.input p).

Lemma suffix_of_refl p : suffix_of p p.
Proof. now exists 0. Qed.

Lemma suffix_of_trans p1 p2 p3 :
  suffix_of p1 p2 -> suffix_of p2 p3 -> suffix_of p1 p3.
Proof.
  intros [k1 H1] [k2 H2]. exists (k1 + k2).
  now rewrite H2, H1, skipn_skipn, Nat.add_comm.
Qed.

Lemma suffix_of_input p p' s :
  Parser.input p' = s -> suffix_of (Parser.set_input s p) p' .
Proof. intros <-. now exists 0. Qed.

Lemma updatePosition_suffix (m0 : str) p : suffix_of p (updatePosition m0 p).
Proof. now exists (length m0). Qed.

Lemma consume_suffix (n : nat) p : suffix_of p (consume n p).
Proof. now exists n. Qed.

Lemma fold_globstars_suffix :
  forall fuel s, exists k, fold_globstars fuel s = skipn k s.
Proof.
  induction fuel as [|fuel IH]; intro s; cbn [fold_globstars];
    [now exists 0|].
  destruct (str_eqb _ _); [|now exists 0].
  destruct (IH (slice_from 3 s)) as [k Hk]. exists (k + 3).
  rewrite Hk. unfold slice_from. now rewrite skipn_skipn.
Qed.

Lemma bracket_scan_suffix :
  forall s p inner p' inner',
    bracket_scan s p inner = Some (p', inner') -> suffix_of p p'.
Proof.
  induction s as [|c s IH]; intros p inner p' inner'; cbn [bracket_scan].
  - intros [= <- <-]. apply suffix_of_refl.
  - destruct (str_eqb _ _); [discriminate|].
    intro H. apply IH in H.
    eapply suffix_of_trans; [apply consume_suffix|exact H].
Qed.

Definition rightwards (r : Parser.t -> Outcome) : Prop :=
  forall p tok p', r p = Matched tok p' -> suffix_of p p'.

Ltac open_rule :=
  intros p tok p';
  repeat match goal with
         | |- context [if ?b then NoMatch else _] => destruct b
         end;
  try discriminate;
  match goal with
  | |- context [pmatch ?r ?m0 ?p] =>
      let H := fresh "H" in
      destruct (pmatch r m0 p) as [[? ?]|] eqn:H; [|discriminate];
      apply pmatch_Some in H; destruct H as [_ H]; subst
  end.

Ltac close_rule :=
  intros [= <- <-]; solve [apply updatePosition_suffix].

Lemma rightwards_all : Forall rightwards Rules.all.
Proof.
  unfold Rules.all.
  apply Forall_cons; [unfold rightwards, Rules.prefix; open_rule; close_rule|].
  apply Forall_cons.
  { unfold rightwards, Rules.escape. open_rule.
    destruct p0 as [[m0 m1] m2]. close_rule. }
  apply Forall_cons.
  { unfold rightwards, Rules.quoted, Rules.quoted_body. open_rule.
    destruct (negb _); intros [= <- <-]; [apply updatePosition_suffix|].
    eapply suffix_of_trans; [apply updatePosition_suffix|apply consume_suffix]. }
  apply Forall_cons.
  { unfold rightwards, Rules.not, Rules.not_body. open_rule.
    destruct (_ && _); close_rule. }
  apply Forall_cons; [unfold rightwards, Rules.dot; open_rule; close_rule|].
  apply Forall_cons;
    [unfold rightwards, Rules.plus, Rules.capture; open_rule; close_rule|].
  apply Forall_cons; [unfold rightwards, Rules.qmark; open_rule; close_rule|].
  apply Forall_cons.
  { unfold rightwards, Rules.globstar. open_rule.
    destruct (fold_globstars_suffix
                (length (Parser.input (updatePosition s p)))
                (Parser.input (updatePosition s p))) as [k Hk].
    destruct (negb _); intros [= <- <-];
      (eapply suffix_of_trans; [apply updatePosition_suffix|]);
      exists k; exact Hk. }
  apply Forall_cons; [unfold rightwards, Rules.star; open_rule; close_rule|].
  apply Forall_cons; [unfold rightwards, Rules.slash; open_rule; close_rule|].
  apply Forall_cons.
  { unfold rightwards, Rules.backslash, Rules.backslash_body.
    open_rule. close_rule. }
  apply Forall_cons.
  { unfold rightwards, Rules.square. open_rule.
    destruct p0 as [m0 m1]. close_rule. }
  apply Forall_cons.
  { unfold rightwards, Rules.bracket, Rules.bracket_body. open_rule.
    destruct p0 as [[[m0 m1] m2] m3]. cbn [fst].
    destruct (_ && _); [|close_rule].
    destruct (bracket_scan _ _ _) as [[p3 inner']|] eqn:Es; [|discriminate].
    intros [= <- <-]. apply bracket_scan_suffix in Es.
    eapply suffix_of_trans; [apply updatePosition_suffix|].
    eapply suffix_of_trans; [apply consume_suffix|exact Es]. }
  apply Forall_cons.
  { unfold rightwards, Rules.text. open_rule.
    destruct (nonempty s); [|discriminate]. close_rule. }
  apply Forall_nil.
Qed.

Lemma rightwards_next : rightwards next.
Proof.
  intros p tok p' H. unfold next in H.
  destruct (first_match_In Rules.all p) as [E|[r [Hin Hr]]];
    [congruence|].
  rewrite H in Hr.
  exact (proj1 (Forall_forall _ _) rightwards_all r Hin p tok p' Hr).
Qed.

Lemma scan_suffix :
  forall fuel p nodes consumed p',
    final (scan fuel p nodes consumed) = Some p' -> suffix_of p p'.
Proof.
  induction fuel as [|fuel IH]; intros p nodes consumed p';
    cbn [scan]; destruct (Parser.input p) as [|c s] eqn:Ein;
    try (intros [= <-]; apply suffix_of_refl); try discriminate.
  destruct (next p) as [|tok p1|] eqn:En;
    try (intros [= <-]; apply suffix_of_refl).
  pose proof (rightwards_next _ En) as H1.
  destruct (_ <? _).
  - intro H. apply IH in H. eapply suffix_of_trans; eauto.
  - now intros [= <-].
Qed.

Lemma Forall_skipn {A} (P : A -> Prop) (k : nat) (l : list A) :
  Forall P l -> Forall P (skipn k l).
Proof.
  revert l. induction k as [|k IH]; intros [|x l] H; cbn; auto.
  apply IH. now apply Forall_cons_iff in H.
Qed.

End Suffixes.

(* ================================================================= *)
(** ** Further properties of the rules *)

Lemma stuck_at_needs_paren_or_newline (s : str) :
  Forall (fun c => c <> char_of "(" /\ line_terminator c = false) s ->
  stuck_at s = false.
Proof.
  intro H. destruct s as [|c r]; [reflexivity|].
  apply Forall_cons_iff in H. destruct H as [[_ Hc] Hr].
  unfold stuck_at. rewrite Hc.
  assert (Hp : head_in (js "(") r = false).
  { destruct r as [|b r]; [reflexivity|].
    apply Forall_cons_iff in Hr. destruct Hr as [[Hb _] _].
    cbn. rewrite orb_false_r. apply not_true_is_false. intro E.
    now apply char_eqb_eq in E. }
  rewrite Hp. cbn [orb].
  now rewrite !andb_false_r.
Qed.

(** A pattern without an opening parenthesis and without a line terminator
    is always tokenized to the end: the scan returns with no input left,
    and the lengths consumed by its steps add up to the length of the
    pattern. *)
Theorem paren_free_pattern_is_consumed (o : Options.t) (s : str) :
  Forall (fun c => c <> char_of "(" /\ line_terminator c = false) s ->
  exists nodes consumed p,
    tokenize o s = Done nodes consumed p
    /\ Parser.input p = []
    /\ list_sum consumed = length s.
Proof.
  intro Hall. unfold tokenize.
  destruct (@scan_result (length s) (Parser.init o s) [] [])
    as (nodes & consumed & p & [[H Hin]|[H Hst]] & Hsum); try reflexivity.
  - exists nodes, consumed, p. rewrite Hin in Hsum. cbn in Hsum.
    repeat split; try assumption. lia.
  - exfalso.
    assert (Hf : final (scan (length s) (Parser.init o s) [] []) = Some p)
      by now rewrite H.
    apply scan_suffix in Hf. destruct Hf as [k Hk]. cbn in Hk.
    rewrite Hk, stuck_at_needs_paren_or_newline in Hst; [discriminate|].
    now apply Forall_skipn.
Qed.

Lemma paren_free_pattern_is_consumed_witness :
  Forall (fun c => c <> char_of "(" /\ line_terminator c = false)
         (js "!a/**/[b].?")
  /\ exists nodes consumed p,
      tokenize Options.default (js "!a/**/[b].?") = Done nodes consumed p
      /\ Parser.input p = []
      /\ list_sum consumed = length (js "!a/**/[b].?").
Proof.
  assert (H : Forall (fun c => c <> char_of "(" /\ line_terminator c = false)
                     (js "!a/**/[b].?")).
  { repeat (apply Forall_cons; [split; [discriminate|reflexivity]|]).
    apply Forall_nil. }
  split; [exact H|].
  exact (@paren_free_pattern_is_consumed Options.default (js "!a/**/[b].?") H).
Defined.

Lemma empty_input_unmatched (p : Parser.t) :
  Parser.input p = [] ->
  Parser.notRegex p = None ->
  Forall (fun r => r p = NoMatch) Rules.all.
Proof.
  destruct p as [o i pa st b a nr ib ibr ip]. cbn. intros -> ->.
  unfold Rules.all.
  repeat (apply Forall_cons;
          [destruct pa, ib; vm_compute; reflexivity|]).
  apply Forall_nil.
Qed.

(** Outside a bracket context and with the default pattern of the not
    rule, no rule of the set matches at a cursor with input left exactly
    when the input starts with a line terminator, with a plus sign or a
    question mark followed by an opening parenthesis, or with a star
    followed by an opening parenthesis that ends the input or is followed
    by a line terminator. *)
Theorem no_rule_matches_iff (p : Parser.t) :
  Parser.inside_bracket p = false ->
  Parser.notRegex p = None ->
  Parser.input p <> [] ->
  (next p = NoMatch <-> stuck_at (Parser.input p) = true).
Proof.
  intros Hib Hnr Hin. pose proof (matches_next_stuck p Hib Hnr) as Hm.
  destruct (Parser.input p) as [|c r]; [now elim Hin|].
  cbn [nonempty andb] in Hm. split; intro H.
  - rewrite H in Hm. cbn [matches] in Hm.
    destruct (stuck_at (c :: r)); [reflexivity|discriminate].
  - rewrite H in Hm. cbn [negb] in Hm.
    destruct (next p); [reflexivity|discriminate|discriminate].
Qed.

Lemma no_rule_matches_iff_witness :
  Parser.inside_bracket (Parser.init Options.default (js "+(a)")) = false
  /\ Parser.notRegex (Parser.init Options.default (js "+(a)")) = None
  /\ Parser.input (Parser.init Options.default (js "+(a)")) <> []
  /\ (next (Parser.init Options.default (js "+(a)")) = NoMatch
      <-> stuck_at (js "+(a)") = true).
Proof.
  assert (H : Parser.input (Parser.init Options.default (js "+(a)")) <> [])
    by discriminate.
  split; [reflexivity|]. split; [reflexivity|]. split; [exact H|].
  exact (@no_rule_matches_iff (Parser.init Options.default (js "+(a)"))
           eq_refl eq_refl H).
Defined.

(** No rule of the set throws, whatever the parser it is called on, and
    no scan is aborted by a rule: the assignment to the constant in the
    bracket rule is never reached. *)
Theorem rules_never_throw :
  Forall (fun r => forall p, r p <> Thrown) Rules.all
  /\ (forall p, next p <> Thrown)
  /\ (forall o s nodes consumed p, tokenize o s <> Crashed nodes consumed p).
Proof.
  split; [exact never_throws_all|]. split; [exact next_never_throws|].
  intros o s nodes consumed p H. unfold tokenize in H.
  destruct (@scan_result (length s) (Parser.init o s) [] [])
    as (n' & c' & p' & [[H' _]|[H' _]] & _); try reflexivity; congruence.
Qed.

(** A rule that matches keeps the options, the pattern of the not rule
    and the contexts, and leaves as input a suffix of the input it was
    given; with the default pattern of the not rule that suffix is
    strictly shorter. *)
Theorem rules_move_right (r : Parser.t -> Outcome) p tok p' :
  In r Rules.all ->
  r p = Matched tok p' ->
  same_config p p'
  /\ suffix_of p p'
  /\ (Parser.notRegex p = None ->
      length (Parser.input p') < length (Parser.input p)).
Proof.
  intros Hin Hr.
  destruct (proj1 (Forall_forall _ _) frame_all r Hin p tok p' Hr) as [Hc _].
  split; [exact Hc|]. split.
  - exact (proj1 (Forall_forall _ _) rightwards_all r Hin p tok p' Hr).
  - intro Hnr.
    apply (proj1 (Forall_forall _ _) progress_all r Hin p tok p' Hnr);
      [|exact Hr].
    intro He.
    pose proof (proj1 (Forall_forall _ _)
                  (@empty_input_unmatched p He Hnr) r Hin) as Hn.
    cbn beta in Hn. congruence.
Qed.

Lemma rules_move_right_witness :
  In Rules.globstar Rules.all
  /\ Rules.globstar (Parser.init Options.default (js "**/**/a"))
     = Matched
         (Some (Node.mk t_globstar (js "**") (Some []) None
                        (Some (false, false)) None None None None))
         (Parser.mk Options.default (js "/a") (js "**")
                    (State.mk 0 [] None None None (Some true) None None
                              (Some true))
                    None [] None false false false)
  /\ length (js "/a") < length (js "**/**/a").
Proof.
  assert (Hin : In Rules.globstar Rules.all) by (cbn; tauto).
  split; [exact Hin|]. split; [reflexivity|].
  exact (proj2 (proj2 (@rules_move_right Rules.globstar
                         (Parser.init Options.default (js "**/**/a"))
                         _ _ Hin eq_refl)) eq_refl).
Defined.

(** [advanceTo] terminates on every input and end character: the nested
    calls of [advance] never exceed a depth of one more than the length of
    the input, and the loop takes at most as many turns. *)
Theorem advanceTo_terminates (input endChar : str) :
  exists s,
    AdvanceTo.run input endChar = Some s
    /\ advanceTo input endChar = tok s
    /\ len (tok s) = S (idx s).
Proof.
  destruct (run_total input endChar) as [s [E Hs]].
  exists s. split; [exact E|]. split.
  - unfold advanceTo. now rewrite E.
  - apply Hs.
Qed.

(* ================================================================= *)
(** ** The separator count *)

Section Slashes.

Definition is_slash (n : Node.t) : bool :=
  match Node.type n with
  | t_slash => true
  | _ => false
  end.

Definition count_slashes (nodes : list Node.t) : nat :=
  length (filter is_slash nodes).

Definition slash_of (tok : option Node.t) : nat :=
  match tok with
  | Some n => if is_slash n then 1 else 0
  | None => 0
  end.

(** The nodes a scan has produced when it stops. *)
Definition emitted (r : Result) : list Node.t :=
  match r with
  | Done nodes _ _ | NoParser nodes _ _ | Crashed nodes _ _ => nodes
  | OutOfFuel => []
  end.

Definition counts (r : Parser.t -> Outcome) : Prop :=
  forall p tok p',
    r p = Matched tok p' ->
    State.slashes (Parser.state p')
    = State.slashes (Parser.state p) + slash_of tok.

Ltac open_rule :=
  intros p tok p';
  repeat match goal with
         | |- context [if ?b then NoMatch else _] => destruct b
         end;
  try discriminate;
  match goal with
  | |- context [pmatch ?r ?m0 ?p] =>
      let H := fresh "H" in
      destruct (pmatch r m0 p) as [[? ?]|] eqn:H; [|discriminate];
      apply pmatch_Some in H; destruct H as [_ H]; subst
  end.

Ltac close_rule := intros [= <- <-]; cbn; lia.

Lemma counts_all : Forall counts Rules.all.
Proof.
  unfold Rules.all.
  apply Forall_cons; [unfold counts, Rules.prefix; open_rule; close_rule|].
  apply Forall_cons.
  { unfold counts, Rules.escape. open_rule.
    destruct p0 as [[m0 m1] m2]. close_rule. }
  apply Forall_cons.
  { unfold counts, Rules.quoted, Rules.quoted_body. open_rule.
    destruct (negb _); close_rule. }
  apply Forall_cons.
  { unfold counts, Rules.not, Rules.not_body. open_rule.
    destruct (_ && _); close_rule. }
  apply Forall_cons; [unfold counts, Rules.dot; open_rule; close_rule|].
  apply Forall_cons;
    [unfold counts, Rules.plus, Rules.capture; open_rule; close_rule|].
  apply Forall_cons; [unfold counts, Rules.qmark; open_rule; close_rule|].
  apply Forall_cons.
  { unfold counts, Rules.globstar. open_rule. destruct (negb _); close_rule. }
  apply Forall_cons; [unfold counts, Rules.star; open_rule; close_rule|].
  apply Forall_cons; [unfold counts, Rules.slash; open_rule; close_rule|].
  apply Forall_cons.
  { unfold counts, Rules.backslash, Rules.backslash_body.
    open_rule. close_rule. }
  apply Forall_cons.
  { unfold counts, Rules.square. open_rule.
    destruct p0 as [m0 m1]. close_rule. }
  apply Forall_cons.
  { unfold counts, Rules.bracket, Rules.bracket_body. open_rule.
    destruct p0 as [[[m0 m1] m2] m3]. cbn [fst].
    destruct (_ && _); [|close_rule].
    destruct (bracket_scan _ _ _) as [[p3 inner']|] eqn:Es; [|discriminate].
    apply bracket_scan_state in Es. intros [= <- <-]. rewrite Es.
    cbn. lia. }
  apply Forall_cons.
  { unfold counts, Rules.text. open_rule.
    destruct (nonempty s); [|discriminate]. close_rule. }
  apply Forall_nil.
Qed.

Lemma counts_next : counts next.
Proof.
  intros p tok p' H. unfold next in H.
  destruct (first_match_In Rules.all p) as [E|[r [Hin Hr]]];
    [congruence|].
  rewrite H in Hr.
  exact (proj1 (Forall_forall _ _) counts_all r Hin p tok p' Hr).
Qed.

Lemma count_slashes_push (tok : option Node.t) (nodes : list Node.t) :
  count_slashes (push tok nodes) = count_slashes nodes + slash_of tok.
Proof.
  unfold count_slashes, push, slash_of. destruct tok as [n|]; [|lia].
  rewrite filter_app, length_app. cbn [filter].
  destruct (is_slash n); cbn; lia.
Qed.

Lemma scan_slashes :
  forall fuel p nodes consumed p',
    final (scan fuel p nodes consumed) = Some p' ->
    State.slashes (Parser.state p') + count_slashes nodes
    = State.slashes (Parser.state p)
      + count_slashes (emitted (scan fuel p nodes consumed)).
Proof.
  induction fuel as [|fuel IH]; intros p nodes consumed p';
    cbn [scan]; destruct (Parser.input p) as [|c s] eqn:Ein;
    try (intros [= <-]; cbn [emitted]; lia); try discriminate.
  destruct (next p) as [|tok p1|] eqn:En;
    try (intros [= <-]; cbn [emitted]; lia).
  pose proof (counts_next _ En) as H1.
  destruct (_ <? _).
  - intro H. apply IH in H. rewrite count_slashes_push in H. lia.
  - intros [= <-]. cbn [emitted]. rewrite count_slashes_push. lia.
Qed.

End Slashes.

(** When a scan stops, the separator count of the lexer state is the
    number of slash nodes produced: the slash rule is the only one that
    counts, it counts one per node, and the slashes dropped by the folding
    of the globstar rule are not counted. *)
Theorem slashes_count_slash_nodes (o : Options.t) (s : str) (p : Parser.t) :
  final (tokenize o s) = Some p ->
  State.slashes (Parser.state p) = count_slashes (emitted (tokenize o s)).
Proof.
  intro H. unfold tokenize in *. apply scan_slashes in H. cbn in H. lia.
Qed.

Lemma slashes_count_slash_nodes_witness :
  final (tokenize Options.default (js "a/**/**/b/c"))
  = Some (Parser.mk Options.default [] (js "a/**/b/c")
                    (State.mk 3 [] None None None (Some true) None None
                              (Some true))
                    None [] None false false false)
  /\ count_slashes (emitted (tokenize Options.default (js "a/**/**/b/c"))) = 3.
Proof.
  split; [reflexivity|].
  symmetry.
  exact (@slashes_count_slash_nodes Options.default (js "a/**/**/b/c")
           (Parser.mk Options.default [] (js "a/**/b/c")
                      (State.mk 3 [] None None None (Some true) None None
                                (Some true))
                      None [] None false false false)
           eq_refl).
Defined.

(* ================================================================= *)
(** ** The prefix, escape and square rules *)

Lemma prefix_re_spec (s : str) :
  exec prefix_re s = if prefix_here s then Some (firstn 2 s) else None.
Proof.
  unfold exec, prefix_re, prefix_here.
  destruct s as [|a [|b r]]; char_cases; reflexivity.
Qed.

(** The prefix rule matches only when nothing has been parsed and the
    input starts with a dot followed by a slash or a backslash; it then
    consumes these two characters, adds them to the text parsed, returns no
    node, and sets [addPrefix] to [true] and [strictOpen] to the option. *)
Theorem prefix_rule_spec (p : Parser.t) :
  (Parser.parsed p <> [] -> Rules.prefix p = NoMatch)
  /\ (prefix_here (Parser.input p) = false -> Rules.prefix p = NoMatch)
  /\ (Parser.parsed p = [] ->
      prefix_here (Parser.input p) = true ->
      exists p',
        Rules.prefix p = Matched None p'
        /\ Parser.input p' = skipn 2 (Parser.input p)
        /\ Parser.parsed p' = firstn 2 (Parser.input p)
        /\ State.addPrefix (Parser.state p') = Some true
        /\ State.strictOpen (Parser.state p')
           = Some (Options.strictOpen (Parser.options p))).
Proof.
  unfold Rules.prefix, pmatch. rewrite prefix_re_spec. split; [|split].
  - intro H. destruct (Parser.parsed p); [now elim H|reflexivity].
  - intros ->. now destruct (nonempty _).
  - intros Hp Hh. rewrite Hp, Hh. cbn [nonempty].
    eexists. split; [reflexivity|]. cbn. rewrite Hp.
    unfold prefix_here in Hh.
    destruct (Parser.input p) as [|a [|b r]]; try discriminate.
    repeat split.
Qed.

Lemma prefix_rule_spec_witness :
  Parser.parsed (Parser.init (Options.mk true false false) (js "./a")) = []
  /\ prefix_here (js "./a") = true
  /\ Rules.prefix (Parser.init (Options.mk true false false) (js "./a"))
     = Matched None
         (Parser.mk (Options.mk true false false) (js "a") (js "./")
                    (State.mk 0 [] (Some true) (Some true) None None None
                              None None)
                    None [] None false false false)
  /\ exists p',
      Rules.prefix (Parser.init (Options.mk true false false) (js "./a"))
      = Matched None p'
      /\ Parser.input p' = js "a".
Proof.
  split; [reflexivity|]. split; [reflexivity|]. split; [reflexivity|].
  destruct (proj2 (proj2 (prefix_rule_spec
                            (Parser.init (Options.mk true false false)
                                         (js "./a"))))
              eq_refl eq_refl) as (p' & H1 & H2 & _).
  exists p'. split; [exact H1|exact H2].
Defined.

Lemma escape_re_spec (s : str) :
  exec escape_re s
  = match s with
    | a :: r =>
        if char_eqb a bslash
        then match r with
             | b :: _ =>
                 if line_terminator b then None
                 else Some ([a; b], Some [b], None)
             | [] => None
             end
        else if mem a (js "$^") then Some ([a], None, Some [a]) else None
    | [] => None
    end.
Proof.
  unfold exec, escape_re, line_terminator, bslash.
  destruct s as [|a [|b r]]; char_cases; reflexivity.
Qed.

(** Outside a bracket context the escape rule turns a backslash followed
    by a character that is not a line terminator into an escape node
    carrying that character alone, and a dollar sign or a caret into an
    escape node carrying the sign; it matches nothing else, and nothing
    inside a bracket context. *)
Theorem escape_rule_spec (p : Parser.t) :
  (Parser.inside_bracket p = true -> Rules.escape p = NoMatch)
  /\ (Parser.inside_bracket p = false ->
      (forall b r,
          Parser.input p = bslash :: b :: r ->
          line_terminator b = false ->
          Rules.escape p
          = Matched (Some (Node.plain t_escape [b]))
              (updatePosition [bslash; b] p))
      /\ (forall a r,
          Parser.input p = a :: r ->
          mem a (js "$^") = true ->
          Rules.escape p
          = Matched (Some (Node.plain t_escape [a])) (updatePosition [a] p))
      /\ (escape_here (Parser.input p) = false -> Rules.escape p = NoMatch)).
Proof.
  unfold Rules.escape, pmatch. rewrite escape_re_spec. split.
  - now intros ->.
  - intros ->. split; [|split].
    + intros b r -> Hb. rewrite (proj2 (char_eqb_eq bslash bslash) eq_refl).
      now rewrite Hb.
    + intros a r -> Ha.
      destruct (char_eqb a bslash) eqn:E.
      * apply char_eqb_eq in E. subst a. discriminate.
      * now rewrite Ha.
    + unfold escape_here.
      destruct (Parser.input p) as [|a r]; [reflexivity|].
      destruct (char_eqb a bslash); cbn [andb orb].
      * destruct r as [|b r]; [reflexivity|].
        destruct (line_terminator b); [reflexivity|].
        cbn [negb orb]. discriminate.
      * now intros ->.
Qed.

Lemma escape_rule_spec_witness :
  Parser.inside_bracket (Parser.init Options.default (js "\*a")) = false
  /\ line_terminator (char_of "*") = false
  /\ Rules.escape (Parser.init Options.default (js "\*a"))
     = Matched (Some (Node.plain t_escape (js "*")))
         (Parser.mk Options.default (js "a") (js "\*") State.init None []
                    None false false false)
  /\ mem (char_of "$") (js "$^") = true
  /\ Rules.escape (Parser.init Options.default (js "$"))
     = Matched (Some (Node.plain t_escape (js "$")))
         (Parser.mk Options.default [] (js "$") State.init None []
                    None false false false).
Proof.
  split; [reflexivity|]. split; [reflexivity|]. split.
  - exact (proj1 (proj2 (escape_rule_spec
                           (Parser.init Options.default (js "\*a")))
                        eq_refl)
             (char_of "*") (js "a") eq_refl eq_refl).
  - split; [reflexivity|].
    exact (proj1 (proj2 (proj2 (escape_rule_spec
                                  (Parser.init Options.default (js "$")))
                               eq_refl))
             (char_of "$") [] eq_refl eq_refl).
Defined.

Lemma square_re_spec (s : str) :
  exec square_re s
  = if square_here s then
      match s with
      | a :: b :: c :: _ => Some ([a; b; c], [b])
      | _ => None
      end
    else None.
Proof.
  unfold exec, square_re, square_here.
  destruct s as [|a [|b [|c r]]]; char_cases; reflexivity.
Qed.

(** Outside a bracket context the square rule matches an opening bracket,
    one character other than an exclamation mark, a caret or a backslash,
    and a closing bracket; it consumes the three characters and yields a
    square node whose value is the character in the middle.  It matches
    nothing else, and nothing inside a bracket context. *)
Theorem square_rule_spec (p : Parser.t) :
  (Parser.inside_bracket p = true -> Rules.square p = NoMatch)
  /\ (Parser.inside_bracket p = false ->
      (forall x r,
          Parser.input p = char_of "[" :: x :: char_of "]" :: r ->
          mem x (js "!^\") = false ->
          Rules.square p
          = Matched (Some (Node.plain t_square [x]))
              (updatePosition [char_of "["; x; char_of "]"] p)
          /\ Parser.input (updatePosition [char_of "["; x; char_of "]"] p)
             = r)
      /\ (square_here (Parser.input p) = false -> Rules.square p = NoMatch)).
Proof.
  unfold Rules.square, pmatch. rewrite square_re_spec. split.
  - now intros ->.
  - intros ->. split.
    + intros x r Hin Hx. rewrite Hin. unfold square_here.
      rewrite Hx. cbn. rewrite Hin. split; reflexivity.
    + now intros ->.
Qed.

Lemma square_rule_spec_witness :
  Parser.inside_bracket (Parser.init Options.default (js "[a]b")) = false
  /\ mem (char_of "a") (js "!^\") = false
  /\ Rules.square (Parser.init Options.default (js "[a]b"))
     = Matched (Some (Node.plain t_square (js "a")))
         (Parser.mk Options.default (js "b") (js "[a]") State.init None []
                    None false false false).
Proof.
  split; [reflexivity|]. split; [reflexivity|].
  exact (proj1 (proj1 (proj2 (square_rule_spec
                                (Parser.init Options.default (js "[a]b")))
                             eq_refl)
                  (char_of "a") (js "b") eq_refl eq_refl)).
Defined.

(* ================================================================= *)
(** ** Runs of one character: the dot, not and question mark rules *)

Section Runs.

Lemma skipn_run (c : char) (n : nat) (rest : str) :
  skipn (length (repeat c n)) (repeat c n ++ rest) = rest.
Proof.
  rewrite skipn_app, skipn_all, Nat.sub_diag. reflexivity.
Qed.

Lemma updatePosition_run (c : char) (n : nat) (rest : str) p :
  Parser.input p = repeat c n ++ rest ->
  Parser.input (updatePosition (repeat c n) p) = rest.
Proof.
  intro H. cbn. rewrite H. apply skipn_run.
Qed.

Lemma dot_re_run (k : nat) (rest : str) :
  starts_with (js ".") rest = false ->
  exec dot_re (repeat (char_of ".") (S k) ++ rest)
  = Some (repeat (char_of ".") (S k)).
Proof.
  intro Hrest. unfold exec, dot_re, lit1. rewrite plus_chr.
  fold (exec (plus_spec (fun x => char_eqb x (char_of ".")))
             (repeat (char_of ".") (S k) ++ rest)).
  rewrite plus_spec_head, span_run; [reflexivity|reflexivity|].
  destruct rest as [|x rest]; [reflexivity|]. cbn in Hrest.
  now rewrite andb_true_r in Hrest.
Qed.

(** The matches of a run followed by a look-ahead that refuses an opening
    parenthesis. *)
Definition refuse_paren (m : str * str) : list (str * str) :=
  bind (nlook (lit (js "("))) (fun y => ret (fst m ++ y)) (snd m).

Lemma refuse_paren_spec (x s : str) :
  refuse_paren (x, s)
  = if head_in (js "(") s then [] else [(x, s)].
Proof.
  unfold refuse_paren, head_in. cbn [fst snd].
  destruct s as [|c s]; re_unfold; [now rewrite app_nil_r|].
  destruct (char_eqb c 40%N); cbn; [reflexivity|]. now rewrite app_nil_r.
Qed.

Lemma refuse_paren_cons (c : char) (l : list (str * str)) :
  flat_map refuse_paren (map (fun m => (c :: fst m, snd m)) l)
  = map (fun m => (c :: fst m, snd m)) (flat_map refuse_paren l).
Proof.
  induction l as [|[x s] l IH]; [reflexivity|].
  cbn [map flat_map fst snd]. rewrite IH, map_app. f_equal.
  rewrite !refuse_paren_spec. now destruct (head_in _ s).
Qed.

(** The text the question mark pattern matches on a run of [S k] question
    marks: the whole run, or one less when the run is followed by an
    opening parenthesis. *)
Lemma qmark_matches_run (k : nat) (rest : str) :
  starts_with (js "?") rest = false ->
  exists tl,
    flat_map refuse_paren
      (plus_spec (fun x => char_eqb x (char_of "?"))
                 (repeat (char_of "?") (S k) ++ rest))
    = if head_in (js "(") rest
      then match k with
           | 0 => []
           | S k' =>
               (repeat (char_of "?") k, char_of "?" :: rest) :: tl
           end
      else (repeat (char_of "?") (S k), rest) :: tl.
Proof.
  intro Hrest.
  assert (Hnil : plus_spec (fun x => char_eqb x (char_of "?")) rest = []).
  { apply plus_spec_nil. destruct rest as [|x rest]; [reflexivity|].
    cbn in Hrest. now rewrite andb_true_r in Hrest. }
  induction k as [|k IH].
  - cbn [repeat app plus_spec]. change (char_eqb (char_of "?") (char_of "?"))
      with true. cbn iota. rewrite Hnil. cbn [map app flat_map].
    rewrite refuse_paren_spec, app_nil_r.
    destruct (head_in _ rest); [now exists []|now exists []].
  - destruct IH as [tl IH].
    change (repeat (char_of "?") (S (S k)) ++ rest)
      with (char_of "?" :: (repeat (char_of "?") (S k) ++ rest)).
    cbn [plus_spec]. change (char_eqb (char_of "?") (char_of "?")) with true.
    cbn iota. rewrite flat_map_app, refuse_paren_cons, IH.
    cbn [flat_map]. rewrite refuse_paren_spec, app_nil_r.
    change (head_in (js "(") (repeat (char_of "?") (S k) ++ rest))
      with false. cbn iota.
    destruct (head_in (js "(") rest).
    + destruct k as [|k'].
      * cbn [map app]. now exists [].
      * cbn [map fst snd app]. eexists. reflexivity.
    + cbn [map fst snd app]. eexists. reflexivity.
Qed.

Lemma qmark_re_run (k : nat) (rest : str) :
  starts_with (js "?") rest = false ->
  exec qmark_re (repeat (char_of "?") (S k) ++ rest)
  = if head_in (js "(") rest
    then match k with
         | 0 => None
         | S k' => Some (repeat (char_of "?") k)
         end
    else Some (repeat (char_of "?") (S k)).
Proof.
  intro Hrest. destruct (@qmark_matches_run k rest Hrest) as [tl H].
  unfold exec, qmark_re, lit1, cat. unfold bind at 1. rewrite plus_chr.
  change (flat_map
            (fun m : str * str =>
               bind (nlook (lit (js "("))) (fun y => ret (fst m ++ y)) (snd m)))
    with (flat_map refuse_paren).
  rewrite H. destruct (head_in _ rest); [|reflexivity].
  now destruct k.
Qed.

End Runs.

(** The dot rule takes the whole run of dots at the cursor; its node and
    the lexer state record a leading dot-file exactly when the run is one
    dot and nothing has been parsed or the text parsed ends with a slash
    (a later run overwrites what an earlier one recorded). *)
Theorem dot_rule_run (p : Parser.t) (k : nat) (rest : str) :
  Parser.input p = repeat (char_of ".") (S k) ++ rest ->
  starts_with (js ".") rest = false ->
  let d := Nat.eqb k 0
           && (str_eqb (Parser.parsed p) []
               || str_eqb (last_char (Parser.parsed p)) (js "/")) in
  exists p',
    Rules.dot p
    = Matched (Some (Node.mk t_dot (repeat (char_of ".") (S k)) None
                             (Some d) None None None None None)) p'
    /\ State.dot (Parser.state p') = Some d
    /\ Parser.input p' = rest
    /\ Parser.parsed p' = Parser.parsed p ++ repeat (char_of ".") (S k).
Proof.
  intros Hin Hrest d. unfold Rules.dot, pmatch.
  rewrite Hin, (@dot_re_run k rest Hrest).
  assert (Hd : str_eqb (repeat (char_of ".") (S k)) (js ".") = Nat.eqb k 0).
  { destruct k; reflexivity. }
  rewrite Hd. fold d. eexists. split; [reflexivity|].
  split; [reflexivity|]. split; [|reflexivity].
  cbn [Parser.set_state Parser.input]. now apply updatePosition_run.
Qed.

Lemma dot_rule_run_witness :
  Parser.input
    (Parser.mk Options.default (js ".b") (js "a/") State.init None [] None
               false false false)
  = repeat (char_of ".") 1 ++ js "b"
  /\ starts_with (js ".") (js "b") = false
  /\ exists p',
      Rules.dot
        (Parser.mk Options.default (js ".b") (js "a/") State.init None []
                   None false false false)
      = Matched (Some (Node.mk t_dot (js ".") None (Some true)
                               None None None None None)) p'
      /\ State.dot (Parser.state p') = Some true
      /\ Parser.input p' = js "b"
      /\ Parser.parsed p' = js "a/.".
Proof.
  split; [reflexivity|]. split; [reflexivity|].
  exact (@dot_rule_run
           (Parser.mk Options.default (js ".b") (js "a/") State.init None []
                      None false false false)
           0 (js "b") eq_refl eq_refl).
Defined.

(** The question mark rule on a run of question marks: it takes the whole
    run when no opening parenthesis follows; when one follows it leaves the
    last question mark of the run to it, and does not match a single
    question mark before the parenthesis.  Whenever it matches, the run it
    takes is added to the text parsed, the [metachar] and [qmark] flags are
    set and nothing else of the lexer state changes, and its node echoes
    the text parsed before the call. *)
Theorem qmark_rule_run (p : Parser.t) (k : nat) (rest : str) :
  Parser.input p = repeat (char_of "?") (S k) ++ rest ->
  starts_with (js "?") rest = false ->
  (head_in (js "(") rest = false ->
   Rules.qmark p
   = Matched (Some (Node.mk t_qmark (repeat (char_of "?") (S k))
                            (Some (Parser.parsed p)) None None None None
                            None None))
       (Parser.set_state
          (State.set_qmark (State.set_metachar (Parser.state p)))
          (updatePosition (repeat (char_of "?") (S k)) p))
   /\ Parser.input (updatePosition (repeat (char_of "?") (S k)) p) = rest)
  /\ (head_in (js "(") rest = true ->
      match k with
      | 0 => Rules.qmark p = NoMatch
      | S k' =>
          Rules.qmark p
          = Matched (Some (Node.mk t_qmark (repeat (char_of "?") k)
                                   (Some (Parser.parsed p)) None None None
                                   None None None))
              (Parser.set_state
                 (State.set_qmark (State.set_metachar (Parser.state p)))
                 (updatePosition (repeat (char_of "?") k) p))
          /\ Parser.input (updatePosition (repeat (char_of "?") k) p)
             = char_of "?" :: rest
      end)
  /\ (forall tok p',
      Rules.qmark p = Matched tok p' ->
      State.metachar (Parser.state p') = Some true
      /\ State.qmark (Parser.state p') = Some true).
Proof.
  intros Hin Hrest. split; [|split].
  - intros Hp. unfold Rules.qmark, pmatch.
    rewrite Hin, (@qmark_re_run k rest Hrest), Hp.
    split; [reflexivity|]. now apply updatePosition_run.
  - intros Hp. unfold Rules.qmark, pmatch.
    rewrite Hin, (@qmark_re_run k rest Hrest), Hp.
    destruct k as [|k']; [reflexivity|].
    split; [reflexivity|].
    apply updatePosition_run. rewrite Hin.
    change (repeat (char_of "?") (S (S k')))
      with (char_of "?" :: repeat (char_of "?") (S k')).
    rewrite repeat_cons. now rewrite <- app_assoc.
  - intros tok p'. unfold Rules.qmark.
    destruct (pmatch _ _ p) as [[m p1]|]; [|discriminate].
    intros [= <- <-]. split; reflexivity.
Qed.

Lemma qmark_rule_run_witness :
  Parser.input (Parser.init Options.default (js "??(a)"))
  = repeat (char_of "?") 2 ++ js "(a)"
  /\ starts_with (js "?") (js "(a)") = false
  /\ head_in (js "(") (js "(a)") = true
  /\ Rules.qmark (Parser.init Options.default (js "??(a)"))
     = Matched (Some (Node.mk t_qmark (js "?") (Some []) None None None
                              None None None))
         (Parser.mk Options.default (js "?(a)") (js "?")
                    (State.mk 0 [] None None None (Some true) (Some true)
                              None None)
                    None [] None false false false).
Proof.
  split; [reflexivity|]. split; [reflexivity|]. split; [reflexivity|].
  exact (proj1 (proj1 (proj2 (@qmark_rule_run
                                (Parser.init Options.default (js "??(a)"))
                                1 (js "(a)") eq_refl eq_refl)) eq_refl)).
Defined.

(** The not rule with its default pattern on a run of exclamation marks:
    a leading run of even length yields a node with an empty value and
    leaves the AST untouched; a run after other text, or a leading run of
    odd length when [nonegate] is [true], is kept as the value of the node,
    and the AST is left untouched as well. *)
Theorem not_rule_literal (p : Parser.t) (k : nat) (rest : str) :
  Parser.notRegex p = None ->
  Parser.input p = repeat (char_of "!") (S k) ++ rest ->
  starts_with (js "!") rest = false ->
  let run := repeat (char_of "!") (S k) in
  (Parser.parsed p = [] -> Nat.even (S k) = true ->
   Rules.not p = Matched (Some (Node.plain t_not [])) (updatePosition run p))
  /\ (Parser.parsed p <> [] ->
      Rules.not p
      = Matched (Some (Node.plain t_not run)) (updatePosition run p))
  /\ (Parser.parsed p = [] -> Nat.odd (S k) = true ->
      Options.nonegate (Parser.options p) = true ->
      Rules.not p
      = Matched (Some (Node.plain t_not run)) (updatePosition run p))
  /\ Parser.input (updatePosition run p) = rest
  /\ Parser.bos_val (updatePosition run p) = Parser.bos_val p
  /\ Parser.append (updatePosition run p) = Parser.append p.
Proof.
  intros Hnr Hin Hrest run. unfold Rules.not, pmatch.
  rewrite Hnr, Hin, (@not_re_run k rest Hrest). fold run.
  unfold Rules.not_body.
  change (Parser.options (updatePosition run p)) with (Parser.options p).
  assert (Hlen : length run = S k) by apply repeat_length.
  rewrite Hlen.
  split; [|split; [|split; [|split; [|split; reflexivity]]]].
  - intros -> He. cbn [str_eqb andb].
    assert (Hm : Nat.modulo (S k) 2 = 0).
    { apply Nat.even_spec in He. destruct He as [j ->].
      rewrite Nat.mul_comm. apply Nat.Div0.mod_mul. }
    rewrite Hm. reflexivity.
  - intro Hp. destruct (Parser.parsed p) as [|c l]; [now elim Hp|].
    reflexivity.
  - intros -> Ho Hn. rewrite Hn, (odd_mod2 _ Ho). reflexivity.
  - now apply updatePosition_run.
Qed.

Lemma not_rule_literal_witness :
  Parser.notRegex (Parser.init Options.default (js "!!a")) = None
  /\ Parser.input (Parser.init Options.default (js "!!a"))
     = repeat (char_of "!") 2 ++ js "a"
  /\ starts_with (js "!") (js "a") = false
  /\ Nat.even 2 = true
  /\ Rules.not (Parser.init Options.default (js "!!a"))
     = Matched (Some (Node.plain t_not []))
         (Parser.mk Options.default (js "a") (js "!!") State.init None []
                    None false false false).
Proof.
  repeat (split; [reflexivity|]).
  exact (proj1 (@not_rule_literal (Parser.init Options.default (js "!!a"))
                  1 (js "a") eq_refl eq_refl eq_refl) eq_refl eq_refl).
Defined.

(* ================================================================= *)
(** ** Folding, brackets and text *)

(** The globstar rule on two stars followed by [n] further [/**] segments
    and a rest that starts with a slash but not with [/**/]: the rule
    drops every one of the segments from the input, without adding them to
    the text parsed, and leaves the rest. *)
Theorem globstar_rule_folds_run (p : Parser.t) (n : nat) (rest : str) :
  Parser.input p = js "**" ++ globstar_run n rest ->
  starts_with (js "/") rest = true ->
  str_eqb (slice_to 4 rest) (js "/**/") = false ->
  exists tok p',
    Rules.globstar p = Matched tok p'
    /\ Parser.input p' = rest
    /\ Parser.parsed p' = Parser.parsed p ++ js "**".
Proof. exact (@globstar_folds_segments p n rest). Qed.

Lemma globstar_rule_folds_run_witness :
  Parser.input
    (Parser.mk Options.default (js "**/**/**/b") (js "a/") State.init None
               [] None false false false)
  = js "**" ++ globstar_run 2 (js "/b")
  /\ starts_with (js "/") (js "/b") = true
  /\ str_eqb (slice_to 4 (js "/b")) (js "/**/") = false
  /\ exists tok p',
      Rules.globstar
        (Parser.mk Options.default (js "**/**/**/b") (js "a/") State.init
                   None [] None false false false)
      = Matched tok p'
      /\ Parser.input p' = js "/b"
      /\ Parser.parsed p' = js "a/**".
Proof.
  split; [reflexivity|]. split; [reflexivity|]. split; [reflexivity|].
  exact (@globstar_rule_folds_run
           (Parser.mk Options.default (js "**/**/**/b") (js "a/") State.init
                      None [] None false false false)
           2 (js "/b") eq_refl eq_refl eq_refl).
Defined.

(** An opening bracket with no closing bracket anywhere after it: the
    bracket rule returns a bracket node with [escaped] set, and does not
    throw. *)
Theorem bracket_unterminated_is_escaped (p : Parser.t) (r : str) :
  Parser.input p = char_of "[" :: r ->
  ~ In (char_of "]") r ->
  exists n p',
    Rules.bracket p = Matched (Some n) p'
    /\ Node.type n = t_bracket
    /\ Node.escaped n = Some true.
Proof. apply bracket_unterminated. Qed.

Lemma bracket_unterminated_is_escaped_witness :
  Parser.input (Parser.init Options.default (js "[abc")) = char_of "[" :: js "abc"
  /\ ~ In (char_of "]") (js "abc")
  /\ Rules.bracket (Parser.init Options.default (js "[abc"))
     = Matched
         (Some (Node.mk t_bracket (js "[abc") None None None (Some true)
                        (Some []) (Some (js "ab")) (Some (js "c"))))
         (Parser.mk Options.default [] (js "[abc") State.init None [] None
                    false false false)
  /\ exists n p',
      Rules.bracket (Parser.init Options.default (js "[abc"))
      = Matched (Some n) p'
      /\ Node.type n = t_bracket
      /\ Node.escaped n = Some true.
Proof.
  assert (H : ~ In (char_of "]") (js "abc")).
  { cbn. intros [E|[E|[E|[]]]]; discriminate. }
  split; [reflexivity|]. split; [exact H|]. split; [reflexivity|].
  exact (@bracket_unterminated_is_escaped
           (Parser.init Options.default (js "[abc")) (js "abc") eq_refl H).
Defined.

Section BracketClass.

Lemma plus_spec_hd (p : char -> bool) :
  forall s c,
    p c = true ->
    exists tl,
      plus_spec p (c :: s) = (c :: fst (span p s), snd (span p s)) :: tl.
Proof.
  induction s as [|c' s IH]; intros c Hc; cbn [plus_spec]; rewrite Hc.
  - now exists [].
  - cbn [span]. destruct (p c') eqn:Hc'.
    + destruct (IH c' Hc') as [tl Htl]. cbn [plus_spec] in Htl.
      rewrite Hc' in Htl. rewrite Htl. cbn [map app fst snd].
      eexists. reflexivity.
    + cbn [map app fst snd]. now exists [].
Qed.

Lemma span_until (p : char -> bool) (t : str) (c : char) (rest : str) :
  Forall (fun x => p x = true) t ->
  p c = false ->
  span p (t ++ c :: rest) = (t, c :: rest).
Proof.
  intros Ht Hc. induction t as [|x t IH]; cbn [app span].
  - now rewrite Hc.
  - apply Forall_cons_iff in Ht. destruct Ht as [Hx Ht].
    now rewrite Hx, (IH Ht).
Qed.

Lemma bind_hd {A B} (r : Re A) (f : A -> Re B) s a s1 l b s2 :
  r s = (a, s1) :: l ->
  (exists l', f a s1 = (b, s2) :: l') ->
  exists l'', bind r f s = (b, s2) :: l''.
Proof.
  intros Hr [l' Hf]. unfold bind. rewrite Hr. cbn [flat_map fst snd].
  rewrite Hf. cbn [app]. eexists. reflexivity.
Qed.

Definition not_close (x : char) : bool := negb (mem x (js "]")).

Lemma not_close_body (body : str) :
  ~ In (char_of "]") body -> Forall (fun x => not_close x = true) body.
Proof.
  intro H. apply Forall_forall. intros x Hx. unfold not_close. cbn.
  rewrite orb_false_r. apply negb_true_iff, not_true_is_false.
  intro E. apply char_eqb_eq in E. now subst.
Qed.

(** The groups the class branch captures on a closed class. *)
Lemma bracket_class_re_closed (neg body rest : str) :
  (neg = [] \/ neg = js "!" \/ neg = js "^") ->
  body <> [] ->
  ~ In (char_of "]") body ->
  (neg = [] -> head_in (js "!^") body = false) ->
  exists tl,
    bracket_class_re (js "[" ++ neg ++ body ++ js "]" ++ rest)
    = (js "[" ++ neg ++ body ++ js "]", Some neg, Some body, Some (js "]"),
       rest) :: tl.
Proof.
  intros Hneg Hb Hno Hh.
  destruct body as [|h t]; [now elim Hb|].
  assert (Hq : not_close h = true).
  { pose proof (@not_close_body (h :: t) Hno) as H.
    now apply Forall_cons_iff in H. }
  assert (Ht : Forall (fun x => not_close x = true) t).
  { pose proof (@not_close_body (h :: t) Hno) as H.
    now apply Forall_cons_iff in H. }
  assert (Hg2 : exists tl2,
             (plus (ncls (js "]")) <|> lit (js "]-"))
               ((h :: t) ++ js "]" ++ rest)
             = (h :: t, js "]" ++ rest) :: tl2).
  { unfold alt, ncls. rewrite plus_chr.
    destruct (@plus_spec_hd not_close (t ++ js "]" ++ rest) h Hq) as [tl Htl].
    change (plus_spec (fun c : char => negb (mem c (js "]"))))
      with (plus_spec not_close).
    cbn [app]. rewrite Htl.
    change (js "]" ++ rest) with (char_of "]" :: rest).
    rewrite (@span_until not_close t (char_of "]") rest Ht eq_refl). cbn [fst snd app].
    eexists. reflexivity. }
  destruct Hg2 as [tl2 Hg2].
  assert (Hg3 : exists tl3,
             (lit (js "]") <|> plus (ncls (js "*+?"))) (js "]" ++ rest)
             = (js "]", rest) :: tl3).
  { unfold alt. re_unfold. eexists. reflexivity. }
  destruct Hg3 as [tl3 Hg3].
  assert (Ho : forall X, lit (js "[") (js "[" ++ X) = [(js "[", X)]).
  { intro X. re_unfold. reflexivity. }
  unfold bracket_class_re.
  destruct Hneg as [-> | [-> | ->]].
  - specialize (Hh eq_refl). cbn [head_in] in Hh.
    eapply bind_hd; [apply Ho|].
    eapply bind_hd.
    { unfold opt, alt, cls, chr. cbn [app]. rewrite Hh. reflexivity. }
    eapply bind_hd; [exact Hg2|].
    eapply bind_hd; [exact Hg3|]. eexists. reflexivity.
  - eapply bind_hd; [apply Ho|].
    eapply bind_hd.
    { instantiate (3 := js "!"). instantiate (2 := (h :: t) ++ js "]" ++ rest).
      re_unfold. reflexivity. }
    eapply bind_hd; [exact Hg2|].
    eapply bind_hd; [exact Hg3|]. eexists. reflexivity.
  - eapply bind_hd; [apply Ho|].
    eapply bind_hd.
    { instantiate (3 := js "^"). instantiate (2 := (h :: t) ++ js "]" ++ rest).
      re_unfold. reflexivity. }
    eapply bind_hd; [exact Hg2|].
    eapply bind_hd; [exact Hg3|]. eexists. reflexivity.
Qed.

End BracketClass.

(** The bracket rule on a closed class: an opening bracket, an optional
    exclamation mark or caret, a body that is not empty and holds no
    closing bracket, and the closing bracket.  The node is not escaped,
    [negated] is a caret exactly when the mark or the caret is there,
    [inner] is the body with its first run of backslashes collapsed,
    [close] is the closing bracket, and the rule consumes through it. *)
Theorem bracket_rule_closed_class (p : Parser.t) (neg body rest : str) :
  Parser.input p = js "[" ++ neg ++ body ++ js "]" ++ rest ->
  (neg = [] \/ neg = js "!" \/ neg = js "^") ->
  body <> [] ->
  ~ In (char_of "]") body ->
  (neg = [] -> head_in (js "!^") body = false) ->
  let m0 := js "[" ++ neg ++ body ++ js "]" in
  let inner := collapse_backslashes body in
  Rules.bracket p
  = Matched
      (Some (Node.mk t_bracket
                     (if length inner <? length body
                      then collapse_backslashes m0 else m0)
                     None None None (Some false)
                     (Some (if nonempty neg then js "^" else []))
                     (Some inner) (Some (js "]"))))
      (updatePosition m0 p)
  /\ Parser.input (updatePosition m0 p) = rest.
Proof.
  intros Hin Hneg Hb Hno Hh m0 inner.
  destruct (@bracket_class_re_closed neg body rest Hneg Hb Hno Hh) as [tl Htl].
  assert (He : exec bracket_re (Parser.input p)
               = Some (m0, Some neg, Some body, Some (js "]"))).
  { rewrite Hin. unfold exec, bracket_re, alt. now rewrite Htl. }
  assert (Hrest : Parser.input (updatePosition m0 p) = rest).
  { change (skipn (length m0) (Parser.input p) = rest).
    rewrite Hin. unfold m0.
    replace (js "[" ++ neg ++ body ++ js "]" ++ rest)
      with ((js "[" ++ neg ++ body ++ js "]") ++ rest)
      by (now rewrite <- !app_assoc).
    now rewrite skipn_app, skipn_all, Nat.sub_diag. }
  split; [|exact Hrest].
  unfold Rules.bracket, pmatch. rewrite He. cbn [fst].
  unfold Rules.bracket_body.
  assert (Hi : str_eqb (collapse_backslashes (or_group (Some body) None)) []
               = false).
  { destruct body as [|h t]; [now elim Hb|]. cbn [or_group].
    apply not_true_is_false. intro E. apply str_eqb_eq in E.
    now apply collapse_backslashes_nonempty in E. }
  rewrite Hi. cbn [andb].
  destruct body as [|h t]; [now elim Hb|]. cbn [or_group truthy andb].
  fold inner.
  reflexivity.
Qed.

Lemma bracket_rule_closed_class_witness :
  Parser.input (Parser.init Options.default (js "[!abc]d"))
  = js "[" ++ js "!" ++ js "abc" ++ js "]" ++ js "d"
  /\ js "abc" <> []
  /\ ~ In (char_of "]") (js "abc")
  /\ Rules.bracket (Parser.init Options.default (js "[!abc]d"))
     = Matched
         (Some (Node.mk t_bracket (js "[!abc]") None None None (Some false)
                        (Some (js "^")) (Some (js "abc")) (Some (js "]"))))
         (Parser.mk Options.default (js "d") (js "[!abc]") State.init None
                    [] None false false false).
Proof.
  assert (Hb : js "abc" <> []) by discriminate.
  assert (Hno : ~ In (char_of "]") (js "abc")).
  { cbn. intros [E|[E|[E|[]]]]; discriminate. }
  assert (Hh : js "!" = [] -> head_in (js "!^") (js "abc") = false)
    by discriminate.
  split; [reflexivity|]. split; [exact Hb|]. split; [exact Hno|].
  exact (proj1 (@bracket_rule_closed_class
                  (Parser.init Options.default (js "[!abc]d"))
                  (js "!") (js "abc") (js "d") eq_refl
                  (or_intror (or_introl eq_refl)) Hb Hno Hh)).
Defined.

(* ================================================================= *)
(** ** The value of a node is the text consumed *)

Section MatchedText.

Lemma sound_exec (r : Re str) (s m : str) :
  sound r -> exec r s = Some m -> s = m ++ skipn (length m) s.
Proof.
  intros Hs He. destruct (exec_In _ _ He) as [rest HI].
  apply Hs in HI. rewrite HI at 2.
  now rewrite skipn_app, skipn_all, Nat.sub_diag.
Qed.

Lemma sound_dot_re : sound dot_re.
Proof. apply sound_plus_chr. Qed.

Lemma sound_plus_re : sound plus_re.
Proof. apply sound_cat; [apply sound_lit|apply sound_nlook]. Qed.

Lemma sound_qmark_re : sound qmark_re.
Proof. apply sound_cat; [apply sound_plus_chr|apply sound_nlook]. Qed.

Lemma sound_star_re : sound star_re.
Proof.
  repeat apply sound_alt.
  - apply sound_cat; [apply sound_lit|apply sound_nlook].
  - apply sound_cat; [|apply sound_nlook].
    apply sound_cat; [apply sound_rep, sound_chr|apply sound_star_chr].
  - apply sound_cat; [apply sound_rep, sound_chr|apply sound_nlook].
  - apply sound_cat; [apply sound_lit|apply sound_look].
Qed.

Lemma sound_slash_re : sound slash_re.
Proof. apply sound_lit. Qed.

Lemma sound_text_re : sound text_re.
Proof.
  apply sound_alt.
  - apply sound_cat; [apply sound_chr|].
    apply sound_cat; [apply sound_lit|apply sound_look].
  - intros s x rest. rewrite regexNot_create_spec, <- plus_chr.
    apply sound_plus_chr.
Qed.

(** The rules whose node carries the matched text as its value. *)
Definition verbatim_rules : list (Parser.t -> Outcome) :=
  [Rules.dot; Rules.plus; Rules.qmark; Rules.star; Rules.slash; Rules.text].

Definition verbatim (r : Parser.t -> Outcome) : Prop :=
  forall p tok p',
    r p = Matched tok p' ->
    exists n,
      tok = Some n
      /\ Node.val n <> []
      /\ Parser.input p = Node.val n ++ Parser.input p'
      /\ Parser.parsed p' = Parser.parsed p ++ Node.val n.

Ltac open_rule Hs Hp :=
  intros p tok p';
  repeat match goal with
         | |- context [if ?b then NoMatch else _] => destruct b
         end;
  try discriminate;
  match goal with
  | |- context [pmatch ?r ?m0 ?p] =>
      let H := fresh "H" in
      let E := fresh "E" in
      destruct (pmatch r m0 p) as [[m ?]|] eqn:H; [|discriminate];
      apply pmatch_Some in H; destruct H as [E H]; subst;
      pose proof (@sound_exec _ _ _ Hs E) as Hin;
      pose proof (every_exec Hp E) as Hne
  end.

Ltac close_rule :=
  intros [= <- <-]; eexists; split; [reflexivity|];
  split; [assumption|]; split; [assumption|reflexivity].

Lemma productive_text_re : every productive text_re.
Proof.
  apply every_alt.
  - apply every_cat_l, productive_cls.
  - intros s a rest. rewrite regexNot_create_spec. apply every_plus_spec.
Qed.

Lemma verbatim_all : Forall verbatim verbatim_rules.
Proof.
  unfold verbatim_rules.
  apply Forall_cons.
  { unfold verbatim, Rules.dot.
    open_rule sound_dot_re productive_dot_re. close_rule. }
  apply Forall_cons.
  { unfold verbatim, Rules.plus, Rules.capture.
    open_rule sound_plus_re productive_plus_re. close_rule. }
  apply Forall_cons.
  { unfold verbatim, Rules.qmark.
    open_rule sound_qmark_re productive_qmark_re. close_rule. }
  apply Forall_cons.
  { unfold verbatim, Rules.star.
    open_rule sound_star_re productive_star_re. close_rule. }
  apply Forall_cons.
  { unfold verbatim, Rules.slash.
    open_rule sound_slash_re productive_slash_re. close_rule. }
  apply Forall_cons.
  { unfold verbatim, Rules.text.
    open_rule sound_text_re productive_text_re.
    destruct (nonempty m); [|discriminate]. close_rule. }
  apply Forall_nil.
Qed.

End MatchedText.

(** For the dot, plus, question mark, star, slash and text rules, the
    value of the node returned is not empty and is exactly the text the
    rule consumes: the input before the call is the value followed by the
    input after it, and the value is what the call adds to the text
    parsed. *)
Theorem verbatim_value_is_consumed (r : Parser.t -> Outcome) p tok p' :
  In r verbatim_rules ->
  r p = Matched tok p' ->
  exists n,
    tok = Some n
    /\ Node.val n <> []
    /\ Parser.input p = Node.val n ++ Parser.input p'
    /\ Parser.parsed p' = Parser.parsed p ++ Node.val n.
Proof.
  intros Hin Hr.
  exact (proj1 (Forall_forall _ _) verbatim_all r Hin p tok p' Hr).
Qed.

Lemma verbatim_value_is_consumed_witness :
  In Rules.star verbatim_rules
  /\ Rules.star (Parser.init Options.default (js "***a"))
     = Matched (Some (Node.plain t_star (js "***")))
         (Parser.mk Options.default (js "a") (js "***")
                    (State.mk 0 [] None None None (Some true) None
                              (Some true) None)
                    None [] None false false false)
  /\ exists n,
      Some (Node.plain t_star (js "***")) = Some n
      /\ Node.val n <> []
      /\ js "***a" = Node.val n ++ js "a"
      /\ js "***" = [] ++ Node.val n.
Proof.
  assert (Hin : In Rules.star verbatim_rules) by (cbn; tauto).
  split; [exact Hin|]. split; [reflexivity|].
  exact (@verbatim_value_is_consumed Rules.star
           (Parser.init Options.default (js "***a")) _ _ Hin eq_refl).
Defined.

(* ================================================================= *)
(** ** The star and text rules *)

Section StarText.

Definition all_stars (x : str) : Prop := Forall (fun c => c = char_of "*") x.

Lemma every_cat (P Q R : str -> Prop) (a b : Re str) :
  every P a -> every Q b ->
  (forall x y, P x -> Q y -> R (x ++ y)) ->
  every R (cat a b).
Proof.
  intros Ha Hb H. unfold cat.
  eapply every_bind; [exact Ha|]. intros x Hx.
  eapply every_bind; [exact Hb|]. intros y Hy.
  apply every_ret. auto.
Qed.

Lemma every_look {A} (r : Re A) : every (fun x => x = []) (look r).
Proof.
  intros s x rest. unfold look. destruct (r s); cbn; [tauto|].
  now intros [[= <- <-]|[]].
Qed.

Lemma every_nlook {A} (r : Re A) : every (fun x => x = []) (nlook r).
Proof.
  intros s x rest. unfold nlook. destruct (r s); cbn; [|tauto].
  now intros [[= <- <-]|[]].
Qed.

Lemma all_stars_app (x y : str) :
  all_stars x -> all_stars y -> all_stars (x ++ y).
Proof. intros Hx Hy. apply Forall_app. now split. Qed.

Lemma every_star_chr : every all_stars (cls (js "*")).
Proof.
  apply every_chr. intros c H. cbn in H. rewrite orb_false_r in H.
  apply char_eqb_eq in H. subst. repeat constructor.
Qed.

Lemma every_star_lit : every all_stars (lit (js "*")).
Proof.
  eapply every_weaken; [|apply every_lit]. intros a ->. repeat constructor.
Qed.

Lemma every_star_plus : every all_stars (plus (cls (js "*"))).
Proof.
  intros s. unfold cls. rewrite plus_chr.
  induction s as [|c s IH]; intros a rest; cbn [plus_spec]; [cbn; tauto|].
  destruct (mem c (js "*")) eqn:Ec; [|cbn; tauto].
  cbn in Ec. rewrite orb_false_r in Ec. apply char_eqb_eq in Ec. subst c.
  intro HI. apply in_app_or in HI. destruct HI as [HI|[[= <- <-]|[]]].
  - apply in_map_iff in HI. destruct HI as [[y r] [[= <- <-] HI]].
    apply Forall_cons; [reflexivity|]. exact (IH _ _ HI).
  - repeat constructor.
Qed.

Lemma every_star_rep (n : nat) : every all_stars (rep n (cls (js "*"))).
Proof.
  induction n as [|n IH]; cbn [rep].
  - apply every_ret. constructor.
  - eapply every_cat; [apply every_star_chr|exact IH|apply all_stars_app].
Qed.

Lemma all_stars_nil_r (x y : str) : all_stars x -> y = [] -> all_stars (x ++ y).
Proof. intros H ->. now rewrite app_nil_r. Qed.

Lemma every_star_re : every all_stars star_re.
Proof.
  repeat apply every_alt.
  - eapply every_cat;
      [apply every_star_lit|apply every_nlook|apply all_stars_nil_r].
  - eapply every_cat; [|apply every_nlook|apply all_stars_nil_r].
    eapply every_cat; [apply every_star_rep| |apply all_stars_app].
    apply every_alt; [apply every_star_plus|apply every_ret; constructor].
  - eapply every_cat;
      [apply every_star_rep|apply every_nlook|apply all_stars_nil_r].
  - eapply every_cat;
      [apply every_star_lit|apply every_look|apply all_stars_nil_r].
Qed.

(** Whether the first character of a string satisfies a predicate. *)
Definition head_sat (p : char -> bool) (s : str) : bool :=
  match s with
  | c :: _ => p c
  | [] => false
  end.

Lemma span_split (p : char -> bool) (s : str) :
  s = fst (span p s) ++ snd (span p s)
  /\ Forall (fun c => p c = true) (fst (span p s))
  /\ head_sat p (snd (span p s)) = false.
Proof.
  induction s as [|c s (H1 & H2 & H3)]; cbn [span].
  - repeat split. constructor.
  - destruct (p c) eqn:Ec; cbn [fst snd].
    + split; [cbn [app]; now f_equal|]. split; [now constructor|exact H3].
    + split; [reflexivity|]. split; [constructor|exact Ec].
Qed.

End StarText.

(** The star rule fires exactly on a star that ends the input, or is
    followed by a character other than a star and an opening parenthesis,
    or is followed by a second star that is itself followed by a character
    other than a slash.  When it fires, the value of its node is a run of
    stars, and the [metachar] and [star] flags are [true] afterwards. *)
Theorem star_rule_spec (p : Parser.t) :
  ((exists tok p', Rules.star p = Matched tok p')
   <-> star_here (Parser.input p) = true)
  /\ (forall tok p',
      Rules.star p = Matched tok p' ->
      State.metachar (Parser.state p') = Some true
      /\ State.star (Parser.state p') = Some true
      /\ exists m, tok = Some (Node.plain t_star m) /\ all_stars m).
Proof.
  split.
  - pose proof (matches_star p) as H.
    destruct (star_here (Parser.input p)).
    + split; [reflexivity|]. intros _.
      destruct (Rules.star p) as [|tok p'|] eqn:E; [discriminate|eauto|].
      exfalso. revert E. unfold Rules.star.
      destruct (pmatch _ _ p) as [[m p1]|]; discriminate.
    + split; [|discriminate]. intros (tok & p' & E).
      rewrite E in H. discriminate.
  - intros tok p'. unfold Rules.star.
    destruct (pmatch _ _ p) as [[m p1]|] eqn:E; [|discriminate].
    apply pmatch_Some in E. destruct E as [E _].
    intros [= <- <-]. split; [reflexivity|]. split; [reflexivity|].
    exists m. split; [reflexivity|]. exact (every_exec every_star_re E).
Qed.

(** The node of the text rule: its value is a star and an opening
    parenthesis, taken when one more character that is not a line
    terminator follows; or else it is the longest run of plain text
    characters at the cursor, none of them one of the twelve characters of
    the other rules or a line terminator, and the input left does not go on
    with such a character. *)
Theorem text_rule_value (p : Parser.t) (tok : option Node.t) (p' : Parser.t) :
  Rules.text p = Matched tok p' ->
  exists v,
    tok = Some (Node.plain t_text v)
    /\ Parser.input p = v ++ Parser.input p'
    /\ (v = js "*(" /\ head_sat (fun c => negb (line_terminator c))
                                (Parser.input p') = true
        \/ v <> []
           /\ Forall (fun c => text_char c = true) v
           /\ head_sat text_char (Parser.input p') = false).
Proof.
  unfold Rules.text. destruct (Parser.inside_bracket p); [discriminate|].
  destruct (pmatch _ _ p) as [[m p1]|] eqn:E; [|discriminate].
  apply pmatch_Some in E. destruct E as [E ->].
  destruct (nonempty m) eqn:Hm; [|discriminate].
  intros [= <- <-]. exists m. split; [reflexivity|].
  pose proof (@sound_exec _ _ _ sound_text_re E) as Hs.
  split; [exact Hs|].
  rewrite text_re_spec in E.
  change (Parser.input (updatePosition m p))
    with (skipn (length m) (Parser.input p)) in *.
  destruct (group_here (Parser.input p)) eqn:Hg.
  - injection E as <-. left. split; [reflexivity|].
    unfold group_here in Hg.
    destruct (Parser.input p) as [|a [|b [|c r]]]; try discriminate.
    apply andb_true_iff in Hg. exact (proj2 Hg).
  - right. destruct (span_split text_char (Parser.input p)) as (H1 & H2 & H3).
    destruct (fst (span text_char (Parser.input p))) as [|c l] eqn:Ef;
      [discriminate|].
    injection E as <-. split; [discriminate|]. split; [exact H2|].
    set (tl := snd (span text_char (Parser.input p))) in *.
    rewrite H1. now rewrite skipn_app, skipn_all, Nat.sub_diag.
Qed.

Lemma text_rule_value_witness :
  Rules.text (Parser.init Options.default (js "foo.bar"))
  = Matched (Some (Node.plain t_text (js "foo")))
      (Parser.mk Options.default (js ".bar") (js "foo") State.init None []
                 None false false false)
  /\ exists v,
      Some (Node.plain t_text (js "foo")) = Some (Node.plain t_text v)
      /\ js "foo.bar" = v ++ js ".bar"
      /\ (v = js "*(" /\ head_sat (fun c => negb (line_terminator c))
                                  (js ".bar") = true
          \/ v <> []
             /\ Forall (fun c => text_char c = true) v
             /\ head_sat text_char (js ".bar") = false).
Proof.
  split; [reflexivity|].
  exact (@text_rule_value (Parser.init Options.default (js "foo.bar")) _ _
           eq_refl).
Defined.

Section PlainText.

Lemma text_char_is_plain (c : char) (r parsed : str) :
  text_char c = true ->
  (negb (nonempty parsed) && prefix_here (c :: r)) = false
  /\ escape_here (c :: r) = false
  /\ head_in [dquote; squote] (c :: r) = false
  /\ head_in (js "!") (c :: r) = false
  /\ head_in (js ".") (c :: r) = false
  /\ sign_here (char_of "+") (c :: r) = false
  /\ sign_here (char_of "?") (c :: r) = false
  /\ globstar_here (c :: r) = false
  /\ star_here (c :: r) = false
  /\ head_in (js "/") (c :: r) = false
  /\ backslash_here (c :: r) = false
  /\ square_here (c :: r) = false
  /\ head_in (js "[") (c :: r) = false
  /\ group_here (c :: r) = false.
Proof.
  unfold text_char, NOT_CHARS, prefix_here, escape_here, head_in, sign_here,
    globstar_here, star_here, backslash_here, square_here, group_here,
    dquote, squote, bslash.
  intro H. apply andb_true_iff in H. destruct H as [H _].
  apply negb_true_iff in H. cbn in H.
  repeat (apply orb_false_iff in H; destruct H as [? H]).
  cbn.
  repeat match goal with
         | E : char_eqb c ?k = false |- context [char_eqb c ?k] => rewrite E
         end.
  cbn. destruct (nonempty parsed);
    destruct r as [|b [|d r']]; repeat split; reflexivity.
Qed.

Lemma matches_false (o : Outcome) : matches o = false -> o = NoMatch.
Proof. now destruct o. Qed.

Lemma span_all (p : char -> bool) (s : str) :
  Forall (fun c => p c = true) s -> span p s = (s, []).
Proof.
  induction 1 as [|c s Hc _ IH]; cbn [span]; [reflexivity|].
  now rewrite Hc, IH.
Qed.

Lemma scan_one_step (fuel : nat) p tok p' nodes consumed :
  Parser.input p <> [] ->
  next p = Matched tok p' ->
  Parser.input p' = [] ->
  scan (S fuel) p nodes consumed
  = Done (push tok nodes) (consumed ++ [length (Parser.input p)]) p'.
Proof.
  intros Hne Hn Hi. cbn [scan].
  destruct (Parser.input p) as [|c r] eqn:Ein; [now elim Hne|].
  rewrite Hn, Hi. cbn [length Nat.ltb Nat.leb Nat.sub].
  destruct fuel; cbn [scan]; now rewrite Hi.
Qed.

End PlainText.

(** A pattern made of plain text characters only (none of the twelve
    characters of the other rules, no line terminator) is tokenized in one
    step to a single text node that carries the whole pattern. *)
Theorem plain_text_is_one_node (o : Options.t) (s : str) :
  s <> [] ->
  Forall (fun c => text_char c = true) s ->
  tokenize o s
  = Done [Node.plain t_text s] [length s]
         (Parser.mk o [] s State.init None [] None false false false).
Proof.
  intros Hne Hall. destruct s as [|c r]; [now elim Hne|].
  pose proof Hall as Hc. apply Forall_cons_iff in Hc. destruct Hc as [Hc _].
  destruct (@text_char_is_plain c r [] Hc)
    as (H1 & H2 & H3 & H4 & H5 & H6 & H7 & H8 & H9 & H10 & H11 & H12
        & H13 & H14).
  set (p := Parser.init o (c :: r)).
  assert (Hstruct : Forall (fun rule => rule p = NoMatch) structural_rules).
  { unfold structural_rules.
    repeat apply Forall_cons; try apply Forall_nil; apply matches_false.
    - now rewrite matches_prefix.
    - now rewrite matches_escape.
    - now rewrite matches_quoted.
    - now rewrite matches_not.
    - now rewrite matches_dot.
    - now rewrite matches_plus.
    - now rewrite matches_qmark.
    - now rewrite matches_globstar.
    - now rewrite matches_star.
    - now rewrite matches_slash.
    - now rewrite matches_backslash.
    - now rewrite matches_square.
    - now rewrite matches_bracket. }
  assert (Ht : Rules.text p
               = Matched (Some (Node.plain t_text (c :: r)))
                   (updatePosition (c :: r) p)).
  { unfold Rules.text, pmatch. cbn [Parser.inside_bracket p Parser.init].
    change (Parser.input p) with (c :: r).
    rewrite text_re_spec, H14, (@span_all text_char (c :: r) Hall).
    reflexivity. }
  assert (Hn : next p
               = Matched (Some (Node.plain t_text (c :: r)))
                   (updatePosition (c :: r) p)).
  { unfold next. rewrite rules_all_structural,
      (first_match_app_NoMatch _ Hstruct).
    cbn [first_match]. now rewrite Ht. }
  assert (Hi : Parser.input (updatePosition (c :: r) p) = []).
  { change (skipn (length (c :: r)) (c :: r) = []). apply skipn_all. }
  unfold tokenize. fold p. change (length (c :: r)) with (S (length r)).
  rewrite (@scan_one_step (length r) p _ _ [] [] Hne Hn Hi).
  cbn [push app]. f_equal.
  unfold updatePosition, consume, slice_from, p, Parser.init.
  cbn [Parser.set_parsed Parser.set_input Parser.input Parser.options
       Parser.parsed Parser.state Parser.bos_val Parser.append
       Parser.notRegex Parser.inside_bracket Parser.inside_brace
       Parser.inside_paren app].
  now rewrite skipn_all.
Qed.

Lemma plain_text_is_one_node_witness :
  js "foo" <> []
  /\ Forall (fun c => text_char c = true) (js "foo")
  /\ tokenize Options.default (js "foo")
     = Done [Node.plain t_text (js "foo")] [3]
            (Parser.mk Options.default [] (js "foo") State.init None []
                       None false false false).
Proof.
  assert (H1 : js "foo" <> []) by discriminate.
  assert (H2 : Forall (fun c => text_char c = true) (js "foo"))
    by (repeat constructor).
  split; [exact H1|]. split; [exact H2|].
  exact (@plain_text_is_one_node Options.default (js "foo") H1 H2).
Defined.

Lemma star_rule_spec_witness :
  star_here (js "**a") = true
  /\ Rules.star (Parser.init Options.default (js "**a"))
     = Matched (Some (Node.plain t_star (js "**")))
         (Parser.mk Options.default (js "a") (js "**")
                    (State.mk 0 [] None None None (Some true) None
                              (Some true) None)
                    None [] None false false false)
  /\ exists m,
      Some (Node.plain t_star (js "**")) = Some (Node.plain t_star m)
      /\ all_stars m.
Proof.
  split; [reflexivity|]. split; [reflexivity|].
  exact (proj2 (proj2 (proj2 (star_rule_spec
                                (Parser.init Options.default (js "**a")))
                             _ _ eq_refl))).
Defined.

(* ================================================================= *)
(** ** Rule order *)

(** The escape rule and the backslash rule called on one and the same
    parser, outside a bracket context: the escape rule fails and the
    backslash rule matches exactly when the input is a single backslash or
    starts with a backslash followed by a line terminator.  On every other
    input on which the backslash rule matches, the escape rule matches as
    well. *)
Theorem backslash_after_escape (p : Parser.t) :
  Parser.inside_bracket p = false ->
  (Rules.escape p = NoMatch
   /\ (exists tok p', Rules.backslash p = Matched tok p'))
  <-> (Parser.input p = [bslash]
       \/ exists c r,
           Parser.input p = bslash :: c :: r /\ line_terminator c = true).
Proof.
  intros Hib.
  pose proof (matches_escape p Hib) as H1.
  pose proof (matches_backslash p) as H2.
  split.
  - intros [He (tok & p' & Hb)].
    rewrite He in H1. rewrite Hb in H2.
    cbn [matches] in H1, H2. symmetry in H1, H2.
    unfold escape_here in H1. unfold backslash_here in H2.
    destruct (Parser.input p) as [|a r]; [discriminate|].
    apply andb_true_iff in H2. destruct H2 as [Ha _].
    rewrite Ha in H1. apply char_eqb_eq in Ha. subst a.
    destruct r as [|c r]; [now left|]. right. exists c, r.
    split; [reflexivity|].
    cbn [andb] in H1. apply orb_false_iff in H1. destruct H1 as [H1 _].
    now apply negb_false_iff in H1.
  - intros Hin.
    assert (He : escape_here (Parser.input p) = false).
    { destruct Hin as [-> | (c & r & -> & Hc)]; [reflexivity|].
      unfold escape_here. rewrite Hc. reflexivity. }
    assert (Hb : backslash_here (Parser.input p) = true).
    { destruct Hin as [-> | (c & r & -> & Hc)]; [reflexivity|].
      unfold backslash_here, structural.
      revert Hc. unfold line_terminator. char_cases; try reflexivity;
        discriminate. }
    rewrite He in H1. rewrite Hb in H2. split.
    + now apply matches_false.
    + destruct (Rules.backslash p) as [|tok p'|] eqn:E;
        [discriminate|now exists tok, p'|].
      exfalso. revert E.
      pose proof never_throws_all as Hall.
      rewrite Forall_forall in Hall. apply Hall. cbn. tauto.
Qed.

Lemma backslash_after_escape_witness :
  Parser.inside_bracket (Parser.init Options.default (js "\")) = false
  /\ Rules.escape (Parser.init Options.default (js "\")) = NoMatch
  /\ Rules.backslash (Parser.init Options.default (js "\"))
     = Matched (Some (Node.plain t_backslash (js "\")))
         (Parser.mk Options.default [] (js "\") State.init None [] None
                    false false false)
  /\ (Parser.input (Parser.init Options.default (js "\")) = [bslash]
      \/ exists c r,
          Parser.input (Parser.init Options.default (js "\"))
          = bslash :: c :: r
          /\ line_terminator c = true).
Proof.
  split; [reflexivity|]. split; [reflexivity|]. split; [reflexivity|].
  apply (proj1 (@backslash_after_escape
                  (Parser.init Options.default (js "\")) eq_refl)).
  split; [reflexivity|]. do 2 eexists. reflexivity.
Defined.

(** Two stars followed by a comma or a closing parenthesis are matched by
    the pattern of the globstar rule and by the pattern of the star rule;
    the globstar rule comes first in the rule set, so it is the one that
    answers. *)
Theorem globstar_before_star (p : Parser.t) (c : char) (r : str) :
  Parser.inside_bracket p = false ->
  Parser.notRegex p = None ->
  Parser.input p = js "**" ++ c :: r ->
  mem c (js ",)") = true ->
  next p = Rules.globstar p
  /\ matches (Rules.globstar p) = true
  /\ matches (Rules.star p) = true.
Proof.
  intros Hib Hnr Hin Hc.
  assert (Hg : matches (Rules.globstar p) = true).
  { rewrite matches_globstar, Hin. cbn in Hc |- *.
    destruct (char_eqb c 44%N) eqn:E1.
    - apply char_eqb_eq in E1. now subst.
    - destruct (char_eqb c 41%N) eqn:E2; [|discriminate].
      apply char_eqb_eq in E2. now subst. }
  assert (Hs : matches (Rules.star p) = true).
  { rewrite matches_star, Hin. cbn in Hc |- *.
    destruct (char_eqb c 44%N) eqn:E1.
    - apply char_eqb_eq in E1. now subst.
    - destruct (char_eqb c 41%N) eqn:E2; [|discriminate].
      apply char_eqb_eq in E2. now subst. }
  split; [|split; assumption].
  unfold next, Rules.all.
  assert (H1 : Rules.prefix p = NoMatch).
  { apply matches_false. rewrite matches_prefix, Hin.
    now destruct (nonempty _). }
  assert (H2 : Rules.escape p = NoMatch).
  { apply matches_false. now rewrite (matches_escape _ Hib), Hin. }
  assert (H3 : Rules.quoted p = NoMatch).
  { apply matches_false. now rewrite matches_quoted, Hin. }
  assert (H4 : Rules.not p = NoMatch).
  { apply matches_false. now rewrite (matches_not _ Hnr), Hin. }
  assert (H5 : Rules.dot p = NoMatch).
  { apply matches_false. now rewrite matches_dot, Hin. }
  assert (H6 : Rules.plus p = NoMatch).
  { apply matches_false. now rewrite matches_plus, Hin. }
  assert (H7 : Rules.qmark p = NoMatch).
  { apply matches_false. now rewrite matches_qmark, Hin. }
  cbn [first_match]. rewrite H1, H2, H3, H4, H5, H6, H7.
  destruct (Rules.globstar p); [discriminate|reflexivity|reflexivity].
Qed.

Lemma globstar_before_star_witness :
  Parser.inside_bracket (Parser.init Options.default (js "**,a")) = false
  /\ Parser.notRegex (Parser.init Options.default (js "**,a")) = None
  /\ Parser.input (Parser.init Options.default (js "**,a"))
     = js "**" ++ char_of "," :: js "a"
  /\ mem (char_of ",") (js ",)") = true
  /\ next (Parser.init Options.default (js "**,a"))
     = Rules.globstar (Parser.init Options.default (js "**,a"))
  /\ matches (Rules.star (Parser.init Options.default (js "**,a"))) = true.
Proof.
  do 4 (split; [reflexivity|]).
  destruct (@globstar_before_star (Parser.init Options.default (js "**,a"))
              (char_of ",") (js "a") eq_refl eq_refl eq_refl eq_refl)
    as (H1 & _ & H3).
  split; [exact H1|exact H3].
Defined.

(* ================================================================= *)
(** ** Escaped quotes inside a quoted span *)

Section EscapedQuote.

Variable input : str.
Variable q : char.

(** The loop of [advanceTo] over characters that are neither backslashes
    nor the end character, when no backslash follows them: one turn for
    each, one character recorded at each turn. *)
Lemma loop_over_plain :
  forall content pre post s,
    input = pre ++ content ++ post ->
    Forall (fun c => c <> bslash /\ c <> q) content ->
    (forall r, post <> bslash :: r) ->
    @scanned input s -> idx s = length pre ->
    exists s',
      @scanned input s' /\ idx s' = length pre + length content
      /\ forall fuel,
          loop (length content + fuel) input [q] s = loop fuel input [q] s'.
Proof.
  induction content as [|c cs IH]; intros pre post s Hin Hall Hpost Hs Hidx.
  - exists s. split; [assumption|]. split; [simpl; lia|]. reflexivity.
  - apply Forall_cons_iff in Hall. destruct Hall as [[Hc1 Hc2] Hall'].
    assert (Hch : ch s = [c]).
    { destruct Hs as (Hch & _). now rewrite Hch, Hidx, Hin, charAt_str_app. }
    assert (Ecq : char_eqb c q = false)
      by (apply not_true_is_false; intro E; now apply char_eqb_eq in E).
    assert (Hin' : input = (pre ++ [c]) ++ cs ++ post)
      by (now rewrite <- app_assoc).
    assert (Hnb : str_eqb (ch (@step input s)) [bslash] = false).
    { unfold step. cbn [ch]. rewrite Hidx.
      replace (S (length pre)) with (length (pre ++ [c]))
        by (rewrite length_app; cbn; lia).
      rewrite Hin', charAt_str_app.
      apply not_true_is_false. intro E. apply str_eqb_eq in E.
      destruct cs as [|c' cs]; cbn in E.
      - destruct post as [|x post]; [discriminate|]. injection E as E.
        subst x. now apply (Hpost post).
      - injection E as E. apply Forall_cons_iff in Hall'.
        now apply (proj1 (proj1 Hall')). }
    destruct (IH (pre ++ [c]) post (@step input s) Hin' Hall' Hpost
                 (scanned_step Hs))
      as (s' & Hs' & Hi' & Hl).
    + unfold step. cbn [idx]. rewrite Hidx, length_app. simpl. lia.
    + exists s'. split; [assumption|].
      split; [rewrite Hi', length_app; simpl; lia|].
      intro fuel.
      change (length (c :: cs) + fuel) with (S (length cs + fuel)).
      cbn [loop]. rewrite Hch. cbn [nonempty str_eqb]. rewrite Ecq.
      cbn [andb negb]. rewrite advance_unfold, Hnb. apply Hl.
Qed.

(** One call of [advance] from a character that stands before a backslash:
    the two inner calls skip the backslash and record the character after
    it. *)
Lemma advance_escaped (pre : str) (c x : char) (post : str) (f : nat)
      (s : Scan) :
  input = pre ++ c :: bslash :: x :: post ->
  x <> bslash -> (forall r, post <> bslash :: r) ->
  idx s = length pre ->
  advance (S (S f)) input s
  = Some (@step input (@step input (@step input s))).
Proof.
  intros Hin Hx Hpost Hidx.
  assert (H1 : ch (@step input s) = [bslash]).
  { unfold step. cbn [ch]. rewrite Hidx.
    replace (S (length pre)) with (length pre + length [c])
      by (simpl; lia).
    rewrite Hin.
    exact (charAt_str_mid pre [c] (bslash :: x :: post)). }
  assert (H2 : ch (@step input (@step input s)) = [x]).
  { unfold step. cbn [ch idx]. rewrite Hidx.
    replace (S (S (length pre))) with (length pre + length [c; bslash])
      by (simpl; lia).
    rewrite Hin.
    exact (charAt_str_mid pre [c; bslash] (x :: post)). }
  assert (H3 : str_eqb (ch (@step input (@step input (@step input s))))
                       [bslash] = false).
  { unfold step. cbn [ch idx]. rewrite Hidx.
    replace (S (S (S (length pre))))
      with (length pre + length [c; bslash; x]) by (simpl; lia).
    rewrite Hin.
    rewrite (charAt_str_mid pre [c; bslash; x] post
             : charAt_str (pre ++ c :: bslash :: x :: post)
                          (length pre + length [c; bslash; x]) = _).
    apply not_true_is_false. intro E. apply str_eqb_eq in E.
    destruct post as [|y post]; [discriminate|]. injection E as E.
    subst y. now apply (Hpost post). }
  assert (Ex : str_eqb [x] [bslash] = false).
  { apply not_true_is_false. intro E. apply str_eqb_eq in E.
    injection E as E. now apply Hx. }
  rewrite advance_unfold, H1.
  replace (str_eqb [bslash] [bslash]) with true by reflexivity.
  rewrite advance_unfold, H2, Ex.
  rewrite advance_unfold, H3. reflexivity.
Qed.

Lemma filter_escaped (c : char) :
  c <> bslash -> q <> bslash ->
  filter not_backslash [c; bslash; q] = [c; q].
Proof.
  intros Hc Hq. cbn [filter]. unfold not_backslash.
  assert (E1 : char_eqb c bslash = false)
    by (apply not_true_is_false; intro E; now apply char_eqb_eq in E).
  assert (E2 : char_eqb q bslash = false)
    by (apply not_true_is_false; intro E; now apply char_eqb_eq in E).
  rewrite E1, E2. reflexivity.
Qed.

(** A span with one escaped end character, not at its start: the scan
    passes over it and stops on the next end character. *)
Lemma advanceTo_escaped (a : str) (c : char) (t rest : str) :
  input = a ++ c :: bslash :: q :: t ++ q :: rest ->
  q <> bslash ->
  Forall (fun x => x <> bslash /\ x <> q) a ->
  c <> bslash -> c <> q ->
  Forall (fun x => x <> bslash /\ x <> q) t ->
  advanceTo input [q]
  = mkTok (length a + length t + 4) (a ++ c :: q :: t)
          (escape_all (a ++ c :: q :: t)).
Proof.
  intros Hin Hq Ha Hc1 Hc2 Ht.
  assert (Hlen : length input = length a + (length t + length rest + 4)).
  { rewrite Hin, length_app. simpl. rewrite length_app. simpl. lia. }
  assert (Hhd : forall r, c :: bslash :: q :: t ++ q :: rest <> bslash :: r).
  { intros r E. injection E as E _. now apply Hc1. }
  destruct (@loop_over_plain a [] (c :: bslash :: q :: t ++ q :: rest)
              (start input) Hin Ha Hhd (scanned_start input) eq_refl)
    as (s1 & Hs1 & Hi1 & Hl1).
  simpl in Hi1.
  assert (Hch1 : ch s1 = [c]).
  { destruct Hs1 as (Hch & _). rewrite Hch, Hi1, Hin.
    exact (charAt_str_app a (c :: bslash :: q :: t ++ q :: rest)). }
  assert (Ecq : char_eqb c q = false)
    by (apply not_true_is_false; intro E; now apply char_eqb_eq in E).
  assert (Hpost : forall r, t ++ q :: rest <> bslash :: r).
  { intros r E. destruct t as [|y t'].
    - injection E as E _. now apply Hq.
    - injection E as E _. apply Forall_cons_iff in Ht.
      now apply (proj1 (proj1 Ht)). }
  assert (Eadv : advance (S (length input)) input s1
                 = Some (@step input (@step input (@step input s1)))).
  { replace (S (length input)) with (S (S (length input - 1))) by lia.
    exact (@advance_escaped a c q (t ++ q :: rest) (length input - 1) s1
             Hin Hq Hpost Hi1). }
  pose (s3 := @step input (@step input (@step input s1))).
  assert (Hs3 : @scanned input s3)
    by (unfold s3; now do 3 apply scanned_step).
  assert (Hi3 : idx s3 = length (a ++ [c; bslash; q])).
  { unfold s3, step. cbn [idx]. rewrite Hi1, length_app. simpl. lia. }
  assert (Hin3 : input = (a ++ [c; bslash; q]) ++ t ++ q :: rest)
    by (now rewrite <- app_assoc).
  destruct (@loop_plain input q rest Hq t (a ++ [c; bslash; q])
              (length t + length rest + 4) s3 Hin3 Ht Hs3 Hi3)
    as (s' & E' & Hs' & Hi'); [lia|].
  unfold advanceTo, run.
  replace (S (length input))
    with (length a + S (length t + length rest + 4)) at 1 by lia.
  rewrite Hl1. cbn [loop]. rewrite Hch1. cbn [nonempty str_eqb].
  rewrite Ecq. cbn [andb negb]. rewrite Eadv. fold s3. rewrite E'.
  destruct Hs' as (_ & Hl' & Hval & Hesc).
  assert (Hpre : firstn (idx s') input = a ++ [c; bslash; q] ++ t).
  { rewrite Hi', Hin3, app_assoc, <- length_app.
    rewrite firstn_app, Nat.sub_diag, firstn_all. simpl firstn.
    now rewrite app_nil_r, app_assoc. }
  rewrite Hpre, !filter_app, (filter_escaped Hc1 Hq) in Hval.
  rewrite (filter_not_backslash Ha), (filter_not_backslash Ht) in Hval.
  replace (idx s' - length input) with 0 in Hesc
    by (rewrite Hi', length_app; simpl; lia).
  cbn [repeat] in Hesc. rewrite app_nil_r in Hesc.
  rewrite Hi', length_app in Hl'. simpl in Hl'.
  destruct (tok s') as [l v e]. cbn in *. subst. f_equal. lia.
Qed.

End EscapedQuote.

(** A quoted span whose only backslash stands before a quote character and
    is not the first character of the span: that quote character does not
    end the span.  The rule consumes through the next quote character, and
    the value of the quoted node is the span without its backslash, the
    escaped quote included, with one backslash before each character. *)
Theorem quoted_skips_escaped_quote
        (p : Parser.t) (q : char) (a : str) (c : char) (t rest : str) :
  Parser.input p = q :: a ++ c :: bslash :: q :: t ++ q :: rest ->
  mem q [dquote; squote] = true ->
  Forall (fun x => x <> bslash /\ x <> q) a ->
  c <> bslash -> c <> q ->
  Forall (fun x => x <> bslash /\ x <> q) t ->
  Rules.quoted p
  = Matched (Some (Node.plain t_quoted (escape_all (a ++ c :: q :: t))))
      (consume (length a + length t + 4) (updatePosition [q] p))
  /\ Parser.input (consume (length a + length t + 4) (updatePosition [q] p))
     = rest.
Proof.
  intros Hin Hq Ha Hc1 Hc2 Ht.
  assert (Hqb : q <> bslash) by (intros ->; discriminate).
  assert (Ei : Parser.input (updatePosition [q] p)
               = a ++ c :: bslash :: q :: t ++ q :: rest)
    by (cbn; now rewrite Hin).
  split.
  - unfold Rules.quoted, pmatch. rewrite Hin, (@quote_re_spec q _ Hq).
    unfold Rules.quoted_body. rewrite Ei.
    assert (Hocc : In q (a ++ c :: bslash :: q :: t ++ q :: rest)).
    { apply in_or_app. right. right. right. now left. }
    rewrite (proj2 (indexOf_found_single _ q) Hocc).
    rewrite (@advanceTo_escaped _ q a c t rest eq_refl Hqb Ha Hc1 Hc2 Ht).
    reflexivity.
  - change (skipn (length a + length t + 4)
                  (Parser.input (updatePosition [q] p)) = rest).
    rewrite Ei.
    replace (a ++ c :: bslash :: q :: t ++ q :: rest)
      with ((a ++ [c; bslash; q] ++ t ++ [q]) ++ rest)
      by (now rewrite <- !app_assoc).
    rewrite skipn_app.
    replace (length a + length t + 4)
      with (length (a ++ [c; bslash; q] ++ t ++ [q]))
      by (rewrite !length_app; simpl; lia).
    now rewrite skipn_all, Nat.sub_diag.
Qed.

Lemma quoted_skips_escaped_quote_witness :
  Rules.quoted (Parser.init Options.default (js "'it\'s' x"))
  = Matched (Some (Node.plain t_quoted (js "\i\t\'\s")))
      (Parser.mk Options.default (js " x") (js "'") State.init None []
                 None false false false).
Proof.
  assert (Ha : Forall (fun x => x <> bslash /\ x <> squote) (js "i")).
  { repeat constructor; discriminate. }
  assert (Ht : Forall (fun x => x <> bslash /\ x <> squote) (js "s")).
  { repeat constructor; discriminate. }
  assert (Hc1 : char_of "t" <> bslash) by discriminate.
  assert (Hc2 : char_of "t" <> squote) by discriminate.
  exact (proj1 (@quoted_skips_escaped_quote
                  (Parser.init Options.default (js "'it\'s' x"))
                  squote (js "i") (char_of "t") (js "s") (js " x")
                  eq_refl eq_refl Ha Hc1 Hc2 Ht)).
Defined.

(** A backslash that is the first character of a quoted span does not
    protect the quote character after it: the scan steps over the backslash
    and stops on that quote, so the quoted node has an empty value and the
    rule consumes the opening quote, the backslash and the quote. *)
Theorem quoted_leading_backslash (p : Parser.t) (q : char) (rest : str) :
  Parser.input p = q :: bslash :: q :: rest ->
  mem q [dquote; squote] = true ->
  Rules.quoted p
  = Matched (Some (Node.plain t_quoted []))
      (consume 2 (updatePosition [q] p))
  /\ Parser.input (consume 2 (updatePosition [q] p)) = rest.
Proof.
  intros Hin Hq.
  assert (Ei : Parser.input (updatePosition [q] p) = bslash :: q :: rest)
    by (cbn; now rewrite Hin).
  split; [|change (skipn 2 (Parser.input (updatePosition [q] p)) = rest);
           now rewrite Ei].
  unfold Rules.quoted, pmatch. rewrite Hin, (@quote_re_spec q _ Hq).
  unfold Rules.quoted_body. rewrite Ei.
  assert (Hocc : In q (bslash :: q :: rest)) by (right; now left).
  rewrite (proj2 (indexOf_found_single _ q) Hocc).
  assert (Et : advanceTo (bslash :: q :: rest) [q] = mkTok 2 [] []).
  { unfold mem in Hq. cbn in Hq.
    destruct (char_eqb q dquote) eqn:E1.
    - apply char_eqb_eq in E1. subst q. reflexivity.
    - destruct (char_eqb q squote) eqn:E2; [|discriminate].
      apply char_eqb_eq in E2. subst q. reflexivity. }
  rewrite Et. reflexivity.
Qed.

Lemma quoted_leading_backslash_witness :
  Rules.quoted (Parser.init Options.default (js "'\'a'"))
  = Matched (Some (Node.plain t_quoted []))
      (Parser.mk Options.default (js "a'") (js "'") State.init None []
                 None false false false).
Proof.
  exact (proj1 (@quoted_leading_backslash
                  (Parser.init Options.default (js "'\'a'"))
                  squote (js "a'") eq_refl eq_refl)).
Defined.

(* ================================================================= *)
(** ** The bracket rule on an escaped closing bracket *)

(** C7: the rule does not treat an opening bracket followed by an escaped
    closing bracket the way its own edge case is written.  On every input
    that starts with an opening bracket, a backslash and a closing bracket,
    the pattern of the rule captures the backslash as the body and the
    closing bracket as [close]: the rule returns a bracket node that is
    not escaped, with the backslash as [inner], and leaves everything after
    the closing bracket in the input.  The branch that scans on character
    by character is never entered, whatever the parser; and the pattern
    with nothing but a text character after the escaped closing bracket
    tokenizes to that closed class followed by a text node. *)
Theorem bracket_escaped_close_ends_class :
  (forall p rest,
      Parser.input p = js "[\]" ++ rest ->
      Rules.bracket p
      = Matched
          (Some (Node.mk t_bracket (js "[\]") None None None (Some false)
                         (Some []) (Some (js "\")) (Some (js "]"))))
          (updatePosition (js "[\]") p)
      /\ Parser.input (updatePosition (js "[\]") p) = rest)
  /\ (forall p m p1,
      pmatch bracket_re (fun m => fst (fst (fst m))) p = Some (m, p1) ->
      str_eqb (collapse_backslashes (or_group (snd (fst m)) None)) []
      && str_eqb (slice_to 2 (Parser.input p1)) (js "\]") = false)
  /\ nodes_of (tokenize Options.default (js "[\]a"))
     = Some [Node.mk t_bracket (js "[\]") None None None (Some false)
                     (Some []) (Some (js "\")) (Some (js "]"));
             Node.plain t_text (js "a")].
Proof.
  split; [|split].
  - intros p rest Hin.
    assert (Hno : ~ In (char_of "]") (js "\"))
      by (cbn; intros [E|[]]; discriminate).
    assert (Hb : js "\" <> []) by discriminate.
    destruct (@bracket_class_re_closed [] (js "\") rest
                (or_introl eq_refl) Hb Hno (fun _ => eq_refl))
      as [tl Htl].
    assert (He : exec bracket_re (Parser.input p)
                 = Some (js "[\]", Some [], Some (js "\"), Some (js "]"))).
    { rewrite Hin. unfold exec, bracket_re, alt.
      change (js "[\]" ++ rest)
        with (js "[" ++ [] ++ js "\" ++ js "]" ++ rest).
      now rewrite Htl. }
    split.
    + unfold Rules.bracket, pmatch. rewrite He. reflexivity.
    + change (skipn 3 (Parser.input p) = rest). now rewrite Hin.
  - exact bracket_edge_unreachable.
  - vm_compute. reflexivity.
Qed.

Lemma bracket_escaped_close_ends_class_witness :
  Rules.bracket (Parser.init Options.default (js "[\]a"))
  = Matched
      (Some (Node.mk t_bracket (js "[\]") None None None (Some false)
                     (Some []) (Some (js "\")) (Some (js "]"))))
      (Parser.mk Options.default (js "a") (js "[\]") State.init None []
                 None false false false).
Proof.
  exact (proj1 (proj1 bracket_escaped_close_ends_class
                  (Parser.init Options.default (js "[\]a")) (js "a")
                  eq_refl)).
Defined.
